(** * asuit-mmg: the doctor-registry monitor of [main.py]

    A shallow embedding of the state-diffing and caching engine of
    [main.py] ([get_doctor_locations], [detect_changes], [load_state],
    [main] and the helpers they call), followed by the properties of it
    that the specification states.

    Python objects that the program shares and mutates are kept in an
    explicit store: doctor dicts and location lists live at addresses, so
    that two references to one object are two copies of one address. *)

From Stdlib Require Import ZArith String Ascii List Lia.
From stdpp Require Import base option list gmap strings.

Open Scope string_scope.
Open Scope list_scope.
Open Scope Z_scope.

(** ** Strings

    Strings are sequences of 8-bit characters, read as Latin-1 code
    points. *)

Module Str.

(** [c.isspace()] for a code point below 256. *)
Definition isspace (c : ascii) : bool :=
  let n := nat_of_ascii c in
  ((9 <=? n) && (n <=? 13) || (28 <=? n) && (n <=? 32)
   || (n =? 133) || (n =? 160))%nat.

Fixpoint lstrip (s : string) : string :=
  match s with
  | EmptyString => EmptyString
  | String c s' => if isspace c then lstrip s' else s
  end.

Fixpoint rstrip (s : string) : string :=
  match s with
  | EmptyString => EmptyString
  | String c s' =>
      match rstrip s' with
      | EmptyString => if isspace c then EmptyString else String c EmptyString
      | r => String c r
      end
  end.

(** [s.strip()] *)
Definition strip (s : string) : string := rstrip (lstrip s).

(** [s.startswith(p)] *)
Definition startswith (s p : string) : bool := String.prefix p s.

(** [s.replace(old, '')] for a non-empty [old]: every occurrence of [old],
    found from the left and without overlap, is dropped.  [skip] counts the
    characters of the current occurrence that are still to be dropped. *)
Fixpoint remove_from (old : string) (skip : nat) (s : string) : string :=
  match s with
  | EmptyString => EmptyString
  | String c s' =>
      match skip with
      | S k => remove_from old k s'
      | O =>
          if String.prefix old s
          then remove_from old (Nat.pred (String.length old)) s'
          else String c (remove_from old O s')
      end
  end.

Definition remove (s old : string) : string := remove_from old O s.

(** [c.lower()] for a code point below 256. *)
Definition lower_char (c : ascii) : ascii :=
  let n := nat_of_ascii c in
  if ((65 <=? n) && (n <=? 90)
      || (192 <=? n) && (n <=? 222) && negb (n =? 215))%nat
  then ascii_of_nat (n + 32) else c.

Fixpoint lower (s : string) : string :=
  match s with
  | EmptyString => EmptyString
  | String c s' => String (lower_char c) (lower s')
  end.

(** The truth value of a string: [bool(s)]. *)
Definition truthy (s : string) : bool :=
  match s with EmptyString => false | _ => true end.

End Str.

(** ** Dictionaries that are iterated

    A Python [dict] keeps its keys in insertion order, and [detect_changes]
    walks [current_ids] and [previous_ids] in that order; such a dict is a
    list of items with no key twice.  The location cache is only looked up
    and stored into, and is a [gmap]. *)

Module Dict.
Section Dict.
Context {V : Type}.

Definition keys (d : list (string * V)) : list string := map fst d.

(** [d.get(k)] *)
Fixpoint get (k : string) (d : list (string * V)) : option V :=
  match d with
  | [] => None
  | (k', v) :: d' => if String.eqb k k' then Some v else get k d'
  end.

(** [k in d] *)
Definition contains (k : string) (d : list (string * V)) : bool :=
  match get k d with Some _ => true | None => false end.

(** [d[k] = v]: an existing key keeps its place, a new one goes last. *)
Fixpoint set (k : string) (v : V) (d : list (string * V)) : list (string * V) :=
  match d with
  | [] => [(k, v)]
  | (k', v') :: d' =>
      if String.eqb k k' then (k', v) :: d' else (k', v') :: set k v d'
  end.

(** [{key(x): val(x) for x in xs}] *)
Definition comprehension {A : Type} (key : A -> string) (val : A -> V)
    (xs : list A) : list (string * V) :=
  fold_left (fun d x => set (key x) (val x) d) xs [].

(** The invariant of the Python type: no key occurs twice. *)
Definition wf (d : list (string * V)) : Prop := NoDup (keys d).
End Dict.
End Dict.

(** ** Data

    A doctor is a Python dict with the keys [id], [first_name],
    [last_name], [availability] and, once [detect_changes] has attached it
    (or when it was read back from the state file), [locations], whose
    value is a reference to a list object. *)

Definition addr := nat.

Record doctor := Doctor {
  doctor_id : string;
  first_name : string;
  last_name : string;
  availability : string;
  locations : option addr
}.

(** An entry of the location cache: [{'locations': ..., 'timestamp': ...}].
    Entries are created whole and never updated in place. *)
Record cache_entry := CacheEntry {
  entry_locations : addr;
  timestamp : Z
}.

(** The dict that [load_state] returns; a JSON document may lack either
    key, which is why the program reads both with [.get(key, {})]. *)
Record state_dict := StateDict {
  sd_doctors : option (list (string * addr));
  sd_location_cache : option (gmap string cache_entry)
}.

(** The dict that [detect_changes] returns.  Its ['location_cache'] entry
    is the cache object it was given, which the store holds. *)
Record changes := Changes {
  added : list addr;
  removed : list addr;
  changed : list (addr * string * string)
}.

(** *** Values outside the store

    What is written to the state file, what the listing yields and what is
    handed to Telegram are values without sharing. *)

Record doctor_record := DoctorRecord {
  rec_id : string;
  rec_first_name : string;
  rec_last_name : string;
  rec_availability : string;
  rec_locations : option (list string)
}.

(** A row of the listing, as [scrape_doctor_list] appends it. *)
Record listed_doctor := ListedDoctor {
  row_id : string;
  row_first_name : string;
  row_last_name : string;
  row_availability : string
}.

(** The JSON document of [doctor_state.json]. *)
Record document := Document {
  doc_doctors : option (list (string * doctor_record));
  doc_location_cache : option (gmap string (list string * Z))
}.

(** The state file when it exists: text that [json.load] rejects, or a
    document. *)
Inductive file_content :=
| Unparsable
| Json (d : document).

(** The change-set as [format_telegram_message] reads it: the message text
    is a function of these values. *)
Record report := Report {
  rep_added : list doctor_record;
  rep_removed : list doctor_record;
  rep_changed : list (doctor_record * string * string)
}.

(** One call of [bot.send_message], with the token of its [Bot]. *)
Record notification := Notification {
  bot_token : option string;
  chat_id : option string;
  text_of : report;
  button_url : string
}.

Inductive exn :=
| ValueError (msg : string)
| RequestException
| TelegramError.

(** What the [try] body of [scrape_doctor_locations] meets: an exception
    (network, HTTP status, parser), or the page, given by the stripped
    texts of its [<b>] tags in document order. *)
Inductive detail_response :=
| DetailRaises
| DetailPage (bold_tags : list string).

(** What [scrape_doctor_list] does once the search URL is built: it raises,
    or returns the rows of the table. *)
Inductive listing_response :=
| ListingRaises (e : exn)
| Listing (rows : list listed_doctor).

(** ** The process environment and the outside world *)

Record environment := Environment {
  BOT_TOKEN : option string;
  CHANNEL_ID : option string;
  SEARCH_MODE : option string;
  AMBITO_ID : option string;
  COMUNE_CODE : option string;
  (** [LOCATION_CACHE_DAYS], already read as an integer; a value that
      [int] rejects is left out by the type. *)
  LOCATION_CACHE_DAYS : option Z
}.

(** The world answers the program: the clock at its n-th reading, the
    detail page at the n-th detail request, the listing page, and whether
    Telegram accepts a message. *)
Record world := World {
  environ : environment;
  clock : nat -> Z;
  detail_page : nat -> string -> detail_response;
  listing_page : string -> listing_response;
  telegram : notification -> bool
}.

(** ** The store *)

Record state := State {
  lists : list (list string);                (* list objects, by address *)
  doctors : list doctor;                     (* doctor dicts, by address *)
  location_cache : gmap string cache_entry;  (* the cache dict *)
  requests : list string;                    (* detail URLs requested, oldest first *)
  clock_reads : nat;                         (* readings of the clock so far *)
  slept : Z;                                 (* seconds spent in time.sleep *)
  state_file : option file_content;          (* doctor_state.json, if it exists *)
  sent : list notification                   (* calls of bot.send_message, oldest first *)
}.

Definition with_lists (s : state) (v : list (list string)) : state :=
  State v (doctors s) (location_cache s) (requests s) (clock_reads s)
        (slept s) (state_file s) (sent s).
Definition with_doctors (s : state) (v : list doctor) : state :=
  State (lists s) v (location_cache s) (requests s) (clock_reads s)
        (slept s) (state_file s) (sent s).
Definition with_location_cache (s : state) (v : gmap string cache_entry) : state :=
  State (lists s) (doctors s) v (requests s) (clock_reads s)
        (slept s) (state_file s) (sent s).
Definition with_requests (s : state) (v : list string) : state :=
  State (lists s) (doctors s) (location_cache s) v (clock_reads s)
        (slept s) (state_file s) (sent s).
Definition with_clock_reads (s : state) (v : nat) : state :=
  State (lists s) (doctors s) (location_cache s) (requests s) v
        (slept s) (state_file s) (sent s).
Definition with_slept (s : state) (v : Z) : state :=
  State (lists s) (doctors s) (location_cache s) (requests s) (clock_reads s)
        v (state_file s) (sent s).
Definition with_state_file (s : state) (v : option file_content) : state :=
  State (lists s) (doctors s) (location_cache s) (requests s) (clock_reads s)
        (slept s) v (sent s).
Definition with_sent (s : state) (v : list notification) : state :=
  State (lists s) (doctors s) (location_cache s) (requests s) (clock_reads s)
        (slept s) (state_file s) v.

(** A dict with no keys stands for an address that holds no doctor; no
    reference of a running program is such an address. *)
Definition no_doctor : doctor := Doctor "" "" "" "" None.

Definition doctor_at (s : state) (a : addr) : doctor :=
  default no_doctor (doctors s !! a).

Definition list_at (s : state) (a : addr) : list string :=
  default [] (lists s !! a).

(** ** Computations on the store *)

Definition M (A : Type) : Type := state -> A * state.

Definition ret {A : Type} (x : A) : M A := fun s => (x, s).

Definition bind {A B : Type} (m : M A) (k : A -> M B) : M B :=
  fun s => let (x, s') := m s in k x s'.

Declare Scope prog_scope.
Delimit Scope prog_scope with prog.
Notation "'let*' x := m 'in' k" := (bind m (fun x => k))
  (at level 10, x pattern, m at level 100, k at level 200) : prog_scope.
Notation "m ;; k" := (bind m (fun _ => k))
  (at level 100, k at level 200, right associativity) : prog_scope.

(** [for x in xs: body], where the body may update a local [acc]. *)
Fixpoint for_each {A B : Type} (xs : list A) (body : A -> B -> M B) (acc : B)
    : M B :=
  match xs with
  | [] => ret acc
  | x :: xs' => bind (body x acc) (for_each xs' body)
  end.

(** A new list object. *)
Definition new_list (l : list string) : M addr :=
  fun s => (length (lists s), with_lists s (lists s ++ [l])).

(** A new doctor dict. *)
Definition new_doctor (d : doctor) : M addr :=
  fun s => (length (doctors s), with_doctors s (doctors s ++ [d])).

(** [doctor['locations'] = locations] *)
Definition set_locations (a : addr) (l : addr) : M unit :=
  fun s =>
    let d := doctor_at s a in
    (tt, with_doctors s
           (<[a := Doctor (doctor_id d) (first_name d) (last_name d)
                          (availability d) (Some l)]> (doctors s))).

Definition read_doctor (a : addr) : M doctor := fun s => (doctor_at s a, s).

(** ** The program *)

Section Program.
Variable w : world.

Open Scope prog_scope.

(** [int(time.time())] *)
Definition time_time : M Z :=
  fun s => (clock w (clock_reads s), with_clock_reads s (S (clock_reads s))).

(** [time.sleep(n)] *)
Definition time_sleep (n : Z) : M unit :=
  fun s => (tt, with_slept s (slept s + n)).

(** [requests.get(detail_url, timeout=30)] and what follows it up to the
    list of [<b>] texts. *)
Definition requests_get (detail_url : string) : M detail_response :=
  fun s => (detail_page w (length (requests s)) detail_url,
            with_requests s (requests s ++ [detail_url])).

Definition get_doctor_detail_url (doctor_id : string) : string :=
  ("https://servizi.apss.tn.it/ricmedico/medico.php?codMedicoMg="
   ++ doctor_id)%string.

Definition get_search_url : exn + string :=
  let base_url := "https://servizi.apss.tn.it/ricmedico/listamedici.php" in
  let search_mode := Str.lower (default "" (SEARCH_MODE (environ w))) in
  if String.eqb search_mode "ambito" then
    match AMBITO_ID (environ w) with
    | Some (String c r as ambito_id) =>
        inr (base_url ++ "?tipoRicerca=ambito&tipoMedico=MMG&ambito="
                      ++ ambito_id)%string
    | _ => inl (ValueError "AMBITO_ID required when SEARCH_MODE=ambito")
    end
  else if String.eqb search_mode "comune" then
    match COMUNE_CODE (environ w) with
    | Some (String c r as comune_code) =>
        inr (base_url ++ "?tipoMedico=MMG&tipoRicerca=comune&comune="
                      ++ comune_code ++ "&Ricerca=ricerca")%string
    | _ => inl (ValueError "COMUNE_CODE required when SEARCH_MODE=comune")
    end
  else
    inl (ValueError ("Invalid SEARCH_MODE: " ++ search_mode
                     ++ ". Must be 'ambito' or 'comune'")%string).

(** The loop of [scrape_doctor_locations] over the [<b>] tags. *)
Definition collect_locations (bold_tags : list string) : list string :=
  fold_left
    (fun (locations : list string) (text : string) =>
       if Str.startswith text "Comune:" then
         let location := Str.strip (Str.remove text "Comune:") in
         if Str.truthy location && negb (bool_decide (location ∈ locations))
         then locations ++ [location]
         else locations
       else locations)
    bold_tags [].

(** The result is a new list object in either branch: [locations = []]
    filled by the loop, or the [[]] of the [except] clause. *)
Definition scrape_doctor_locations (detail_url : string) : M addr :=
  let* response := requests_get detail_url in
  match response with
  | DetailPage bold_tags => new_list (collect_locations bold_tags)
  | DetailRaises => new_list []
  end.

Definition cache_expiry_seconds : Z :=
  let cache_days := default 7 (LOCATION_CACHE_DAYS (environ w)) in
  cache_days * 24 * 3600.

(** [location_cache[doctor_id] = entry] *)
Definition cache_store (doctor_id : string) (entry : cache_entry) : M unit :=
  fun s => (tt, with_location_cache s (<[doctor_id := entry]> (location_cache s))).

Definition cache_lookup (doctor_id : string) : M (option cache_entry) :=
  fun s => (location_cache s !! doctor_id, s).

(** The parameter [location_cache] is the cache dict of the store. *)
Definition get_doctor_locations (doctor_id detail_url : string) : M addr :=
  let* current_time := time_time in
  let* cached := cache_lookup doctor_id in
  let miss :=
    (* Cache miss or expired - scrape *)
    let* locations := scrape_doctor_locations detail_url in
    cache_store doctor_id (CacheEntry locations current_time) ;;
    (* Rate limiting *)
    time_sleep 1 ;;
    ret locations in
  match cached with
  | Some cached =>
      if current_time - timestamp cached <? cache_expiry_seconds
      then ret (entry_locations cached)
      else miss
  | None => miss
  end.

(** [{d['id']: d for d in current_doctors}] *)
Definition ids_of (current_doctors : list addr) : M (list (string * addr)) :=
  fun s =>
    (Dict.comprehension (fun d => doctor_id (doctor_at s d)) (fun d => d)
       current_doctors, s).

(** The body of the first loop of [detect_changes]. *)
Definition detect_added (previous_ids : list (string * addr))
    (item : string * addr) (added : list addr) : M (list addr) :=
  let '(doc_id, doctor) := item in
  if negb (Dict.contains doc_id previous_ids) then
    (* New doctor - fetch locations *)
    let* d := read_doctor doctor in
    let* locations :=
      get_doctor_locations (doctor_id d) (get_doctor_detail_url (doctor_id d)) in
    set_locations doctor locations ;;
    ret (added ++ [doctor])
  else ret added.

(** The body of the second loop.  [cached.get('locations', [])] is the
    list of the entry, or a new empty list when there is no entry. *)
Definition detect_removed (current_ids : list (string * addr))
    (item : string * addr) (removed : list addr) : M (list addr) :=
  let '(doc_id, doctor) := item in
  if negb (Dict.contains doc_id current_ids) then
    (* Get locations from cache (may be stale but that's ok) *)
    let* cached := cache_lookup doc_id in
    let* locations :=
      match cached with
      | Some cached => ret (entry_locations cached)
      | None => new_list []
      end in
    set_locations doctor locations ;;
    ret (removed ++ [doctor])
  else ret removed.

(** The body of the third loop. *)
Definition detect_changed (previous_ids : list (string * addr))
    (item : string * addr) (changed : list (addr * string * string))
    : M (list (addr * string * string)) :=
  let '(doc_id, current_doctor) := item in
  match Dict.get doc_id previous_ids with
  | Some previous_doctor =>
      let* c := read_doctor current_doctor in
      let* p := read_doctor previous_doctor in
      if negb (String.eqb (availability c) (availability p)) then
        (* Status changed - fetch fresh locations *)
        let* locations :=
          get_doctor_locations (doctor_id c)
            (get_doctor_detail_url (doctor_id c)) in
        set_locations current_doctor locations ;;
        let* p' := read_doctor previous_doctor in
        let* c' := read_doctor current_doctor in
        ret (changed
             ++ [(current_doctor, availability p', availability c')])
      else ret changed
  | None => ret changed
  end.

(** [previous_state] is the loaded state dict; the cache dict is the one
    of the store, and it is also the ['location_cache'] of the result. *)
Definition detect_changes (current_doctors : list addr)
    (previous_state : state_dict) : M changes :=
  let* current_ids := ids_of current_doctors in
  let previous_ids := default [] (sd_doctors previous_state) in
  let* added := for_each current_ids (detect_added previous_ids) [] in
  let* removed := for_each previous_ids (detect_removed current_ids) [] in
  let* changed := for_each current_ids (detect_changed previous_ids) [] in
  ret (Changes added removed changed).

(** *** The state file *)

(** What [json.load] builds for one doctor: new objects, shared with
    nothing. *)
Definition load_doctor (r : doctor_record) : M addr :=
  let* l :=
    match rec_locations r with
    | Some ls => let* a := new_list ls in ret (Some a)
    | None => ret None
    end in
  new_doctor (Doctor (rec_id r) (rec_first_name r) (rec_last_name r)
                     (rec_availability r) l).

Definition load_doctors (items : list (string * doctor_record))
    : M (list (string * addr)) :=
  for_each items
    (fun '(k, r) d => let* a := load_doctor r in ret (Dict.set k a d)) [].

Definition load_cache (m : gmap string (list string * Z))
    : M (gmap string cache_entry) :=
  for_each (map_to_list m)
    (fun '(k, (ls, t)) c =>
       let* a := new_list ls in ret (<[k := CacheEntry a t]> c)) ∅.

Definition load_option {A B : Type} (f : A -> M B) (o : option A)
    : M (option B) :=
  match o with
  | Some x => let* y := f x in ret (Some y)
  | None => ret None
  end.

Definition empty_state : state_dict := StateDict (Some []) (Some ∅).

Definition path_exists : M bool :=
  fun s => (bool_decide (is_Some (state_file s)), s).

Definition read_file : M (option file_content) :=
  fun s => (state_file s, s).

Definition load_state : M state_dict :=
  let* f := read_file in
  match f with
  | Some (Json d) =>
      let* ds := load_option load_doctors (doc_doctors d) in
      let* c := load_option load_cache (doc_location_cache d) in
      ret (StateDict ds c)
  | Some Unparsable =>
      (* Warning: Failed to parse state file; starting with empty state *)
      ret empty_state
  | None => ret empty_state
  end.

(** What [json.dump] writes for one doctor. *)
Definition dump_doctor (s : state) (a : addr) : doctor_record :=
  let d := doctor_at s a in
  DoctorRecord (doctor_id d) (first_name d) (last_name d) (availability d)
               (list_at s <$> locations d).

Definition dump_entry (s : state) (e : cache_entry) : list string * Z :=
  (list_at s (entry_locations e), timestamp e).

Definition dump_state (s : state) (st : state_dict) : document :=
  Document
    (match sd_doctors st with
     | Some ds => Some (map (fun '(k, a) => (k, dump_doctor s a)) ds)
     | None => None
     end)
    (match sd_location_cache st with
     | Some c => Some (dump_entry s <$> c)
     | None => None
     end).

Definition save_state (st : state_dict) : M unit :=
  fun s => (tt, with_state_file s (Some (Json (dump_state s st)))).

(** *** The listing *)

Definition scrape_doctor_list : M (exn + list addr) :=
  match get_search_url with
  | inl e => ret (inl e)
  | inr url =>
      match listing_page w url with
      | ListingRaises e => ret (inl e)
      | Listing rows =>
          let* doctors :=
            for_each rows
              (fun r doctors =>
                 let* a :=
                   new_doctor (Doctor (row_id r) (row_first_name r)
                                      (row_last_name r) (row_availability r)
                                      None) in
                 ret (doctors ++ [a])) [] in
          ret (inr doctors)
      end
  end.

(** *** Telegram *)

Definition dump_changes (s : state) (c : changes) : report :=
  Report (map (dump_doctor s) (added c))
         (map (dump_doctor s) (removed c))
         (map (fun '(a, old_avail, new_avail) =>
                 (dump_doctor s a, old_avail, new_avail)) (changed c)).

(** [post_to_telegram] returns [None], or the exception it raises. *)
Definition post_to_telegram (c : changes) : M (option exn) :=
  fun s =>
    let message := dump_changes s c in
    match get_search_url with
    | inl e => (Some e, s)
    | inr url =>
        let n := Notification (BOT_TOKEN (environ w))
                              (CHANNEL_ID (environ w)) message url in
        (if telegram w n then None else Some TelegramError,
         with_sent s (sent s ++ [n]))
    end.

(** *** The run *)

Inductive outcome :=
| Returns (status : Z)
| Raises (e : exn).

(** [not os.getenv(var)] *)
Definition unset (v : option string) : bool :=
  match v with
  | Some (String _ _) => false
  | _ => true
  end.

Definition set_cache (c : gmap string cache_entry) : M unit :=
  fun s => (tt, with_location_cache s c).

Definition get_cache : M (gmap string cache_entry) :=
  fun s => (location_cache s, s).

Definition main : M outcome :=
  (* Validate required env vars *)
  let missing_vars :=
    filter (fun v => unset v = true)
      [BOT_TOKEN (environ w); CHANNEL_ID (environ w); SEARCH_MODE (environ w)] in
  match missing_vars with
  | _ :: _ => ret (Returns 1)
  | [] =>
  (* Validate search URL can be built *)
  match get_search_url with
  | inl e => ret (Raises e)
  | inr search_url =>
  (* Check if first run *)
  let* file_exists := path_exists in
  let is_first_run := negb file_exists in
  (* Load previous state *)
  let* state := load_state in
  (* Scrape current doctor list *)
  let* scraped := scrape_doctor_list in
  match scraped with
  | inl e => ret (Raises e)
  | inr [] => ret (Returns 1)
  | inr current_doctors =>
  if is_first_run then
    (* First run: initialize state without posting *)
    let* ids := ids_of current_doctors in
    save_state (StateDict (Some ids) (Some ∅)) ;;
    ret (Returns 0)
  else
    (* Detect changes *)
    set_cache (default ∅ (sd_location_cache state)) ;;
    let* changes := detect_changes current_doctors state in
    let total_changes :=
      (length (added changes) + length (removed changes)
       + length (changed changes))%nat in
    (* Update state with current doctors; nothing stores into the cache
       dict between here and save_state *)
    let* ids := ids_of current_doctors in
    let* cache := get_cache in
    let new_state := StateDict (Some ids) (Some cache) in
    (* Post to Telegram if there are changes *)
    let* posted :=
      if (0 <? total_changes)%nat then post_to_telegram changes
      else ret None in
    match posted with
    | Some e => ret (Raises e)
    | None =>
        (* Save updated state *)
        save_state new_state ;;
        ret (Returns 0)
    end
  end end end.

(** [exit(main())]: the status of the process; an exception that nothing
    catches ends it with status 1. *)
Definition exit_status (o : outcome) : Z :=
  match o with
  | Returns status => status
  | Raises _ => 1
  end.

End Program.

(** * Vocabulary of the properties *)

(** The cache entry of [doctor_id] when it is present and younger than the
    expiry at the next reading of the clock. *)
Definition fresh_entry (w : world) (s : state) (doctor_id : string)
    : option cache_entry :=
  match location_cache s !! doctor_id with
  | Some cached =>
      if clock w (clock_reads s) - timestamp cached <? cache_expiry_seconds w
      then Some cached else None
  | None => None
  end.

(** The locations that the next detail request for [detail_url] yields. *)
Definition scraped (w : world) (s : state) (detail_url : string) : list string :=
  match detail_page w (length (requests s)) detail_url with
  | DetailRaises => []
  | DetailPage bold_tags => collect_locations bold_tags
  end.

(** The store after a lookup that went to the network. *)
Definition after_miss (w : world) (s : state) (doctor_id detail_url : string)
    : state :=
  State (lists s ++ [scraped w s detail_url]) (doctors s)
        (<[doctor_id := CacheEntry (length (lists s)) (clock w (clock_reads s))]>
           (location_cache s))
        (requests s ++ [detail_url]) (S (clock_reads s)) (slept s + 1)
        (state_file s) (sent s).

(** The id and the availability of the doctor at an address. *)
Definition id_at (s : state) (a : addr) : string := doctor_id (doctor_at s a).

Definition availability_at (s : state) (a : addr) : string :=
  availability (doctor_at s a).

(** Two states of one doctor dict that differ at most in [locations]. *)
Definition same_entity (d d' : doctor) : Prop :=
  doctor_id d' = doctor_id d /\ first_name d' = first_name d
  /\ last_name d' = last_name d /\ availability d' = availability d.

(** [evolves s s' A K]: from [s] to [s'] the program has at most set the
    [locations] of the doctors at [A], created list objects, requested the
    detail pages of the ids [K] and stored cache entries under [K]. *)
Record evolves (s s' : state) (A : list addr) (K : list string) : Prop :=
  Evolves {
    ev_length : length (doctors s') = length (doctors s);
    ev_entity : forall a, same_entity (doctor_at s a) (doctor_at s' a);
    ev_frame : forall a, a ∉ A -> doctor_at s' a = doctor_at s a;
    ev_lists : exists L, lists s' = lists s ++ L;
    ev_requests :
      exists R, requests s' = requests s ++ R
                /\ forall u, u ∈ R -> exists k, k ∈ K /\ u = get_doctor_detail_url k;
    ev_cache : forall k, k ∉ K -> location_cache s' !! k = location_cache s !! k;
    ev_file : state_file s' = state_file s;
    ev_sent : sent s' = sent s
  }.

(** Every list reference of the store points to a list object. *)
Definition store_ok (s : state) : Prop :=
  (forall k e, location_cache s !! k = Some e ->
               (entry_locations e < length (lists s))%nat)
  /\ (forall a l, locations (doctor_at s a) = Some l ->
                  (l < length (lists s))%nat).

(** The doctor at [a] carries the very list object of the cache entry of
    [k]. *)
Definition shares_cached_list (s : state) (k : string) (a : addr) : Prop :=
  exists l e, locations (doctor_at s a) = Some l
              /\ location_cache s !! k = Some e /\ entry_locations e = l.

(** *** The classification, as a function of the two dicts *)

Definition added_items (current previous : list (string * addr))
    : list (string * addr) :=
  List.filter (fun it => negb (Dict.contains (fst it) previous)) current.

Definition removed_items (current previous : list (string * addr))
    : list (string * addr) :=
  List.filter (fun it => negb (Dict.contains (fst it) current)) previous.

Definition differs (s : state) (previous : list (string * addr))
    (it : string * addr) : bool :=
  match Dict.get (fst it) previous with
  | Some b => negb (String.eqb (availability_at s (snd it)) (availability_at s b))
  | None => false
  end.

Definition changed_items (s : state) (current previous : list (string * addr))
    : list (string * addr) :=
  List.filter (differs s previous) current.

Definition changed_entry (s : state) (previous : list (string * addr))
    (it : string * addr) : addr * string * string :=
  (snd it,
   match Dict.get (fst it) previous with
   | Some b => availability_at s b
   | None => ""
   end,
   availability_at s (snd it)).

(** The doctor at [a] carries what the cache of [s0] held for [k]: the list
    object of the entry, or a list object newer than [s0] that is empty. *)
Definition carries_cached (s0 s : state) (k : string) (a : addr) : Prop :=
  exists l, locations (doctor_at s a) = Some l
            /\ (l < length (lists s))%nat
            /\ match location_cache s0 !! k with
               | Some e => l = entry_locations e
               | None => (length (lists s0) <= l)%nat /\ list_at s l = []
               end.

(** Every key of the dict is the id of the doctor it maps to. *)
Definition keyed_by_id (s : state) (d : list (string * addr)) : Prop :=
  forall k a, (k, a) ∈ d -> id_at s a = k.

(** Every value of the dict is the address of a doctor of the store. *)
Definition allocated (s : state) (d : list (string * addr)) : Prop :=
  forall k a, (k, a) ∈ d -> (a < length (doctors s))%nat.

(** The dict [current_ids] that [detect_changes] builds in the store [s],
    and the dict [previous_ids] that it reads from the loaded state. *)
Definition current_ids (s : state) (current_doctors : list addr)
    : list (string * addr) :=
  fst (ids_of current_doctors s).

Definition previous_ids (previous_state : state_dict) : list (string * addr) :=
  default [] (sd_doctors previous_state).

(** *** A small registry, for instances of the properties

    The previous snapshot knows the doctors A1 (full) and A2; the listing
    now shows A1 (available) and the new A3.  The cache holds the locations
    of A2. *)

Module Sample.
Definition env : environment :=
  Environment (Some "123:abc") (Some "@mmg") (Some "ambito") (Some "7")
              None None.

Definition rows : list listed_doctor :=
  [ListedDoctor "A1" "Anna" "Rossi" "available";
   ListedDoctor "A3" "Carla" "Verdi" "available"].

Definition w : world :=
  World env (fun n => 1700000000 + Z.of_nat n)
        (fun _ _ => DetailPage ["Comune: ARCO"; "Telefono"; "Comune: RIVA"])
        (fun _ => Listing rows)
        (fun _ => true).

Definition cache : gmap string cache_entry :=
  {[ "A2" := CacheEntry 0%nat 1699999000 ]}.

Definition s : state :=
  State [["TRENTO"]]
        [Doctor "A1" "Anna" "Rossi" "full" None;
         Doctor "A2" "Bruno" "Bianchi" "available" None;
         Doctor "A1" "Anna" "Rossi" "available" None;
         Doctor "A3" "Carla" "Verdi" "available" None]
        cache [] 0 0 None [].

Definition previous : list (string * addr) := [("A1", 0%nat); ("A2", 1%nat)].

Definition previous_state : state_dict := StateDict (Some previous) None.

Definition current_doctors : list addr := [2%nat; 3%nat].

(** The same world with every detail page failing. *)
Definition w_down : world :=
  World env (clock w) (fun _ _ => DetailRaises) (listing_page w) (telegram w).


(** The same world with a listing that has no rows. *)
Definition w_empty : world :=
  World env (clock w) (detail_page w) (fun _ => Listing []) (telegram w).

(** A store of a process that starts with a state file from an earlier
    run, which knew A1 (full) and A2. *)
Definition earlier : document :=
  Document
    (Some [("A1", DoctorRecord "A1" "Anna" "Rossi" "full" None);
           ("A2", DoctorRecord "A2" "Bruno" "Bianchi" "available" None)])
    (Some ∅).

Definition steady : state := State [] [] ∅ [] 0 0 (Some (Json earlier)) [].

(** A store of a process that starts without, or with a broken, state
    file. *)
Definition first : state := State [] [] ∅ [] 0 0 None [].

End Sample.

(** *** The run *)

(** The doctor dict that [scrape_doctor_list] appends for a row, and the
    record that [json.dump] writes for it while it has no locations. *)
Definition doctor_of_row (r : listed_doctor) : doctor :=
  Doctor (row_id r) (row_first_name r) (row_last_name r) (row_availability r)
         None.

Definition record_of_row (r : listed_doctor) : doctor_record :=
  DoctorRecord (row_id r) (row_first_name r) (row_last_name r)
               (row_availability r) None.

(** The ids of a listing, each once, in the order of their first rows. *)
Definition listed_ids (rows : list listed_doctor) : list string :=
  Dict.keys (Dict.comprehension row_id record_of_row rows).

(** The three variables that [main] requires are set and not empty. *)
Definition configured (w : world) : Prop :=
  unset (BOT_TOKEN (environ w)) = false
  /\ unset (CHANNEL_ID (environ w)) = false
  /\ unset (SEARCH_MODE (environ w)) = false.

(** From [s] to [s'] the program has only created objects. *)
Record allocates (s s' : state) : Prop := Allocates {
  al_lists : exists L, lists s' = lists s ++ L;
  al_doctors : exists D, doctors s' = doctors s ++ D;
  al_cache : location_cache s' = location_cache s;
  al_requests : requests s' = requests s;
  al_file : state_file s' = state_file s;
  al_sent : sent s' = sent s
}.

(** *** More of the run *)

(** What a number of cache lookups costs: at most one detail request per
    lookup, one second of sleep per request, one reading of the clock per
    lookup. *)
Definition lookup_cost (s s' : state) (lookups : nat) : Prop :=
  exists n : nat,
    (n <= lookups)%nat
    /\ length (requests s') = (length (requests s) + n)%nat
    /\ slept s' = slept s + Z.of_nat n
    /\ clock_reads s' = (clock_reads s + lookups)%nat.

(** No entry of the cache [c] is missing from [c'] or older there. *)
Definition cache_le (c c' : gmap string cache_entry) : Prop :=
  forall k e, c !! k = Some e ->
              exists e', c' !! k = Some e' /\ timestamp e <= timestamp e'.

(** Further worlds and stores for instances of the properties. *)
Module Scenario.
(** The sample world with a listing request that fails. *)
Definition w_offline : world :=
  World Sample.env (clock Sample.w) (detail_page Sample.w)
        (fun _ => ListingRaises RequestException) (telegram Sample.w).

(** The sample world without the bot token. *)
Definition w_no_token : world :=
  World (Environment None (Some "@mmg") (Some "ambito") (Some "7") None None)
        (clock Sample.w) (detail_page Sample.w) (listing_page Sample.w)
        (telegram Sample.w).

(** The sample world with the cache switched off. *)
Definition w_no_cache : world :=
  World (Environment (Some "123:abc") (Some "@mmg") (Some "ambito") (Some "7")
                     None (Some 0))
        (clock Sample.w) (detail_page Sample.w) (listing_page Sample.w)
        (telegram Sample.w).

(** A state file of a run that had fetched the locations of A1. *)
Definition saved : document :=
  Document
    (Some [("A1", DoctorRecord "A1" "Anna" "Rossi" "available"
                               (Some ["ARCO"; "RIVA"]));
           ("A3", DoctorRecord "A3" "Carla" "Verdi" "available" None)])
    (Some {[ "A1" := (["ARCO"; "RIVA"], 1699990000) ]}).

(** A store of a process that starts with that file. *)
Definition restart : state := State [] [] ∅ [] 0 0 (Some (Json saved)) [].
End Scenario.

(** The doctor dict at [a] exists, and so does its list of locations when
    it has one. *)
Definition valid_doctor (s : state) (a : addr) : Prop :=
  (a < length (doctors s))%nat
  /\ forall l, locations (doctor_at s a) = Some l -> (l < length (lists s))%nat.

(** * More of the program: the message and the listing page *)

(** ** The message *)

(** [s.replace(old, new)] for a non-empty [old]: every occurrence of [old],
    found from the left and without overlap, becomes [new].  [skip] counts
    the characters of the current occurrence that are still to be passed. *)
Fixpoint replace_from (old new : string) (skip : nat) (s : string) : string :=
  match s with
  | EmptyString => EmptyString
  | String c s' =>
      match skip with
      | S k => replace_from old new k s'
      | O =>
          if String.prefix old s
          then (new ++ replace_from old new (Nat.pred (String.length old)) s')%string
          else String c (replace_from old new O s')
      end
  end.

Definition replace (s old new : string) : string := replace_from old new O s.

Definition backslash : ascii := ascii_of_nat 92.

Definition special_chars : list string :=
  ["_"; "*"; "["; "]"; "("; ")"; "~"; "`"; ">"; "#"; "+"; "-"; "="; "|"; "{";
   "}"; "."; "!"].

(** [escape_markdown]: one [replace] after the other, each on the result of
    the one before. *)
Definition escape_markdown (text : string) : string :=
  fold_left (fun text char => replace text char (String backslash char))
            special_chars text.

(** Whether the character is one of [special_chars]. *)
Definition is_special (c : ascii) : bool :=
  existsb (String.eqb (String c EmptyString)) special_chars.

(** The text with one backslash before each special character, built in
    one pass. *)
Fixpoint escape_each (s : string) : string :=
  match s with
  | EmptyString => EmptyString
  | String c s' =>
      if is_special c then String backslash (String c (escape_each s'))
      else String c (escape_each s')
  end.

(** The reading of an escaped text: a backslash before a special character
    is dropped. *)
Fixpoint unescape (s : string) : string :=
  match s with
  | EmptyString => EmptyString
  | String b rest =>
      match rest with
      | String c s' =>
          if Ascii.eqb b backslash && is_special c
          then String c (unescape s')
          else String b (unescape rest)
      | EmptyString => String b EmptyString
      end
  end.

(** The loop of [format_telegram_message] that groups the added doctors by
    availability, on the doctors as the message shows them: a new
    availability gets an empty list at the end of [availability_groups],
    and the doctor is appended to the list of its availability. *)
Definition group_doctor (availability_groups : list (string * list doctor_record))
    (doctor : doctor_record) : list (string * list doctor_record) :=
  let avail := rec_availability doctor in
  let availability_groups :=
    if negb (Dict.contains avail availability_groups)
    then Dict.set avail [] availability_groups
    else availability_groups in
  Dict.set avail (default [] (Dict.get avail availability_groups) ++ [doctor])
           availability_groups.

Definition group_by_availability (added : list doctor_record)
    : list (string * list doctor_record) :=
  fold_left group_doctor added [].

(** The doctors of a list that have the availability [k], in the order of
    the list. *)
Definition with_availability (k : string) (added : list doctor_record)
    : list doctor_record :=
  List.filter (fun d => String.eqb (rec_availability d) k) added.

(** ** The listing page, as the parser shows it

    [listing_page] stands for the request and the parsing together; what
    follows is the parsing alone, on what BeautifulSoup finds in the
    page. *)

(** An [<a>] tag: its [href], when it has the attribute. *)
Record anchor := Anchor {
  href : option string
}.

(** A [<td>]: its [get_text(strip=True)] and its [find('a')]. *)
Record cell := Cell {
  cell_text : string;
  cell_link : option anchor
}.

(** The page: [soup.find('table')], then [table.find('tbody')], then for
    each [<tr>] of it the [<td>]s that [find_all] returns.  A tag that is
    found is true, whatever it holds. *)
Record page := Page {
  page_table : option (option (list (list cell)))
}.

Definition amp : ascii := ascii_of_nat 38.

(** The longest prefix without an ampersand: what [[^&]+] takes. *)
Fixpoint code_run (s : string) : string :=
  match s with
  | EmptyString => EmptyString
  | String c s' =>
      if Ascii.eqb c amp then EmptyString else String c (code_run s')
  end.

(** [s[n:]] *)
Fixpoint drop_chars (n : nat) (s : string) : string :=
  match n, s with
  | S k, String _ s' => drop_chars k s'
  | _, _ => s
  end.

(** [re.search(r'codMedicoMg=([^&]+)', url)]: group 1 of the leftmost
    match, [None] when nothing matches. *)
Fixpoint search_code (url : string) : option string :=
  match url with
  | EmptyString => None
  | String _ url' =>
      if String.prefix "codMedicoMg=" url
      then match code_run (drop_chars 12 url) with
           | EmptyString => search_code url'
           | code => Some code
           end
      else search_code url'
  end.

(** [len(cols)] in the message of the error; it is below 4 there. *)
Definition columns_found (cols : list cell) : string :=
  match length cols with
  | 0 => "0"
  | 1 => "1"
  | 2 => "2"
  | _ => "3"
  end%nat.

(** The body of the loop of [scrape_doctor_list] over the rows. *)
Definition scrape_row (cols : list cell) : exn + listed_doctor :=
  match cols with
  | c0 :: c1 :: c2 :: c3 :: _ =>
      let first_name := cell_text c0 in
      let last_name := cell_text c1 in
      let availability := cell_text c2 in
      (* Extract doctor ID from detail link *)
      match cell_link c3 with
      | Some (Anchor (Some detail_url)) =>
          match search_code detail_url with
          | Some doctor_id =>
              inr (ListedDoctor doctor_id first_name last_name availability)
          | None =>
              inl (ValueError ("Could not extract doctor ID from URL: "
                               ++ detail_url)%string)
          end
      | _ =>
          inl (ValueError ("No detail link found for doctor: "
                           ++ first_name ++ " " ++ last_name)%string)
      end
  | _ =>
      inl (ValueError ("Expected at least 4 columns in doctor row, found "
                       ++ columns_found cols)%string)
  end.

Fixpoint scrape_table_rows (rows : list (list cell))
    (doctors : list listed_doctor) : exn + list listed_doctor :=
  match rows with
  | [] => inr doctors
  | row :: rows' =>
      match scrape_row row with
      | inl e => inl e
      | inr d => scrape_table_rows rows' (doctors ++ [d])
      end
  end.

(** [scrape_doctor_list] from the parsed page on. *)
Definition scrape_page (p : page) : exn + list listed_doctor :=
  match page_table p with
  | None => inl (ValueError "Doctor table not found in page")
  | Some None =>
      inl (ValueError "Table body (tbody) not found in doctor table")
  | Some (Some rows) => scrape_table_rows rows []
  end.

(** Whether the string has an ampersand. *)
Fixpoint has_amp (s : string) : bool :=
  match s with
  | EmptyString => false
  | String c s' => Ascii.eqb c amp || has_amp s'
  end.

(** A row that the loop accepts, and the doctor it gives: at least four
    cells, the texts of the first three, and a link in the fourth whose
    [href] has the code. *)
Definition row_gives (cols : list cell) (d : listed_doctor) : Prop :=
  exists c0 c1 c2 c3 more detail_url,
    cols = c0 :: c1 :: c2 :: c3 :: more
    /\ row_first_name d = cell_text c0
    /\ row_last_name d = cell_text c1
    /\ row_availability d = cell_text c2
    /\ cell_link c3 = Some (Anchor (Some detail_url))
    /\ search_code detail_url = Some (row_id d).

(** * Properties *)

(** ** The cache store *)

Lemma get_doctor_locations_hit w doctor_id detail_url s cached :
  fresh_entry w s doctor_id = Some cached ->
  get_doctor_locations w doctor_id detail_url s
  = (entry_locations cached, with_clock_reads s (S (clock_reads s))).
Proof.
  unfold fresh_entry, get_doctor_locations, bind, time_time, cache_lookup, ret.
  simpl. destruct (location_cache s !! doctor_id) as [e|]; [|discriminate].
  destruct (_ <? _); [|discriminate]. now intros [= ->].
Qed.

Lemma get_doctor_locations_miss w doctor_id detail_url s :
  fresh_entry w s doctor_id = None ->
  get_doctor_locations w doctor_id detail_url s
  = (length (lists s), after_miss w s doctor_id detail_url).
Proof.
  unfold fresh_entry, get_doctor_locations, bind, time_time, cache_lookup, ret.
  simpl. intros H.
  assert (E : scrape_doctor_locations w detail_url
                (with_clock_reads s (S (clock_reads s)))
              = (length (lists s),
                 State (lists s ++ [scraped w s detail_url]) (doctors s)
                       (location_cache s) (requests s ++ [detail_url])
                       (S (clock_reads s)) (slept s) (state_file s) (sent s))).
  { unfold scrape_doctor_locations, scraped, bind, requests_get, new_list.
    simpl. now destruct (detail_page w _ _). }
  destruct (location_cache s !! doctor_id) as [e|].
  - destruct (_ <? _); [discriminate|]. now rewrite E.
  - now rewrite E.
Qed.

(** C4: [get_doctor_locations] goes to the network exactly when the id has
    no cache entry or its entry is at least [cache_expiry_seconds] old.  On
    a fresh entry it returns the cached list and leaves the request log,
    the cache and the list objects as they were; otherwise it makes one
    request, stores the new list with the timestamp [now] under the id and
    returns that list.  A second call for the same id that reads the same
    [now], with a positive expiry, makes no further request: the two calls
    together make at most one. *)
Theorem get_doctor_locations_fetches_iff_stale w doctor_id detail_url s :
  let now := clock w (clock_reads s) in
  let ttl := cache_expiry_seconds w in
  let '(locations, s') := get_doctor_locations w doctor_id detail_url s in
  let fetched :=
    requests s' = requests s ++ [detail_url]
    /\ location_cache s'
       = <[doctor_id := CacheEntry locations now]> (location_cache s)
    /\ lists s' = lists s ++ [scraped w s detail_url]
    /\ list_at s' locations = scraped w s detail_url in
  match location_cache s !! doctor_id with
  | Some cached =>
      if bool_decide (now - timestamp cached < ttl)
      then locations = entry_locations cached
           /\ requests s' = requests s
           /\ location_cache s' = location_cache s
           /\ lists s' = lists s
      else fetched
  | None => fetched
  end
  /\ (forall detail_url2,
        0 < ttl -> clock w (clock_reads s') = now ->
        (length (requests
                   (snd (get_doctor_locations w doctor_id detail_url2 s')))
         <= S (length (requests s)))%nat).
Proof.
  intros now ttl.
  destruct (fresh_entry w s doctor_id) as [e|] eqn:F.
  - rewrite (get_doctor_locations_hit _ _ _ _ _ F). cbv zeta.
    pose proof F as F'. unfold fresh_entry in F'.
    destruct (location_cache s !! doctor_id) as [c|] eqn:L; [|discriminate].
    fold now ttl in F'. destruct (Z.ltb_spec (now - timestamp c) ttl) as [Hlt|Hge];
      [|discriminate].
    injection F' as ->. rewrite bool_decide_eq_true_2 by assumption.
    split; [now simpl|].
    intros url2 Hpos Hclock. simpl in Hclock.
    erewrite get_doctor_locations_hit.
    + simpl. lia.
    + unfold fresh_entry. simpl. rewrite L, Hclock.
      fold now ttl. destruct (Z.ltb_spec (now - timestamp e) ttl); [reflexivity|lia].
  - rewrite (get_doctor_locations_miss _ _ _ _ F). cbv zeta.
    assert (Hf : requests (after_miss w s doctor_id detail_url)
                 = requests s ++ [detail_url]
                 /\ location_cache (after_miss w s doctor_id detail_url)
                    = <[doctor_id := CacheEntry (length (lists s)) now]>
                        (location_cache s)
                 /\ lists (after_miss w s doctor_id detail_url)
                    = lists s ++ [scraped w s detail_url]
                 /\ list_at (after_miss w s doctor_id detail_url)
                      (length (lists s)) = scraped w s detail_url).
    { repeat split. unfold list_at. simpl.
      rewrite lookup_app_r by lia. now rewrite Nat.sub_diag. }
    split.
    + unfold fresh_entry in F. fold now ttl in F.
      destruct (location_cache s !! doctor_id) as [c|]; [|exact Hf].
      destruct (Z.ltb_spec (now - timestamp c) ttl) as [Hlt|Hge];
        [discriminate|].
      rewrite bool_decide_eq_false_2 by lia. exact Hf.
    + intros url2 Hpos Hclock. simpl in Hclock.
      erewrite get_doctor_locations_hit.
      * simpl. rewrite length_app. simpl. lia.
      * unfold fresh_entry. simpl. rewrite lookup_insert_eq. simpl.
        rewrite Hclock. fold now ttl.
        destruct (Z.ltb_spec (now - now) ttl); [reflexivity|lia].
Qed.

(** ** Dictionaries *)

Module DictFacts.
Section DictFacts.
Context {V : Type}.
Implicit Types (d : list (string * V)) (k : string) (v : V).

Lemma get_Some_elem d k v : Dict.get k d = Some v -> (k, v) ∈ d.
Proof.
  induction d as [|[k' v'] d IH]; simpl; [discriminate|].
  destruct (String.eqb_spec k k') as [->|Hne].
  - intros [= ->]. left.
  - intros H. right. auto.
Qed.

Lemma get_None_keys d k : Dict.get k d = None <-> k ∉ Dict.keys d.
Proof.
  induction d as [|[k' v'] d IH]; simpl.
  - split; [intros _; apply not_elem_of_nil | reflexivity].
  - rewrite not_elem_of_cons. destruct (String.eqb_spec k k') as [->|Hne].
    + split; [discriminate | intros [H _]; now destruct H].
    + rewrite IH. tauto.
Qed.

Lemma contains_keys d k : Dict.contains k d = true <-> k ∈ Dict.keys d.
Proof.
  unfold Dict.contains. destruct (Dict.get k d) eqn:E.
  - split; [intros _ | reflexivity].
    apply get_Some_elem in E. apply (list_elem_of_fmap_2 fst) in E. exact E.
  - apply get_None_keys in E. split; [discriminate | tauto].
Qed.

Lemma contains_false_keys d k : Dict.contains k d = false <-> k ∉ Dict.keys d.
Proof.
  rewrite <- contains_keys. destruct (Dict.contains k d); split; congruence.
Qed.

Lemma elem_get d k v : Dict.wf d -> (k, v) ∈ d -> Dict.get k d = Some v.
Proof.
  unfold Dict.wf. induction d as [|[k' v'] d IH]; simpl.
  - intros _ H. now apply elem_of_nil in H.
  - intros Hnd H. apply NoDup_cons in Hnd as [Hnotin Hnd].
    apply elem_of_cons in H as [[= -> ->]|H].
    + now rewrite String.eqb_refl.
    + destruct (String.eqb_spec k k') as [->|Hne]; [|auto].
      destruct Hnotin. apply (list_elem_of_fmap_2 fst) in H. exact H.
Qed.

Lemma keys_set d k v :
  Dict.keys (Dict.set k v d)
  = if Dict.contains k d then Dict.keys d else Dict.keys d ++ [k].
Proof.
  unfold Dict.contains. induction d as [|[k' v'] d IH]; simpl; [reflexivity|].
  destruct (String.eqb_spec k k') as [->|Hne]; simpl; [reflexivity|].
  rewrite IH. now destruct (Dict.get k d).
Qed.

Lemma wf_set d k v : Dict.wf d -> Dict.wf (Dict.set k v d).
Proof.
  unfold Dict.wf. intros H. rewrite keys_set.
  destruct (Dict.contains k d) eqn:E; [exact H|].
  apply contains_false_keys in E. apply NoDup_app. repeat split.
  - exact H.
  - intros x Hx Hx'. apply list_elem_of_singleton in Hx'. now subst.
  - apply NoDup_singleton.
Qed.

Lemma elem_set d k v (it : string * V) :
  it ∈ Dict.set k v d -> it = (k, v) \/ it ∈ d.
Proof.
  induction d as [|[k0 v0] d IH]; simpl.
  - intros H. apply list_elem_of_singleton in H. now left.
  - destruct (String.eqb_spec k k0) as [->|Hne]; intros H;
      apply elem_of_cons in H as [->|H].
    + now left.
    + right. now right.
    + right. left.
    + destruct (IH H) as [?|?]; [now left | right; now right].
Qed.

Lemma set_fresh d k v : k ∉ Dict.keys d -> Dict.set k v d = d ++ [(k, v)].
Proof.
  induction d as [|[k0 v0] d IH]; simpl; [reflexivity|].
  intros H. apply not_elem_of_cons in H as [Hne H].
  destruct (String.eqb_spec k k0) as [->|_]; [now destruct Hne|].
  now rewrite IH.
Qed.

Section Comprehension.
Context {A : Type} (key : A -> string) (val : A -> V).

Let step := fun d (x : A) => Dict.set (key x) (val x) d.

Lemma fold_set_wf xs d : Dict.wf d -> Dict.wf (fold_left step xs d).
Proof.
  revert d. induction xs as [|x xs IH]; simpl; [trivial|].
  intros d H. apply IH. now apply wf_set.
Qed.

Lemma fold_set_elem xs d (it : string * V) :
  it ∈ fold_left step xs d ->
  it ∈ d \/ exists x, x ∈ xs /\ it = (key x, val x).
Proof.
  revert d. induction xs as [|x xs IH]; simpl; [now left|].
  intros d H. destruct (IH _ H) as [H'|(y & Hy & ->)].
  - destruct (elem_set _ _ _ _ H') as [->|?]; [|now left].
    right. exists x. split; [left | reflexivity].
  - right. exists y. split; [now right | reflexivity].
Qed.

Lemma fold_set_keys xs d k :
  k ∈ Dict.keys (fold_left step xs d)
  <-> k ∈ Dict.keys d \/ exists x, x ∈ xs /\ key x = k.
Proof.
  revert d. induction xs as [|x xs IH]; simpl; intros d.
  - split; [now left | intros [?|(x & Hx & _)]; [assumption|]].
    now apply elem_of_nil in Hx.
  - rewrite IH. unfold step at 1. rewrite keys_set.
    destruct (Dict.contains (key x) d) eqn:E.
    + apply contains_keys in E. split.
      * intros [?|(y & Hy & <-)]; [now left|].
        right. exists y. split; [now right | reflexivity].
      * intros [?|(y & Hy & <-)]; [now left|].
        apply elem_of_cons in Hy as [->|Hy]; [now left|].
        right. now exists y.
    + rewrite elem_of_app, list_elem_of_singleton. split.
      * intros [[?| ->]|(y & Hy & <-)]; [now left | |].
        -- right. exists x. split; [left | reflexivity].
        -- right. exists y. split; [now right | reflexivity].
      * intros [?|(y & Hy & <-)]; [now left; left|].
        apply elem_of_cons in Hy as [->|Hy]; [left; now right|].
        right. now exists y.
Qed.

Lemma fold_set_fresh xs d :
  NoDup (Dict.keys d ++ map key xs) ->
  fold_left step xs d = d ++ map (fun x => (key x, val x)) xs.
Proof.
  revert d. induction xs as [|x xs IH]; simpl; intros d H.
  - now rewrite app_nil_r.
  - unfold step at 2. rewrite set_fresh.
    + rewrite IH.
      * now rewrite <- app_assoc.
      * unfold Dict.keys in *. rewrite map_app. simpl.
        now rewrite <- app_assoc.
    + apply NoDup_app in H as (_ & H & _). intros Hin.
      apply (H _ Hin). left.
Qed.

Lemma comprehension_wf xs : Dict.wf (Dict.comprehension key val xs).
Proof. apply fold_set_wf. apply NoDup_nil_2. Qed.

Lemma comprehension_elem xs (it : string * V) :
  it ∈ Dict.comprehension key val xs ->
  exists x, x ∈ xs /\ it = (key x, val x).
Proof.
  intros H. apply fold_set_elem in H as [H|H]; [|exact H].
  now apply elem_of_nil in H.
Qed.

Lemma comprehension_keys xs k :
  k ∈ Dict.keys (Dict.comprehension key val xs)
  <-> exists x, x ∈ xs /\ key x = k.
Proof.
  etransitivity; [apply (fold_set_keys xs [] k)|]. simpl. split.
  - intros [H|H]; [now apply elem_of_nil in H | exact H].
  - now right.
Qed.

Lemma comprehension_fresh xs :
  NoDup (map key xs) ->
  Dict.comprehension key val xs = map (fun x => (key x, val x)) xs.
Proof. intros H. now apply (fold_set_fresh xs []). Qed.
End Comprehension.

End DictFacts.
End DictFacts.

(** ** The store *)

Lemma same_entity_refl d : same_entity d d.
Proof. now repeat split. Qed.

Lemma same_entity_trans d1 d2 d3 :
  same_entity d1 d2 -> same_entity d2 d3 -> same_entity d1 d3.
Proof. unfold same_entity. intros (?&?&?&?) (?&?&?&?). repeat split; congruence. Qed.

Lemma evolves_refl s : evolves s s [] [].
Proof.
  split; try reflexivity.
  - intros a. apply same_entity_refl.
  - exists []. now rewrite app_nil_r.
  - exists []. split; [now rewrite app_nil_r|].
    intros u H. now apply elem_of_nil in H.
Qed.

Lemma evolves_trans s1 s2 s3 A A' K K' :
  evolves s1 s2 A K -> evolves s2 s3 A' K' -> evolves s1 s3 (A ++ A') (K ++ K').
Proof.
  intros [L1 E1 F1 (L & HL) (R & HR & HRu) C1 Fi1 Se1]
         [L2 E2 F2 (L' & HL') (R' & HR' & HRu') C2 Fi2 Se2].
  split.
  - congruence.
  - intros a. eapply same_entity_trans; [apply E1 | apply E2].
  - intros a Ha. rewrite not_elem_of_app in Ha. destruct Ha.
    rewrite F2, F1; trivial.
  - exists (L ++ L'). rewrite HL', HL. now rewrite app_assoc.
  - exists (R ++ R'). split; [rewrite HR', HR; now rewrite app_assoc|].
    intros u Hu. apply elem_of_app in Hu as [Hu|Hu].
    + destruct (HRu _ Hu) as (k & Hk & ->). exists k. split; [|reflexivity].
      apply elem_of_app. now left.
    + destruct (HRu' _ Hu) as (k & Hk & ->). exists k. split; [|reflexivity].
      apply elem_of_app. now right.
  - intros k Hk. rewrite not_elem_of_app in Hk. destruct Hk.
    rewrite C2, C1; trivial.
  - congruence.
  - congruence.
Qed.

Lemma evolves_weaken s s' A A' K K' :
  evolves s s' A K -> A ⊆ A' -> K ⊆ K' -> evolves s s' A' K'.
Proof.
  intros [L1 E1 F1 HL (R & HR & HRu) C1 Fi1 Se1] HA HK.
  split; trivial.
  - intros a Ha. apply F1. intros Hin. apply Ha, HA, Hin.
  - exists R. split; [exact HR|]. intros u Hu.
    destruct (HRu _ Hu) as (k & Hk & ->). exists k. split; [|reflexivity].
    apply HK, Hk.
  - intros k Hk. apply C1. intros Hin. apply Hk, HK, Hin.
Qed.

Lemma evolves_id_at s s' A K a : evolves s s' A K -> id_at s' a = id_at s a.
Proof. intros H. destruct (ev_entity _ _ _ _ H a) as (?&_). assumption. Qed.

Lemma evolves_availability_at s s' A K a :
  evolves s s' A K -> availability_at s' a = availability_at s a.
Proof. intros H. destruct (ev_entity _ _ _ _ H a) as (_&_&_&?). assumption. Qed.

Lemma evolves_list_at s s' A K l :
  evolves s s' A K -> (l < length (lists s))%nat -> list_at s' l = list_at s l.
Proof.
  intros H Hl. destruct (ev_lists _ _ _ _ H) as (L & E).
  unfold list_at. rewrite E. now rewrite lookup_app_l.
Qed.

Lemma evolves_lists_length s s' A K :
  evolves s s' A K -> (length (lists s) <= length (lists s'))%nat.
Proof.
  intros H. destruct (ev_lists _ _ _ _ H) as (L & E).
  rewrite E, length_app. lia.
Qed.

Lemma get_doctor_locations_cases w k url s :
  (exists e, fresh_entry w s k = Some e
             /\ location_cache s !! k = Some e
             /\ get_doctor_locations w k url s
                = (entry_locations e, with_clock_reads s (S (clock_reads s))))
  \/ (fresh_entry w s k = None
      /\ get_doctor_locations w k url s
         = (length (lists s), after_miss w s k url)).
Proof.
  destruct (fresh_entry w s k) as [e|] eqn:F.
  - left. exists e. split; [reflexivity|]. split.
    + unfold fresh_entry in F. destruct (location_cache s !! k); [|discriminate].
      destruct (_ <? _); congruence.
    + now apply get_doctor_locations_hit.
  - right. split; [reflexivity|]. now apply get_doctor_locations_miss.
Qed.

Lemma get_doctor_locations_evolves w k s :
  evolves s (snd (get_doctor_locations w k (get_doctor_detail_url k) s)) [] [k].
Proof.
  destruct (get_doctor_locations_cases w k (get_doctor_detail_url k) s)
    as [(e & _ & _ & ->)|(_ & ->)]; simpl.
  - split; simpl; try reflexivity.
    + intros a. apply same_entity_refl.
    + exists []. now rewrite app_nil_r.
    + exists []. split; [now rewrite app_nil_r|].
      intros u H. now apply elem_of_nil in H.
  - split; simpl; try reflexivity.
    + intros a. apply same_entity_refl.
    + eexists. reflexivity.
    + eexists. split; [reflexivity|]. intros u H.
      apply list_elem_of_singleton in H as ->. exists k. split; [left|reflexivity].
    + intros k' Hk'. apply lookup_insert_ne. intros ->. apply Hk'. left.
Qed.

Lemma get_doctor_locations_shares w k url s :
  let '(l, s') := get_doctor_locations w k url s in
  exists e, location_cache s' !! k = Some e /\ entry_locations e = l.
Proof.
  destruct (get_doctor_locations_cases w k url s)
    as [(e & _ & L & ->)|(_ & ->)]; simpl.
  - now exists e.
  - eexists. split; [apply lookup_insert_eq | reflexivity].
Qed.

Lemma get_doctor_locations_ok w k url s :
  store_ok s ->
  let '(l, s') := get_doctor_locations w k url s in
  store_ok s' /\ (l < length (lists s'))%nat.
Proof.
  intros [Hc Hd].
  destruct (get_doctor_locations_cases w k url s)
    as [(e & _ & L & ->)|(_ & ->)]; simpl.
  - split; [split|]; simpl; eauto.
  - split; [split|]; simpl.
    + intros k' e'. rewrite length_app. simpl.
      destruct (decide (k = k')) as [->|Hne].
      * rewrite lookup_insert_eq. intros [= <-]. simpl. lia.
      * rewrite lookup_insert_ne by assumption. intros H.
        apply Hc in H. lia.
    + intros a l H. apply Hd in H. rewrite length_app. lia.
    + rewrite length_app. simpl. lia.
Qed.

Lemma doctor_at_set_locations a l s a' :
  doctor_at (snd (set_locations a l s)) a'
  = if bool_decide (a = a' /\ (a < length (doctors s))%nat)
    then Doctor (id_at s a) (first_name (doctor_at s a))
                (last_name (doctor_at s a)) (availability_at s a) (Some l)
    else doctor_at s a'.
Proof.
  unfold set_locations, doctor_at at 1. simpl.
  destruct (decide (a = a')) as [<-|Hne].
  - destruct (decide (a < length (doctors s))%nat) as [Hlt|Hge].
    + rewrite list_lookup_insert_eq by assumption.
      rewrite bool_decide_eq_true_2 by tauto. reflexivity.
    + rewrite list_insert_ge by lia.
      rewrite bool_decide_eq_false_2 by tauto. reflexivity.
  - rewrite list_lookup_insert_ne by assumption.
    rewrite bool_decide_eq_false_2 by tauto. reflexivity.
Qed.

Lemma set_locations_evolves a l s : evolves s (snd (set_locations a l s)) [a] [].
Proof.
  split; try reflexivity.
  - simpl. apply length_insert.
  - intros a'. rewrite doctor_at_set_locations. case_bool_decide as H.
    + destruct H as [<- _]. now repeat split.
    + apply same_entity_refl.
  - intros a' Ha'. rewrite doctor_at_set_locations.
    rewrite bool_decide_eq_false_2; [reflexivity|].
    intros [<- _]. apply Ha'. left.
  - exists []. simpl. now rewrite app_nil_r.
  - exists []. simpl. split; [now rewrite app_nil_r|].
    intros u H. now apply elem_of_nil in H.
Qed.

Lemma set_locations_read a l s :
  (a < length (doctors s))%nat ->
  locations (doctor_at (snd (set_locations a l s)) a) = Some l.
Proof.
  intros H. rewrite doctor_at_set_locations.
  now rewrite bool_decide_eq_true_2 by tauto.
Qed.

Lemma set_locations_ok a l s :
  store_ok s -> (l < length (lists s))%nat -> store_ok (snd (set_locations a l s)).
Proof.
  intros [Hc Hd] Hl. split.
  - exact Hc.
  - intros a' l'. rewrite doctor_at_set_locations. case_bool_decide.
    + simpl. now intros [= <-].
    + apply Hd.
Qed.


(** ** Loops *)

Lemma for_each_invariant {A B : Type} (I : list A -> B -> state -> Prop)
    (body : A -> B -> M B) (xs : list A) (acc : B) (s : state) :
  I [] acc s ->
  (forall done x rest acc s,
      xs = done ++ x :: rest -> I done acc s ->
      I (done ++ [x]) (fst (body x acc s)) (snd (body x acc s))) ->
  I xs (fst (for_each xs body acc s)) (snd (for_each xs body acc s)).
Proof.
  intros H0 Hstep.
  assert (G : forall todo done acc s,
             xs = done ++ todo -> I done acc s ->
             I (done ++ todo) (fst (for_each todo body acc s))
               (snd (for_each todo body acc s))).
  { induction todo as [|x todo IH]; intros done acc' s' E HI; simpl.
    - now rewrite app_nil_r.
    - unfold bind. destruct (body x acc' s') as [acc'' s''] eqn:Eb.
      replace (done ++ x :: todo) with ((done ++ [x]) ++ todo)
        by (now rewrite <- app_assoc).
      apply IH.
      + now rewrite <- app_assoc.
      + specialize (Hstep done x todo acc' s' E HI). now rewrite Eb in Hstep. }
  apply (G xs [] acc s); trivial.
Qed.

Lemma shares_cached_list_frame s s' A K k a :
  evolves s s' A K -> a ∉ A -> k ∉ K ->
  shares_cached_list s k a -> shares_cached_list s' k a.
Proof.
  intros H Ha Hk (l & e & Hl & He & E). exists l, e.
  rewrite (ev_frame _ _ _ _ H a Ha), (ev_cache _ _ _ _ H k Hk). auto.
Qed.

Lemma carries_cached_frame s0 s s' A K k a :
  evolves s s' A K -> a ∉ A ->
  carries_cached s0 s k a -> carries_cached s0 s' k a.
Proof.
  intros H Ha (l & Hl & Hlt & Hc). exists l.
  rewrite (ev_frame _ _ _ _ H a Ha). split; [assumption|]. split.
  - pose proof (evolves_lists_length _ _ _ _ H). lia.
  - destruct (location_cache s0 !! k); [assumption|].
    destruct Hc as [? Hnil]. split; [assumption|].
    now rewrite (evolves_list_at _ _ _ _ _ H Hlt).
Qed.

Lemma differs_evolves s s' A K previous it :
  evolves s s' A K -> differs s' previous it = differs s previous it.
Proof.
  intros H. unfold differs. destruct (Dict.get _ _); [|reflexivity].
  now rewrite !(evolves_availability_at _ _ _ _ _ H).
Qed.

Lemma changed_entry_evolves s s' A K previous it :
  evolves s s' A K -> changed_entry s' previous it = changed_entry s previous it.
Proof.
  intros H. unfold changed_entry. rewrite (evolves_availability_at _ _ _ _ _ H).
  destruct (Dict.get _ _); [|reflexivity].
  now rewrite (evolves_availability_at _ _ _ _ _ H).
Qed.

(** *** One turn of each loop of [detect_changes] *)

Lemma detect_added_step w previous k a added s :
  let '(added', s') := detect_added w previous (k, a) added s in
  if Dict.contains k previous then added' = added /\ s' = s
  else added' = added ++ [a]
       /\ evolves s s' [a] [id_at s a]
       /\ (store_ok s -> store_ok s')
       /\ ((a < length (doctors s))%nat -> shares_cached_list s' (id_at s a) a).
Proof.
  unfold detect_added. destruct (Dict.contains k previous); simpl; [now split|].
  unfold bind, read_doctor, ret. fold (id_at s a).
  pose proof (get_doctor_locations_evolves w (id_at s a) s) as He.
  pose proof (get_doctor_locations_shares w (id_at s a)
                (get_doctor_detail_url (id_at s a)) s) as Hs.
  pose proof (get_doctor_locations_ok w (id_at s a)
                (get_doctor_detail_url (id_at s a)) s) as Ho.
  destruct (get_doctor_locations w (id_at s a) _ s) as [l s1]. simpl in He.
  pose proof (set_locations_evolves a l s1) as He'.
  destruct (set_locations a l s1) as [[] s2] eqn:E2.
  assert (E2' : s2 = snd (set_locations a l s1)) by now rewrite E2.
  simpl in He'. split; [reflexivity|]. split.
  { apply (evolves_trans _ _ _ _ _ _ _ He He'). }
  split.
  { intros Hok. destruct (Ho Hok) as [Hok1 Hl]. subst s2.
    now apply set_locations_ok. }
  intros Hlt. destruct Hs as (e & Hc & El). exists l, e. subst s2.
  split; [|split; [exact Hc | exact El]].
  apply set_locations_read. now rewrite (ev_length _ _ _ _ He).
Qed.

Lemma new_list_evolves l s : evolves s (snd (new_list l s)) [] [].
Proof.
  split; simpl; try reflexivity.
  - intros a. apply same_entity_refl.
  - eexists. reflexivity.
  - exists []. split; [now rewrite app_nil_r|].
    intros u H. now apply elem_of_nil in H.
Qed.

Lemma new_list_ok l s :
  store_ok s -> store_ok (snd (new_list l s)).
Proof.
  intros [Hc Hd]. split; simpl.
  - intros k e H. apply Hc in H. rewrite length_app. lia.
  - intros a l' H. apply Hd in H. rewrite length_app. lia.
Qed.

Lemma detect_removed_step current k a removed s :
  let '(removed', s') := detect_removed current (k, a) removed s in
  if Dict.contains k current then removed' = removed /\ s' = s
  else removed' = removed ++ [a]
       /\ evolves s s' [a] []
       /\ (store_ok s -> store_ok s')
       /\ (store_ok s -> (a < length (doctors s))%nat -> carries_cached s s' k a).
Proof.
  unfold detect_removed. destruct (Dict.contains k current); simpl; [now split|].
  unfold bind, cache_lookup, ret.
  destruct (location_cache s !! k) as [e|] eqn:L.
  - pose proof (set_locations_evolves a (entry_locations e) s) as He.
    destruct (set_locations a (entry_locations e) s) as [[] s2] eqn:E2.
    assert (E2' : s2 = snd (set_locations a (entry_locations e) s))
      by now rewrite E2.
    simpl in He. split; [reflexivity|]. split; [exact He|]. split.
    + intros Hok. subst s2. apply set_locations_ok; [assumption|].
      destruct Hok as [Hc _]. eapply Hc, L.
    + intros Hok Hlt. exists (entry_locations e). subst s2. split.
      * now apply set_locations_read.
      * rewrite L. split; [|reflexivity]. simpl.
        destruct Hok as [Hc _]. eapply Hc, L.
  - pose proof (new_list_evolves [] s) as He1.
    pose proof (new_list_ok [] s) as Ho1.
    destruct (new_list [] s) as [l s1] eqn:E1.
    assert (El : l = length (lists s)) by (unfold new_list in E1; congruence).
    assert (Es1 : lists s1 = lists s ++ [[]])
      by (unfold new_list in E1; injection E1 as _ <-; reflexivity).
    simpl in He1, Ho1.
    pose proof (set_locations_evolves a l s1) as He2.
    destruct (set_locations a l s1) as [[] s2] eqn:E2.
    assert (E2' : s2 = snd (set_locations a l s1)) by now rewrite E2.
    simpl in He2. split; [reflexivity|]. split.
    { apply (evolves_trans _ _ _ _ _ _ _ He1 He2). }
    split.
    + intros Hok. subst s2. apply set_locations_ok; [auto|].
      rewrite Es1, length_app. simpl. lia.
    + intros Hok Hlt. exists l. subst s2. split; [|split].
      * apply set_locations_read. now rewrite (ev_length _ _ _ _ He1).
      * simpl. rewrite Es1, length_app. simpl. lia.
      * rewrite L. split; [lia|]. unfold list_at. simpl.
        rewrite Es1, El. rewrite lookup_app_r by lia.
        now rewrite Nat.sub_diag.
Qed.

Lemma detect_changed_step w previous k a changed s :
  let '(changed', s') := detect_changed w previous (k, a) changed s in
  if differs s previous (k, a)
  then changed' = changed ++ [changed_entry s previous (k, a)]
       /\ evolves s s' [a] [id_at s a]
       /\ (store_ok s -> store_ok s')
       /\ ((a < length (doctors s))%nat -> shares_cached_list s' (id_at s a) a)
  else changed' = changed /\ s' = s.
Proof.
  unfold detect_changed, differs, changed_entry. simpl.
  destruct (Dict.get k previous) as [b|]; [|now split].
  unfold bind, read_doctor, ret.
  fold (availability_at s a) (availability_at s b) (id_at s a).
  destruct (negb _); [|now split].
  pose proof (get_doctor_locations_evolves w (id_at s a) s) as He.
  pose proof (get_doctor_locations_shares w (id_at s a)
                (get_doctor_detail_url (id_at s a)) s) as Hs.
  pose proof (get_doctor_locations_ok w (id_at s a)
                (get_doctor_detail_url (id_at s a)) s) as Ho.
  destruct (get_doctor_locations w (id_at s a) _ s) as [l s1]. simpl in He.
  pose proof (set_locations_evolves a l s1) as He'.
  destruct (set_locations a l s1) as [[] s2] eqn:E2.
  assert (E2' : s2 = snd (set_locations a l s1)) by now rewrite E2.
  simpl in He'.
  pose proof (evolves_trans _ _ _ _ _ _ _ He He') as He2. simpl in He2.
  fold (availability_at s2 a) (availability_at s2 b).
  rewrite !(evolves_availability_at _ _ _ _ _ He2).
  split; [reflexivity|]. split; [exact He2|]. split.
  { intros Hok. destruct (Ho Hok) as [Hok1 Hl]. subst s2.
    now apply set_locations_ok. }
  intros Hlt. destruct Hs as (e & Hc & El). exists l, e. subst s2.
  split; [|split; [exact Hc | exact El]].
  apply set_locations_read. now rewrite (ev_length _ _ _ _ He).
Qed.

Lemma wf_prefix_fresh {V : Type} (done rest : list (string * V)) k v k0 v0 :
  Dict.wf (done ++ (k, v) :: rest) -> (k0, v0) ∈ done -> k0 <> k.
Proof.
  unfold Dict.wf, Dict.keys. rewrite map_app. simpl. intros H Hin ->.
  apply NoDup_app in H as (_ & H & _).
  apply (H k).
  - apply (list_elem_of_fmap_2 fst) in Hin. exact Hin.
  - left.
Qed.

Lemma elem_of_filter_list {A : Type} (f : A -> bool) (l : list A) x :
  x ∈ List.filter f l <-> x ∈ l /\ f x = true.
Proof. rewrite !list_elem_of_In. apply filter_In. Qed.

(** *** The three loops *)

Lemma added_loop w current previous s :
  let '(added, s') := for_each current (detect_added w previous) [] s in
  added = map snd (added_items current previous)
  /\ evolves s s' added (map (id_at s) added)
  /\ (store_ok s -> store_ok s')
  /\ (Dict.wf current -> keyed_by_id s current -> allocated s current ->
      forall k a, (k, a) ∈ added_items current previous ->
                  shares_cached_list s' k a).
Proof.
  pose (I := fun (done : list (string * addr)) (acc : list addr) (s1 : state) =>
    acc = map snd (added_items done previous)
    /\ evolves s s1 acc (map (id_at s) acc)
    /\ (store_ok s -> store_ok s1)
    /\ (Dict.wf current -> keyed_by_id s current -> allocated s current ->
        forall k a, (k, a) ∈ added_items done previous ->
                    shares_cached_list s1 k a)).
  pose proof (for_each_invariant I (detect_added w previous) current [] s) as H.
  destruct (for_each current (detect_added w previous) [] s) as [added s'].
  apply H; clear H; unfold I; clear I.
  - split; [reflexivity|]. split; [apply evolves_refl|]. split; [trivial|].
    intros _ _ _ k a Hin. now apply elem_of_nil in Hin.
  - intros done [k a] rest acc s1 E (Hacc & Hev & Hok & Hsh).
    pose proof (detect_added_step w previous k a acc s1) as Hstep.
    destruct (detect_added w previous (k, a) acc s1) as [acc' s1']. simpl.
    unfold added_items in *. rewrite List.filter_app. simpl.
    destruct (Dict.contains k previous); simpl.
    + destruct Hstep as [-> ->]. rewrite app_nil_r. auto.
    + destruct Hstep as (-> & Hev1 & Hok1 & Hsh1).
      rewrite (evolves_id_at _ _ _ _ a Hev) in Hev1, Hsh1.
      split; [rewrite map_app; now rewrite Hacc|]. split.
      { rewrite map_app. apply (evolves_trans _ _ _ _ _ _ _ Hev Hev1). }
      split; [auto|].
      intros Hwf Hkey Hall k0 a0 Hin.
      assert (Hx : (k, a) ∈ current).
      { rewrite E. apply elem_of_app. right. left. }
      rewrite (Hkey _ _ Hx) in Hev1, Hsh1.
      apply elem_of_app in Hin as [Hin|Hin].
      * assert (Hd : (k0, a0) ∈ done)
          by (apply elem_of_filter_list in Hin; tauto).
        assert (Hne : k0 <> k)
          by (rewrite E in Hwf; apply (wf_prefix_fresh _ _ _ _ _ _ Hwf Hd)).
        apply (shares_cached_list_frame _ _ _ _ _ _ Hev1).
        -- intros Ha. apply list_elem_of_singleton in Ha. subst a0.
           apply Hne. rewrite <- (Hkey k a Hx). symmetry. apply Hkey.
           rewrite E. apply elem_of_app. now left.
        -- intros Hk. apply list_elem_of_singleton in Hk. contradiction.
        -- now apply Hsh.
      * apply list_elem_of_singleton in Hin as [= -> ->].
        apply Hsh1. rewrite (ev_length _ _ _ _ Hev). apply (Hall k a Hx).
Qed.

Lemma carries_cached_rebase s s1 s' A K k a :
  evolves s s1 A K -> k ∉ K ->
  carries_cached s1 s' k a -> carries_cached s s' k a.
Proof.
  intros H Hk (l & Hl & Hlt & Hc). exists l. split; [assumption|].
  split; [assumption|].
  rewrite <- (ev_cache _ _ _ _ H k) by assumption.
  destruct (location_cache s1 !! k); [assumption|].
  destruct Hc. split; [|assumption].
  pose proof (evolves_lists_length _ _ _ _ H). lia.
Qed.

Lemma removed_loop current previous s :
  let '(removed, s') := for_each previous (detect_removed current) [] s in
  removed = map snd (removed_items current previous)
  /\ evolves s s' removed []
  /\ (store_ok s -> store_ok s')
  /\ (store_ok s -> Dict.wf previous -> keyed_by_id s previous ->
      allocated s previous ->
      forall k a, (k, a) ∈ removed_items current previous ->
                  carries_cached s s' k a).
Proof.
  pose (I := fun (done : list (string * addr)) (acc : list addr) (s1 : state) =>
    acc = map snd (removed_items current done)
    /\ evolves s s1 acc []
    /\ (store_ok s -> store_ok s1)
    /\ (store_ok s -> Dict.wf previous -> keyed_by_id s previous ->
        allocated s previous ->
        forall k a, (k, a) ∈ removed_items current done ->
                    carries_cached s s1 k a)).
  pose proof (for_each_invariant I (detect_removed current) previous [] s) as H.
  destruct (for_each previous (detect_removed current) [] s) as [removed s'].
  apply H; clear H; unfold I; clear I.
  - split; [reflexivity|]. split; [apply evolves_refl|]. split; [trivial|].
    intros _ _ _ _ k a Hin. now apply elem_of_nil in Hin.
  - intros done [k a] rest acc s1 E (Hacc & Hev & Hok & Hcc).
    pose proof (detect_removed_step current k a acc s1) as Hstep.
    destruct (detect_removed current (k, a) acc s1) as [acc' s1']. simpl.
    unfold removed_items in *. rewrite List.filter_app. simpl.
    destruct (Dict.contains k current); simpl.
    + destruct Hstep as [-> ->]. rewrite app_nil_r. auto.
    + destruct Hstep as (-> & Hev1 & Hok1 & Hcc1).
      split; [rewrite map_app; now rewrite Hacc|]. split.
      { apply (evolves_trans _ _ _ _ _ _ _ Hev Hev1). }
      split; [auto|].
      intros Hs Hwf Hkey Hall k0 a0 Hin.
      assert (Hx : (k, a) ∈ previous).
      { rewrite E. apply elem_of_app. right. left. }
      apply elem_of_app in Hin as [Hin|Hin].
      * assert (Hd : (k0, a0) ∈ done)
          by (apply elem_of_filter_list in Hin; tauto).
        assert (Hne : k0 <> k)
          by (rewrite E in Hwf; apply (wf_prefix_fresh _ _ _ _ _ _ Hwf Hd)).
        apply (carries_cached_frame _ _ _ _ _ _ _ Hev1).
        -- intros Ha. apply list_elem_of_singleton in Ha. subst a0.
           apply Hne. rewrite <- (Hkey k a Hx). symmetry. apply Hkey.
           rewrite E. apply elem_of_app. now left.
        -- now apply Hcc.
      * apply list_elem_of_singleton in Hin as [= -> ->].
        apply (carries_cached_rebase _ _ _ _ _ _ _ Hev);
          [apply not_elem_of_nil|]. apply Hcc1; [auto|].
        rewrite (ev_length _ _ _ _ Hev). apply (Hall k a Hx).
Qed.

Lemma changed_loop w current previous s :
  let '(changed, s') := for_each current (detect_changed w previous) [] s in
  changed = map (changed_entry s previous) (changed_items s current previous)
  /\ evolves s s' (map snd (changed_items s current previous))
       (map (fun it => id_at s (snd it)) (changed_items s current previous))
  /\ (store_ok s -> store_ok s')
  /\ (Dict.wf current -> keyed_by_id s current -> allocated s current ->
      forall k a, (k, a) ∈ changed_items s current previous ->
                  shares_cached_list s' k a).
Proof.
  pose (I := fun (done : list (string * addr))
                 (acc : list (addr * string * string)) (s1 : state) =>
    acc = map (changed_entry s previous) (changed_items s done previous)
    /\ evolves s s1 (map snd (changed_items s done previous))
         (map (fun it => id_at s (snd it)) (changed_items s done previous))
    /\ (store_ok s -> store_ok s1)
    /\ (Dict.wf current -> keyed_by_id s current -> allocated s current ->
        forall k a, (k, a) ∈ changed_items s done previous ->
                    shares_cached_list s1 k a)).
  pose proof (for_each_invariant I (detect_changed w previous) current [] s) as H.
  destruct (for_each current (detect_changed w previous) [] s) as [changed s'].
  apply H; clear H; unfold I; clear I.
  - split; [reflexivity|]. split; [apply evolves_refl|]. split; [trivial|].
    intros _ _ _ k a Hin. now apply elem_of_nil in Hin.
  - intros done [k a] rest acc s1 E (Hacc & Hev & Hok & Hsh).
    pose proof (detect_changed_step w previous k a acc s1) as Hstep.
    destruct (detect_changed w previous (k, a) acc s1) as [acc' s1']. simpl.
    rewrite (differs_evolves _ _ _ _ _ _ Hev) in Hstep.
    rewrite (changed_entry_evolves _ _ _ _ _ _ Hev) in Hstep.
    unfold changed_items in *. rewrite List.filter_app. simpl.
    destruct (differs s previous (k, a)); simpl.
    + destruct Hstep as (-> & Hev1 & Hok1 & Hsh1).
      rewrite (evolves_id_at _ _ _ _ a Hev) in Hev1, Hsh1.
      split; [rewrite map_app; now rewrite Hacc|]. split.
      { rewrite !map_app. apply (evolves_trans _ _ _ _ _ _ _ Hev Hev1). }
      split; [auto|].
      intros Hwf Hkey Hall k0 a0 Hin.
      assert (Hx : (k, a) ∈ current).
      { rewrite E. apply elem_of_app. right. left. }
      rewrite (Hkey _ _ Hx) in Hev1, Hsh1.
      apply elem_of_app in Hin as [Hin|Hin].
      * assert (Hd : (k0, a0) ∈ done)
          by (apply elem_of_filter_list in Hin; tauto).
        assert (Hne : k0 <> k)
          by (rewrite E in Hwf; apply (wf_prefix_fresh _ _ _ _ _ _ Hwf Hd)).
        apply (shares_cached_list_frame _ _ _ _ _ _ Hev1).
        -- intros Ha. apply list_elem_of_singleton in Ha. subst a0.
           apply Hne. rewrite <- (Hkey k a Hx). symmetry. apply Hkey.
           rewrite E. apply elem_of_app. now left.
        -- intros Hk. apply list_elem_of_singleton in Hk. contradiction.
        -- now apply Hsh.
      * apply list_elem_of_singleton in Hin as [= -> ->].
        apply Hsh1. rewrite (ev_length _ _ _ _ Hev). apply (Hall k a Hx).
    + destruct Hstep as [-> ->]. rewrite !app_nil_r. auto.
Qed.

(** ** The change detector *)

Lemma current_ids_wf s cur : Dict.wf (current_ids s cur).
Proof. apply DictFacts.comprehension_wf. Qed.

Lemma current_ids_elem s cur k a :
  (k, a) ∈ current_ids s cur -> a ∈ cur /\ id_at s a = k.
Proof.
  intros H. apply DictFacts.comprehension_elem in H as (x & Hx & [= -> ->]).
  now split.
Qed.

Lemma current_ids_keyed s cur : keyed_by_id s (current_ids s cur).
Proof. intros k a H. now apply current_ids_elem in H. Qed.

Lemma current_ids_keys s cur k :
  k ∈ Dict.keys (current_ids s cur) <-> exists a, a ∈ cur /\ id_at s a = k.
Proof. apply DictFacts.comprehension_keys. Qed.

Lemma keyed_by_id_evolves s s' A K d :
  evolves s s' A K -> keyed_by_id s d -> keyed_by_id s' d.
Proof.
  intros H Hk k a Hin. rewrite (evolves_id_at _ _ _ _ _ H). now apply Hk.
Qed.

Lemma allocated_evolves s s' A K d :
  evolves s s' A K -> allocated s d -> allocated s' d.
Proof.
  intros H Ha k a Hin. rewrite (ev_length _ _ _ _ H). now apply (Ha k).
Qed.

Lemma changed_items_evolves s s' A K current previous :
  evolves s s' A K ->
  changed_items s' current previous = changed_items s current previous.
Proof.
  intros H. unfold changed_items. apply List.filter_ext.
  intros it. apply (differs_evolves _ _ _ _ _ _ H).
Qed.

Lemma keyed_map_fst s d items :
  keyed_by_id s d -> (forall it, it ∈ items -> it ∈ d) ->
  map (fun it => id_at s (snd it)) items = map fst items.
Proof.
  intros Hk Hsub. apply map_ext_in. intros [k a] Hin. simpl.
  apply Hk. apply Hsub. now apply list_elem_of_In.
Qed.

Lemma differs_in_previous s previous it :
  differs s previous it = true -> fst it ∈ Dict.keys previous.
Proof.
  unfold differs. intros H. apply DictFacts.contains_keys.
  unfold Dict.contains. now destruct (Dict.get (fst it) previous).
Qed.

Lemma added_items_spec current previous k a :
  (k, a) ∈ added_items current previous
  <-> (k, a) ∈ current /\ k ∉ Dict.keys previous.
Proof.
  unfold added_items. rewrite elem_of_filter_list. simpl.
  rewrite negb_true_iff, DictFacts.contains_false_keys. reflexivity.
Qed.

Lemma removed_items_spec current previous k a :
  (k, a) ∈ removed_items current previous
  <-> (k, a) ∈ previous /\ k ∉ Dict.keys current.
Proof.
  unfold removed_items. rewrite elem_of_filter_list. simpl.
  rewrite negb_true_iff, DictFacts.contains_false_keys. reflexivity.
Qed.

Lemma changed_items_spec s current previous k a :
  (k, a) ∈ changed_items s current previous
  <-> (k, a) ∈ current
      /\ exists b, Dict.get k previous = Some b
                   /\ availability_at s a <> availability_at s b.
Proof.
  unfold changed_items. rewrite elem_of_filter_list. unfold differs. simpl.
  destruct (Dict.get k previous) as [b|].
  - rewrite negb_true_iff. split.
    + intros [H E]. split; [assumption|]. exists b. split; [reflexivity|].
      now apply String.eqb_neq.
    + intros [H (b' & [= <-] & E)]. split; [assumption|].
      now apply String.eqb_neq.
  - split; [intros [_ ?]; discriminate | intros [_ (b & ? & _)]; discriminate].
Qed.

Lemma elem_keys {V : Type} (d : list (string * V)) k v :
  (k, v) ∈ d -> k ∈ Dict.keys d.
Proof. intros H. apply (list_elem_of_fmap_2 fst) in H. exact H. Qed.

Lemma detect_changes_spec w cur ps s :
  let current := current_ids s cur in
  let previous := previous_ids ps in
  let '(c, s') := detect_changes w cur ps s in
  c = Changes (map snd (added_items current previous))
              (map snd (removed_items current previous))
              (map (changed_entry s previous)
                   (changed_items s current previous))
  /\ evolves s s'
       (map snd (added_items current previous)
        ++ map snd (removed_items current previous)
        ++ map snd (changed_items s current previous))
       (map fst (added_items current previous)
        ++ map fst (changed_items s current previous))
  /\ (store_ok s -> store_ok s')
  /\ (store_ok s -> Dict.wf previous -> keyed_by_id s previous ->
      allocated s previous ->
      (forall a, a ∈ cur -> (a < length (doctors s))%nat) ->
      (forall k a, (k, a) ∈ added_items current previous ->
                   shares_cached_list s' k a)
      /\ (forall k a, (k, a) ∈ changed_items s current previous ->
                      shares_cached_list s' k a)
      /\ (forall k a, (k, a) ∈ removed_items current previous ->
                      carries_cached s s' k a)).
Proof.
  intros current previous.
  pose proof (current_ids_wf s cur) as Hwfc.
  pose proof (current_ids_keyed s cur) as Hkc.
  fold current in Hwfc, Hkc.
  unfold detect_changes, bind, ret.
  assert (Eids : ids_of cur s = (current, s)) by reflexivity.
  rewrite Eids. change (default [] (sd_doctors ps)) with previous.
  (* first loop *)
  pose proof (added_loop w current previous s) as H1.
  destruct (for_each current (detect_added w previous) [] s) as [added s1].
  destruct H1 as (-> & Hev1 & Hok1 & Hsh1).
  rewrite map_map in Hev1.
  rewrite (keyed_map_fst s current) in Hev1;
    [|assumption|intros it Hit; apply elem_of_filter_list in Hit; tauto].
  (* second loop *)
  pose proof (removed_loop current previous s1) as H2.
  destruct (for_each previous (detect_removed current) [] s1) as [removed s2].
  destruct H2 as (-> & Hev2 & Hok2 & Hcc2).
  pose proof (evolves_trans _ _ _ _ _ _ _ Hev1 Hev2) as Hev12.
  rewrite app_nil_r in Hev12.
  (* third loop *)
  pose proof (changed_loop w current previous s2) as H3.
  destruct (for_each current (detect_changed w previous) [] s2) as [changed s3].
  rewrite (changed_items_evolves _ _ _ _ current previous Hev12) in H3.
  destruct H3 as (-> & Hev3 & Hok3 & Hsh3).
  assert (Ek : map (fun it => id_at s2 (snd it))
                   (changed_items s current previous)
               = map fst (changed_items s current previous)).
  { rewrite <- (keyed_map_fst s current (changed_items s current previous));
      [|assumption|intros it Hit; apply elem_of_filter_list in Hit; tauto].
    apply map_ext. intros it. apply (evolves_id_at _ _ _ _ _ Hev12). }
  rewrite Ek in Hev3.
  pose proof (evolves_trans _ _ _ _ _ _ _ Hev12 Hev3) as Hev.
  rewrite <- app_assoc in Hev.
  split.
  { f_equal. apply map_ext. intros it.
    apply (changed_entry_evolves _ _ _ _ _ _ Hev12). }
  split; [exact Hev|]. split; [auto|].
  intros Hok Hwfp Hkp Hap Hcur.
  assert (Hac : allocated s current).
  { intros k a Hin. apply Hcur. now apply current_ids_elem in Hin. }
  (* the three groups of doctors are apart *)
  assert (Hadd_rem : forall k a, (k, a) ∈ added_items current previous ->
                                 a ∉ map snd (removed_items current previous)).
  { intros k a Hin Hr. apply added_items_spec in Hin as [Hin Hnp].
    apply list_elem_of_fmap in Hr as ([k2 a2] & -> & Hr). simpl in *.
    apply removed_items_spec in Hr as [Hr Hnc].
    apply Hnp. rewrite <- (Hkc _ _ Hin), (Hkp _ _ Hr).
    now apply (elem_keys _ _ a2). }
  assert (Hadd_chg : forall k a, (k, a) ∈ added_items current previous ->
                                 (a ∉ map snd (changed_items s current previous))
                                 /\ (k ∉ map fst (changed_items s current previous))).
  { intros k a Hin. apply added_items_spec in Hin as [Hin Hnp].
    split; intros Hr;
      apply list_elem_of_fmap in Hr as ([k3 a3] & E & Hr); simpl in E;
      apply elem_of_filter_list in Hr as [Hr Hd];
      apply differs_in_previous in Hd; simpl in Hd; apply Hnp.
    - subst a3. now rewrite <- (Hkc _ _ Hin), (Hkc _ _ Hr).
    - now subst k3. }
  assert (Hrem_chg : forall k a, (k, a) ∈ removed_items current previous ->
                                 a ∉ map snd (changed_items s current previous)).
  { intros k a Hin Hr. apply removed_items_spec in Hin as [Hin Hnc].
    apply list_elem_of_fmap in Hr as ([k3 a3] & -> & Hr). simpl in *.
    apply elem_of_filter_list in Hr as [Hr _].
    apply Hnc. rewrite <- (Hkp _ _ Hin), (Hkc _ _ Hr).
    now apply (elem_keys _ _ a3). }
  split; [|split].
  - intros k a Hin. destruct (Hadd_chg _ _ Hin) as [Ha Hk].
    apply (shares_cached_list_frame _ _ _ _ _ _ Hev3 Ha Hk).
    apply (shares_cached_list_frame _ _ _ _ _ _ Hev2 (Hadd_rem _ _ Hin)
             (not_elem_of_nil k)).
    now apply Hsh1.
  - apply Hsh3; [assumption| |].
    + apply (keyed_by_id_evolves _ _ _ _ _ Hev12 Hkc).
    + apply (allocated_evolves _ _ _ _ _ Hev12 Hac).
  - intros k a Hin.
    apply (carries_cached_frame _ _ _ _ _ _ _ Hev3 (Hrem_chg _ _ Hin)).
    apply (carries_cached_rebase _ _ _ _ _ _ _ Hev1).
    { intros Hk. apply removed_items_spec in Hin as [_ Hnc]. apply Hnc.
      apply list_elem_of_fmap in Hk as ([k1 a1] & -> & Hk). simpl.
      apply elem_of_filter_list in Hk as [Hk _]. now apply (elem_keys _ _ a1). }
    apply Hcc2; [auto|assumption| | |assumption].
    + apply (keyed_by_id_evolves _ _ _ _ _ Hev1 Hkp).
    + apply (allocated_evolves _ _ _ _ _ Hev1 Hap).
Qed.

(** The ids of the three lists of the change-set, read in the final store. *)
Lemma detect_changes_ids w cur ps s :
  let current := current_ids s cur in
  let previous := previous_ids ps in
  keyed_by_id s previous ->
  let '(c, s') := detect_changes w cur ps s in
  map (id_at s') (added c) = map fst (added_items current previous)
  /\ map (id_at s') (removed c) = map fst (removed_items current previous)
  /\ map (id_at s') (map (fun e => fst (fst e)) (changed c))
     = map fst (changed_items s current previous).
Proof.
  intros current previous Hkp.
  pose proof (detect_changes_spec w cur ps s) as H. cbv zeta in H.
  fold current previous in H.
  destruct (detect_changes w cur ps s) as [c s'].
  destruct H as (-> & Hev & _). simpl.
  assert (Eid : forall (d items : list (string * addr)),
             keyed_by_id s d -> (forall it, it ∈ items -> it ∈ d) ->
             map (id_at s') (map snd items) = map fst items).
  { intros d items Hk Hsub. rewrite map_map.
    rewrite <- (keyed_map_fst s d items Hk Hsub).
    apply map_ext. intros it. apply (evolves_id_at _ _ _ _ _ Hev). }
  split; [|split].
  - apply (Eid current); [apply current_ids_keyed|].
    intros it Hit. apply elem_of_filter_list in Hit. tauto.
  - apply (Eid previous); [assumption|].
    intros it Hit. apply elem_of_filter_list in Hit. tauto.
  - rewrite (map_map (changed_entry s previous)).
    change (map (id_at s') (map snd (changed_items s current previous))
            = map fst (changed_items s current previous)).
    apply (Eid current); [apply current_ids_keyed|].
    intros it Hit. apply elem_of_filter_list in Hit. tauto.
Qed.

Lemma wf_filter {V : Type} (f : string * V -> bool) (d : list (string * V)) :
  Dict.wf d -> NoDup (map fst (List.filter f d)).
Proof.
  unfold Dict.wf, Dict.keys. induction d as [|[k v] d IH]; simpl.
  - intros _. apply NoDup_nil_2.
  - intros H. apply NoDup_cons in H as [Hk H].
    destruct (f (k, v)); simpl; [|auto].
    apply NoDup_cons. split; [|auto].
    intros Hin. apply Hk.
    apply list_elem_of_fmap in Hin as ([k' v'] & -> & Hin).
    apply elem_of_filter_list in Hin as [Hin _].
    apply (list_elem_of_fmap_2 fst) in Hin. exact Hin.
Qed.

Lemma elem_map_fst {V : Type} (d : list (string * V)) k :
  k ∈ map fst d <-> exists v, (k, v) ∈ d.
Proof.
  split.
  - intros H. apply list_elem_of_fmap in H as ([k' v] & -> & H). now exists v.
  - intros [v H]. now apply (elem_keys _ _ v).
Qed.

Lemma get_Some_iff {V : Type} (d : list (string * V)) k v :
  Dict.wf d -> Dict.get k d = Some v <-> (k, v) ∈ d.
Proof.
  intros H. split; [apply DictFacts.get_Some_elem | now apply DictFacts.elem_get].
Qed.

(** C1: [detect_changes] sorts every id into exactly one of four classes.
    With [current] the dict built from the listing (its keys are the ids of
    the listed doctors) and [previous] the dict of the loaded snapshot (a
    Python dict keyed by the ids of its doctors):
    the ids of [added] are the keys of [current] that are not keys of
    [previous]; the ids of [removed] are the keys of [previous] that are
    not keys of [current]; the ids of [changed] are the keys of both whose
    availability differs; a key of both with equal availability is in no
    list; and no id occurs twice in the three lists taken together. *)
Theorem detect_changes_partitions_ids w current_doctors previous_state s :
  let current := current_ids s current_doctors in
  let previous := previous_ids previous_state in
  Dict.wf previous -> keyed_by_id s previous ->
  let '(c, s') := detect_changes w current_doctors previous_state s in
  let added_ids := map (id_at s') (added c) in
  let removed_ids := map (id_at s') (removed c) in
  let changed_ids := map (id_at s') (map (fun e => fst (fst e)) (changed c)) in
  (forall k, k ∈ Dict.keys current
             <-> exists a, a ∈ current_doctors /\ id_at s a = k)
  /\ (forall k, k ∈ added_ids
                <-> k ∈ Dict.keys current /\ k ∉ Dict.keys previous)
  /\ (forall k, k ∈ removed_ids
                <-> k ∈ Dict.keys previous /\ k ∉ Dict.keys current)
  /\ (forall k, k ∈ changed_ids
                <-> exists a b, Dict.get k current = Some a
                                /\ Dict.get k previous = Some b
                                /\ availability_at s a <> availability_at s b)
  /\ (forall k a b, Dict.get k current = Some a ->
                    Dict.get k previous = Some b ->
                    availability_at s a = availability_at s b ->
                    k ∉ added_ids ++ removed_ids ++ changed_ids)
  /\ NoDup (added_ids ++ removed_ids ++ changed_ids).
Proof.
  intros current previous Hwfp Hkp.
  pose proof (current_ids_wf s current_doctors) as Hwfc. fold current in Hwfc.
  pose proof (detect_changes_ids w current_doctors previous_state s Hkp) as H.
  fold current previous in H.
  destruct (detect_changes w current_doctors previous_state s) as [c s'].
  destruct H as (Ea & Er & Ec). cbv zeta. rewrite Ea, Er, Ec. clear Ea Er Ec.
  assert (Ha : forall k, k ∈ map fst (added_items current previous)
                         <-> k ∈ Dict.keys current /\ k ∉ Dict.keys previous).
  { intros k. rewrite elem_map_fst. unfold Dict.keys at 1.
    rewrite elem_map_fst. split.
    - intros (a & Hin). apply added_items_spec in Hin as [? ?]. eauto.
    - intros [(a & Hin) Hn]. exists a. now apply added_items_spec. }
  assert (Hr : forall k, k ∈ map fst (removed_items current previous)
                         <-> k ∈ Dict.keys previous /\ k ∉ Dict.keys current).
  { intros k. rewrite elem_map_fst. unfold Dict.keys at 1.
    rewrite elem_map_fst. split.
    - intros (a & Hin). apply removed_items_spec in Hin as [? ?]. eauto.
    - intros [(a & Hin) Hn]. exists a. now apply removed_items_spec. }
  assert (Hc : forall k, k ∈ map fst (changed_items s current previous)
                         <-> exists a b, Dict.get k current = Some a
                                         /\ Dict.get k previous = Some b
                                         /\ availability_at s a
                                            <> availability_at s b).
  { intros k. rewrite elem_map_fst. split.
    - intros (a & Hin). apply changed_items_spec in Hin as [Hin (b & ? & ?)].
      exists a, b. split; [now apply DictFacts.elem_get | auto].
    - intros (a & b & Hga & Hgb & Hne). exists a. apply changed_items_spec.
      split; [now apply DictFacts.get_Some_elem | eauto]. }
  split; [apply current_ids_keys|].
  split; [exact Ha|]. split; [exact Hr|]. split; [exact Hc|]. split.
  - intros k a b Hga Hgb Heq Hin.
    assert (Hkc : k ∈ Dict.keys current)
      by (apply DictFacts.get_Some_elem in Hga; now apply (elem_keys _ _ a)).
    assert (Hkp' : k ∈ Dict.keys previous)
      by (apply DictFacts.get_Some_elem in Hgb; now apply (elem_keys _ _ b)).
    rewrite !elem_of_app, Ha, Hr, Hc in Hin.
    destruct Hin as [[_ ?]|[[_ ?]|(a' & b' & Hga' & Hgb' & Hne)]];
      [tauto|tauto|]. congruence.
  - apply NoDup_app. split; [now apply wf_filter|]. split.
    + intros k Hk Hk'. apply Ha in Hk as [Hkc Hnp].
      apply elem_of_app in Hk' as [Hk'|Hk'].
      * apply Hr in Hk'. tauto.
      * apply Hc in Hk' as (a & b & _ & Hgb & _). apply Hnp.
        apply DictFacts.get_Some_elem in Hgb. now apply (elem_keys _ _ b).
    + apply NoDup_app. split; [now apply wf_filter|]. split.
      * intros k Hk Hk'. apply Hr in Hk as [_ Hnc].
        apply Hc in Hk' as (a & b & Hga & _ & _). apply Hnc.
        apply DictFacts.get_Some_elem in Hga. now apply (elem_keys _ _ a).
      * now apply wf_filter.
Qed.

Lemma sample_previous_wf : Dict.wf Sample.previous.
Proof.
  unfold Dict.wf. simpl. apply NoDup_cons. split.
  - intros H. apply list_elem_of_singleton in H. discriminate.
  - apply NoDup_singleton.
Defined.

Lemma sample_previous_keyed : keyed_by_id Sample.s Sample.previous.
Proof.
  intros k a H.
  apply elem_of_cons in H as [[= -> ->]|H]; [reflexivity|].
  apply list_elem_of_singleton in H as [= -> ->]. reflexivity.
Defined.

Lemma detect_changes_partitions_ids_witness :
  let '(c, s') :=
    detect_changes Sample.w Sample.current_doctors Sample.previous_state
      Sample.s in
  map (id_at s') (added c) = ["A3"]
  /\ map (id_at s') (removed c) = ["A2"]
  /\ map (id_at s') (map (fun e => fst (fst e)) (changed c)) = ["A1"]
  /\ NoDup (map (id_at s') (added c) ++ map (id_at s') (removed c)
            ++ map (id_at s') (map (fun e => fst (fst e)) (changed c))).
Proof.
  pose proof (detect_changes_partitions_ids Sample.w Sample.current_doctors
                Sample.previous_state Sample.s sample_previous_wf
                sample_previous_keyed) as H.
  destruct (detect_changes Sample.w Sample.current_doctors
              Sample.previous_state Sample.s) as [c s'] eqn:E.
  vm_compute in E. injection E as <- <-.
  destruct H as (_ & _ & _ & _ & _ & H).
  repeat split; try reflexivity. exact H.
Defined.

Lemma for_each_skip {A B : Type} (body : A -> B -> M B) (xs : list A) :
  (forall x acc s, x ∈ xs -> body x acc s = (acc, s)) ->
  forall acc s, for_each xs body acc s = (acc, s).
Proof.
  induction xs as [|x xs IH]; intros H acc s; simpl; [reflexivity|].
  unfold bind. rewrite H by left. apply IH.
  intros y acc' s' Hy. apply H. now right.
Qed.

Lemma current_ids_of_snapshot s (S : list (string * addr)) :
  Dict.wf S -> keyed_by_id s S -> current_ids s (map snd S) = S.
Proof.
  intros Hwf Hk. unfold current_ids, ids_of. simpl.
  assert (E : map (fun a => doctor_id (doctor_at s a)) (map snd S) = map fst S).
  { rewrite map_map. apply map_ext_in. intros [k a] Hin. simpl.
    apply (Hk k a). now apply list_elem_of_In. }
  rewrite DictFacts.comprehension_fresh by (rewrite E; exact Hwf).
  rewrite map_map. rewrite <- (map_id S) at 2. apply map_ext_in.
  intros [k a] Hin. simpl. f_equal. apply (Hk k a). now apply list_elem_of_In.
Qed.

(** C9: a snapshot compared with itself yields the empty change-set.  For
    every snapshot [S] (a dict keyed by the ids of its doctors), every cache
    and every world, [detect_changes] given the doctors of [S] as the
    current listing and [S] as the previous state returns no added, no
    removed and no changed entry, and leaves the whole store, cache
    included, as it was. *)
Theorem detect_changes_same_snapshot_empty w (S : list (string * addr))
    (cache : option (gmap string cache_entry)) s :
  Dict.wf S -> keyed_by_id s S ->
  detect_changes w (map snd S) (StateDict (Some S) cache) s
  = (Changes [] [] [], s).
Proof.
  intros Hwf Hk. unfold detect_changes, bind, ret.
  assert (Eids : ids_of (map snd S) s = (S, s)).
  { pose proof (current_ids_of_snapshot s S Hwf Hk) as E.
    unfold current_ids in E. unfold ids_of in *. simpl in *. now rewrite E. }
  rewrite Eids. simpl.
  rewrite (for_each_skip (detect_added w S) S).
  2:{ intros [k a] acc s' Hin. unfold detect_added.
      assert (Hc : Dict.contains k S = true)
        by (apply DictFacts.contains_keys; now apply (elem_keys _ _ a)).
      now rewrite Hc. }
  rewrite (for_each_skip (detect_removed S) S).
  2:{ intros [k a] acc s' Hin. unfold detect_removed.
      assert (Hc : Dict.contains k S = true)
        by (apply DictFacts.contains_keys; now apply (elem_keys _ _ a)).
      now rewrite Hc. }
  rewrite (for_each_skip (detect_changed w S) S).
  2:{ intros [k a] acc s' Hin. unfold detect_changed.
      rewrite (DictFacts.elem_get _ _ _ Hwf Hin).
      unfold bind, read_doctor, ret. now rewrite String.eqb_refl. }
  reflexivity.
Qed.

Lemma detect_changes_same_snapshot_empty_witness :
  detect_changes Sample.w (map snd Sample.previous)
    (StateDict (Some Sample.previous) (Some Sample.cache)) Sample.s
  = (Changes [] [] [], Sample.s).
Proof.
  apply (detect_changes_same_snapshot_empty Sample.w Sample.previous
           (Some Sample.cache) Sample.s sample_previous_wf
           sample_previous_keyed).
Defined.

Lemma get_doctor_detail_url_inj k k' :
  get_doctor_detail_url k = get_doctor_detail_url k' -> k = k'.
Proof.
  unfold get_doctor_detail_url.
  generalize "https://servizi.apss.tn.it/ricmedico/medico.php?codMedicoMg=".
  intros p. induction p as [|c p IH]; simpl; [trivial|].
  intros [= H]. auto.
Qed.

(** C5: a removed doctor gets its locations from the cache and nothing is
    fetched for it.  In a store whose references all point to objects, for
    every id [k] of the previous snapshot that is absent from the listing:
    its record is in [removed]; the locations of that record are those of
    the cache entry of [k], or the empty list when the cache has no entry;
    the detail page of [k] is not requested and the cache entry of [k] is
    left as it was.  Every request of the run is for an added or a changed
    id, and the cache is unchanged at every id that is neither added nor
    changed. *)
Theorem detect_changes_removed_reads_cache w current_doctors previous_state s :
  let current := current_ids s current_doctors in
  let previous := previous_ids previous_state in
  store_ok s -> Dict.wf previous -> keyed_by_id s previous ->
  allocated s previous ->
  (forall a, a ∈ current_doctors -> (a < length (doctors s))%nat) ->
  let '(c, s') := detect_changes w current_doctors previous_state s in
  let added_ids := map (id_at s') (added c) in
  let changed_ids := map (id_at s') (map (fun e => fst (fst e)) (changed c)) in
  exists R,
    requests s' = requests s ++ R
    /\ (forall u, u ∈ R ->
          exists k, (k ∈ added_ids \/ k ∈ changed_ids)
                    /\ u = get_doctor_detail_url k)
    /\ (forall k, k ∉ added_ids -> k ∉ changed_ids ->
          location_cache s' !! k = location_cache s !! k)
    /\ (forall k a, (k, a) ∈ previous -> k ∉ Dict.keys current ->
          a ∈ removed c
          /\ list_at s' <$> locations (doctor_at s' a)
             = Some match location_cache s !! k with
                    | Some cached => list_at s (entry_locations cached)
                    | None => []
                    end
          /\ (get_doctor_detail_url k ∉ R)
          /\ location_cache s' !! k = location_cache s !! k).
Proof.
  intros current previous Hok Hwfp Hkp Hap Hcur.
  pose proof (detect_changes_ids w current_doctors previous_state s Hkp) as Hi.
  pose proof (detect_changes_spec w current_doctors previous_state s) as H.
  cbv zeta in H. fold current previous in H, Hi.
  destruct (detect_changes w current_doctors previous_state s) as [c s'].
  destruct Hi as (Ea & _ & Ec). cbv zeta. rewrite Ea, Ec. clear Ea Ec.
  destruct H as (-> & Hev & _ & Hpos).
  destruct (Hpos Hok Hwfp Hkp Hap Hcur) as (_ & _ & Hcc). clear Hpos.
  destruct (ev_requests _ _ _ _ Hev) as (R & HR & HRu).
  assert (Hreq : forall u, u ∈ R ->
            exists k, (k ∈ map fst (added_items current previous)
                       \/ k ∈ map fst (changed_items s current previous))
                      /\ u = get_doctor_detail_url k).
  { intros u Hu. destruct (HRu u Hu) as (k & Hk & ->). exists k.
    split; [|reflexivity]. now apply elem_of_app in Hk. }
  assert (Hframe : forall k, k ∉ map fst (added_items current previous) ->
                             k ∉ map fst (changed_items s current previous) ->
                             location_cache s' !! k = location_cache s !! k).
  { intros k Hna Hnc. apply (ev_cache _ _ _ _ Hev).
    rewrite not_elem_of_app. now split. }
  assert (Hfresh : forall k, k ∉ Dict.keys current ->
                             (k ∉ map fst (added_items current previous))
                             /\ (k ∉ map fst (changed_items s current previous))).
  { intros k Hnc. split; intros Hin; apply Hnc;
      apply elem_map_fst in Hin as (a & Hin);
      apply elem_of_filter_list in Hin as [Hin _];
      now apply (elem_keys _ _ a). }
  exists R. split; [exact HR|]. split; [exact Hreq|]. split; [exact Hframe|].
  intros k a Hin Hnc. destruct (Hfresh k Hnc) as [Hna Hnch].
  assert (Hrem : (k, a) ∈ removed_items current previous)
    by now apply removed_items_spec.
  split; [|split; [|split]].
  - simpl. apply (list_elem_of_fmap_2 snd) in Hrem. exact Hrem.
  - destruct (Hcc k a Hrem) as (l & Hl & Hlt & Hm). rewrite Hl. simpl. f_equal.
    destruct (location_cache s !! k) as [e|] eqn:L.
    + subst l. apply (evolves_list_at _ _ _ _ _ Hev).
      destruct Hok as [Hc _]. apply (Hc k e L).
    + now destruct Hm.
  - intros Hu. destruct (Hreq _ Hu) as (k' & Hk' & E).
    apply get_doctor_detail_url_inj in E. subst k'. tauto.
  - now apply Hframe.
Qed.

(** ** Sharing between the change-set, the snapshot and the cache *)

Lemma dump_changes_stable s s' c :
  doctors s' = doctors s -> (exists L, lists s' = lists s ++ L) ->
  store_ok s -> dump_changes s' c = dump_changes s c.
Proof.
  intros Hd (L & HL) [_ Hl]. unfold dump_changes.
  assert (E : forall a, dump_doctor s' a = dump_doctor s a).
  { intros a. unfold dump_doctor, doctor_at. rewrite Hd.
    fold (doctor_at s a).
    destruct (locations (doctor_at s a)) as [l|] eqn:El; simpl; [|reflexivity].
    do 2 f_equal. unfold list_at. rewrite HL.
    rewrite lookup_app_l by apply (Hl a l El). reflexivity. }
  f_equal.
  - apply map_ext. exact E.
  - apply map_ext. exact E.
  - apply map_ext. intros [[a o] n]. now rewrite E.
Qed.

(** C3, as the code has it: [detect_changes] writes to the doctor dicts of
    the previous snapshot, but only to those of removed ids and only their
    [locations]; the dicts of ids that are still listed are left as they
    were, and no dict changes its id, names or availability.  The location
    list of an added or a changed entry of the change-set is the very list
    object that the cache entry of its id holds, and so is the one of a
    removed entry whose id has a cache entry: the lists are shared, not
    copied.  List objects are never updated in place: storing a cache entry,
    or a later lookup that replaces one, leaves what the change-set shows
    unchanged. *)
Theorem detect_changes_shares_lists w current_doctors previous_state s :
  let current := current_ids s current_doctors in
  let previous := previous_ids previous_state in
  store_ok s -> Dict.wf previous -> keyed_by_id s previous ->
  allocated s previous ->
  (forall a, a ∈ current_doctors -> (a < length (doctors s))%nat) ->
  let '(c, s') := detect_changes w current_doctors previous_state s in
  (forall k a, (k, a) ∈ previous ->
     same_entity (doctor_at s a) (doctor_at s' a)
     /\ (k ∈ Dict.keys current -> doctor_at s' a = doctor_at s a)
     /\ (k ∉ Dict.keys current ->
         a ∈ removed c /\ is_Some (locations (doctor_at s' a))))
  /\ (forall a, a ∈ added c \/ a ∈ map (fun e => fst (fst e)) (changed c) ->
        shares_cached_list s' (id_at s' a) a)
  /\ (forall a cached, a ∈ removed c ->
        location_cache s' !! id_at s' a = Some cached ->
        locations (doctor_at s' a) = Some (entry_locations cached))
  /\ (forall k entry,
        dump_changes (snd (cache_store k entry s')) c = dump_changes s' c)
  /\ (forall k url,
        dump_changes (snd (get_doctor_locations w k url s')) c
        = dump_changes s' c).
Proof.
  intros current previous Hok Hwfp Hkp Hap Hcur.
  pose proof (current_ids_keyed s current_doctors) as Hkc. fold current in Hkc.
  pose proof (detect_changes_spec w current_doctors previous_state s) as H.
  cbv zeta in H. fold current previous in H.
  destruct (detect_changes w current_doctors previous_state s) as [c s'].
  destruct H as (-> & Hev & Hok' & Hpos).
  destruct (Hpos Hok Hwfp Hkp Hap Hcur) as (Hsa & Hsc & Hcc). clear Hpos.
  specialize (Hok' Hok). simpl.
  split; [|split; [|split; [|split]]].
  - intros k a Hin. split; [apply (ev_entity _ _ _ _ Hev)|]. split.
    + intros Hk. apply (ev_frame _ _ _ _ Hev).
      rewrite !not_elem_of_app. split; [|split]; intros Ha;
        apply list_elem_of_fmap in Ha as ([k' a'] & E & Ha); simpl in E;
        subst a'.
      * apply added_items_spec in Ha as [Ha Hnp]. apply Hnp.
        rewrite <- (Hkc _ _ Ha), (Hkp _ _ Hin). now apply (elem_keys _ _ a).
      * apply removed_items_spec in Ha as [Ha Hnc]. apply Hnc.
        now rewrite <- (Hkp _ _ Ha), (Hkp _ _ Hin).
      * apply changed_items_spec in Ha as [Ha (b & Hb & Hne)].
        assert (k' = k) by (now rewrite <- (Hkc _ _ Ha), (Hkp _ _ Hin)).
        subst k'. rewrite (DictFacts.elem_get _ _ _ Hwfp Hin) in Hb.
        injection Hb as <-. now apply Hne.
    + intros Hk.
      assert (Hrem : (k, a) ∈ removed_items current previous)
        by now apply removed_items_spec.
      split.
      * apply (list_elem_of_fmap_2 snd) in Hrem. exact Hrem.
      * destruct (Hcc k a Hrem) as (l & Hl & _). now exists l.
  - intros a [Ha|Ha].
    + apply list_elem_of_fmap in Ha as ([k a'] & -> & Ha). simpl.
      rewrite (evolves_id_at _ _ _ _ _ Hev).
      assert (Hin : (k, a') ∈ current)
        by (apply elem_of_filter_list in Ha; tauto).
      rewrite (Hkc _ _ Hin). now apply Hsa.
    + rewrite (map_map (changed_entry s previous)) in Ha.
      apply list_elem_of_fmap in Ha as ([k a'] & -> & Ha). simpl.
      rewrite (evolves_id_at _ _ _ _ _ Hev).
      assert (Hin : (k, a') ∈ current)
        by (apply elem_of_filter_list in Ha; tauto).
      rewrite (Hkc _ _ Hin). now apply Hsc.
  - intros a cached Ha Hc.
    apply list_elem_of_fmap in Ha as ([k a'] & -> & Ha). simpl in *.
    rewrite (evolves_id_at _ _ _ _ _ Hev) in Hc.
    pose proof Ha as Ha'. apply removed_items_spec in Ha' as [Hin Hnc].
    rewrite (Hkp _ _ Hin) in Hc.
    rewrite (ev_cache _ _ _ _ Hev) in Hc.
    + destruct (Hcc k a' Ha) as (l & Hl & _ & Hm). rewrite Hc in Hm.
      now subst l.
    + rewrite not_elem_of_app. split; intros Hk; apply Hnc;
        apply elem_map_fst in Hk as (b & Hk);
        apply elem_of_filter_list in Hk as [Hk _];
        now apply (elem_keys _ _ b).
  - reflexivity.
  - intros k url.
    apply dump_changes_stable; [| |assumption];
      destruct (get_doctor_locations_cases w k url s')
        as [(e & _ & _ & ->)|(_ & ->)]; simpl; try reflexivity.
    + exists []. now rewrite app_nil_r.
    + eexists. reflexivity.
Qed.

Lemma sample_store_ok : store_ok Sample.s.
Proof.
  split.
  - intros k e H. unfold Sample.s, Sample.cache in H. simpl in H.
    apply lookup_singleton_Some in H as [_ <-]. simpl. lia.
  - intros a l. unfold doctor_at, Sample.s. simpl.
    destruct a as [|[|[|[|a]]]]; simpl; discriminate.
Defined.

Lemma sample_previous_allocated : allocated Sample.s Sample.previous.
Proof.
  intros k a H.
  apply elem_of_cons in H as [[= -> ->]|H]; [simpl; lia|].
  apply list_elem_of_singleton in H as [= -> ->]. simpl. lia.
Defined.

Lemma sample_current_allocated :
  forall a, a ∈ Sample.current_doctors -> (a < length (doctors Sample.s))%nat.
Proof.
  intros a H.
  apply elem_of_cons in H as [->|H]; [simpl; lia|].
  apply list_elem_of_singleton in H as ->. simpl. lia.
Defined.

Lemma detect_changes_shares_lists_witness :
  let '(c, s') :=
    detect_changes Sample.w Sample.current_doctors Sample.previous_state
      Sample.s in
  shares_cached_list s' "A3" 3%nat
  /\ locations (doctor_at s' 1%nat) = Some 0%nat.
Proof.
  pose proof (detect_changes_shares_lists Sample.w Sample.current_doctors
                Sample.previous_state Sample.s sample_store_ok
                sample_previous_wf sample_previous_keyed
                sample_previous_allocated sample_current_allocated) as H.
  destruct (detect_changes Sample.w Sample.current_doctors
              Sample.previous_state Sample.s) as [c s'] eqn:E.
  vm_compute in E. injection E as <- <-.
  destruct H as (_ & H2 & H3 & _). split.
  - apply (H2 3%nat). left. apply list_elem_of_singleton. reflexivity.
  - apply (H3 1%nat (CacheEntry 0%nat 1699999000)).
    + apply list_elem_of_singleton. reflexivity.
    + reflexivity.
Defined.

(** C3 as the specification states it fails: in the sample registry the
    doctor A2 of the previous snapshot, at address 1, has no [locations]
    before the call and has them after it, so its record was written to;
    and the list that the added doctor A3 carries in the change-set is the
    list object of the cache entry of A3, not a copy of it. *)
Lemma detect_changes_writes_previous_and_shares :
  let '(c, s') :=
    detect_changes Sample.w Sample.current_doctors Sample.previous_state
      Sample.s in
  Dict.get "A2" Sample.previous = Some 1%nat
  /\ doctor_at s' 1%nat <> doctor_at Sample.s 1%nat
  /\ added c = [3%nat]
  /\ exists cached,
       location_cache s' !! "A3" = Some cached
       /\ locations (doctor_at s' 3%nat) = Some (entry_locations cached).
Proof.
  destruct (detect_changes Sample.w Sample.current_doctors
              Sample.previous_state Sample.s) as [c s'] eqn:E.
  vm_compute in E. injection E as <- <-.
  split; [reflexivity|]. split; [discriminate|]. split; [reflexivity|].
  eexists. split; reflexivity.
Qed.

Lemma detect_changes_removed_reads_cache_witness :
  let '(c, s') :=
    detect_changes Sample.w Sample.current_doctors Sample.previous_state
      Sample.s in
  list_at s' <$> locations (doctor_at s' 1%nat) = Some ["TRENTO"].
Proof.
  pose proof (detect_changes_removed_reads_cache Sample.w
                Sample.current_doctors Sample.previous_state Sample.s
                sample_store_ok sample_previous_wf sample_previous_keyed
                sample_previous_allocated sample_current_allocated) as H.
  destruct (detect_changes Sample.w Sample.current_doctors
              Sample.previous_state Sample.s) as [c s'].
  destruct H as (R & _ & _ & _ & H).
  assert (Hin : ("A2", 1%nat) ∈ previous_ids Sample.previous_state)
    by (right; left).
  assert (Hnc : "A2" ∉ Dict.keys (current_ids Sample.s Sample.current_doctors)).
  { intros Hk. vm_compute in Hk.
    apply elem_of_cons in Hk as [Hk|Hk]; [discriminate|].
    apply list_elem_of_singleton in Hk. discriminate. }
  destruct (H "A2" 1%nat Hin Hnc) as (_ & Hl & _). exact Hl.
Defined.

(** ** A failing detail page *)

(** C6: a failed detail fetch is absorbed.  When the lookup of an id goes
    to the network and the request fails, [get_doctor_locations] returns a
    list object that is empty and stores it in the cache under the id with
    the timestamp [now]; a later lookup of the id that finds this entry at
    an age below the expiry makes no request and returns the same list; and
    the turn of the first loop of [detect_changes] for such a doctor ends
    normally, with the doctor appended to [added] and carrying the empty
    list. *)
Theorem get_doctor_locations_absorbs_failure w doctor_id detail_url s :
  fresh_entry w s doctor_id = None ->
  detail_page w (length (requests s)) detail_url = DetailRaises ->
  let now := clock w (clock_reads s) in
  let '(fetched, s') := get_doctor_locations w doctor_id detail_url s in
  list_at s' fetched = []
  /\ location_cache s' !! doctor_id = Some (CacheEntry fetched now)
  /\ (forall s2 detail_url2,
        location_cache s2 !! doctor_id = location_cache s' !! doctor_id ->
        clock w (clock_reads s2) - now < cache_expiry_seconds w ->
        let '(locations2, s3) :=
          get_doctor_locations w doctor_id detail_url2 s2 in
        locations2 = fetched /\ requests s3 = requests s2
        /\ location_cache s3 = location_cache s2)
  /\ (forall previous a added,
        Dict.contains doctor_id previous = false ->
        id_at s a = doctor_id ->
        detail_url = get_doctor_detail_url doctor_id ->
        (a < length (doctors s))%nat ->
        let '(added', s'') := detect_added w previous (doctor_id, a) added s in
        added' = added ++ [a]
        /\ list_at s'' <$> locations (doctor_at s'' a) = Some []).
Proof.
  intros Hmiss Hfail now.
  assert (Hs : scraped w s detail_url = [])
    by (unfold scraped; now rewrite Hfail).
  rewrite (get_doctor_locations_miss _ _ _ _ Hmiss).
  split; [|split; [|split]].
  - unfold list_at, after_miss. simpl. rewrite Hs.
    rewrite lookup_app_r by lia. now rewrite Nat.sub_diag.
  - unfold after_miss. simpl. apply lookup_insert_eq.
  - intros s2 url2 Hc Hage.
    unfold after_miss in Hc. simpl in Hc. rewrite lookup_insert_eq in Hc.
    assert (Hf : fresh_entry w s2 doctor_id
                 = Some (CacheEntry (length (lists s)) now)).
    { unfold fresh_entry. rewrite Hc. simpl.
      assert (Hb : (clock w (clock_reads s2) - clock w (clock_reads s)
                    <? cache_expiry_seconds w) = true)
        by (apply Z.ltb_lt; exact Hage).
      now rewrite Hb. }
    rewrite (get_doctor_locations_hit _ _ _ _ _ Hf). simpl. repeat split.
  - intros previous a added Hc Hid -> Hlt.
    unfold detect_added. rewrite Hc. simpl.
    unfold bind, read_doctor, ret. fold (id_at s a). rewrite Hid.
    rewrite (get_doctor_locations_miss _ _ _ _ Hmiss).
    destruct (set_locations a (length (lists s))
                (after_miss w s doctor_id (get_doctor_detail_url doctor_id)))
      as [[] s2] eqn:E2.
    assert (E2' : s2 = snd (set_locations a (length (lists s))
                (after_miss w s doctor_id (get_doctor_detail_url doctor_id))))
      by now rewrite E2.
    split; [reflexivity|]. subst s2.
    rewrite set_locations_read by exact Hlt. simpl. f_equal.
    unfold list_at. simpl. rewrite Hs.
    rewrite lookup_app_r by lia. now rewrite Nat.sub_diag.
Qed.

Lemma get_doctor_locations_absorbs_failure_witness :
  let '(locations, s') :=
    get_doctor_locations Sample.w_down "A3" (get_doctor_detail_url "A3")
      Sample.s in
  list_at s' locations = []
  /\ location_cache s' !! "A3" = Some (CacheEntry locations 1700000000).
Proof.
  pose proof (get_doctor_locations_absorbs_failure Sample.w_down "A3"
                (get_doctor_detail_url "A3") Sample.s eq_refl eq_refl) as H.
  cbv zeta in H.
  destruct (get_doctor_locations Sample.w_down "A3"
              (get_doctor_detail_url "A3") Sample.s) as [l s'].
  destruct H as (H1 & H2 & _). split; [exact H1 | exact H2].
Defined.

(** ** The run *)

Lemma allocates_refl s : allocates s s.
Proof.
  split; try reflexivity; exists []; now rewrite app_nil_r.
Qed.

Lemma allocates_trans s1 s2 s3 :
  allocates s1 s2 -> allocates s2 s3 -> allocates s1 s3.
Proof.
  intros [(L & HL) (D & HD) ? ? ? ?] [(L' & HL') (D' & HD') ? ? ? ?].
  split; try congruence.
  - exists (L ++ L'). rewrite HL', HL. now rewrite app_assoc.
  - exists (D ++ D'). rewrite HD', HD. now rewrite app_assoc.
Qed.

Lemma new_list_allocates l s : allocates s (snd (new_list l s)).
Proof.
  split; simpl; try reflexivity.
  - eexists. reflexivity.
  - exists []. now rewrite app_nil_r.
Qed.

Lemma new_doctor_allocates d s : allocates s (snd (new_doctor d s)).
Proof.
  split; simpl; try reflexivity.
  - exists []. now rewrite app_nil_r.
  - eexists. reflexivity.
Qed.

Lemma for_each_allocates {A B : Type} (body : A -> B -> M B) (xs : list A) :
  (forall x acc s, allocates s (snd (body x acc s))) ->
  forall acc s, allocates s (snd (for_each xs body acc s)).
Proof.
  intros H. induction xs as [|x xs IH]; intros acc s; simpl.
  - apply allocates_refl.
  - unfold bind. pose proof (H x acc s) as H1.
    destruct (body x acc s) as [acc' s']. simpl in H1.
    apply (allocates_trans _ _ _ H1). apply IH.
Qed.

Lemma load_doctor_allocates r s : allocates s (snd (load_doctor r s)).
Proof.
  unfold load_doctor, bind, ret. destruct (rec_locations r) as [ls|].
  - pose proof (new_list_allocates ls s) as H1.
    destruct (new_list ls s) as [a s1]. simpl in *.
    apply (allocates_trans _ _ _ H1). apply new_doctor_allocates.
  - apply new_doctor_allocates.
Qed.

Lemma load_doctors_allocates items s :
  allocates s (snd (load_doctors items s)).
Proof.
  unfold load_doctors. apply for_each_allocates.
  intros [k r] acc s0. unfold bind, ret.
  pose proof (load_doctor_allocates r s0) as H.
  now destruct (load_doctor r s0).
Qed.

Lemma load_cache_allocates m s : allocates s (snd (load_cache m s)).
Proof.
  unfold load_cache. apply for_each_allocates.
  intros [k [ls t]] acc s0. unfold bind, ret. apply new_list_allocates.
Qed.

Lemma load_option_allocates {A B : Type} (f : A -> M B) (o : option A) s :
  (forall x s0, allocates s0 (snd (f x s0))) ->
  allocates s (snd (load_option f o s)).
Proof.
  intros H. unfold load_option, bind, ret. destruct o as [x|].
  - specialize (H x s). now destruct (f x s).
  - apply allocates_refl.
Qed.

Lemma load_state_allocates s : allocates s (snd (load_state s)).
Proof.
  unfold load_state, bind, read_file, ret.
  destruct (state_file s) as [[|d]|]; simpl; try apply allocates_refl.
  pose proof (load_option_allocates load_doctors (doc_doctors d) s
                load_doctors_allocates) as H1.
  destruct (load_option load_doctors (doc_doctors d) s) as [ds s1].
  pose proof (load_option_allocates load_cache (doc_location_cache d) s1
                load_cache_allocates) as H2.
  destruct (load_option load_cache (doc_location_cache d) s1) as [c s2].
  simpl in *. apply (allocates_trans _ _ _ H1 H2).
Qed.

Lemma load_state_absent s :
  state_file s = None \/ state_file s = Some Unparsable ->
  load_state s = (empty_state, s).
Proof.
  unfold load_state, bind, read_file, ret. now intros [-> | ->].
Qed.

Lemma scrape_rows rows : forall acc s,
  for_each rows
    (fun r doctors =>
       bind (new_doctor (Doctor (row_id r) (row_first_name r) (row_last_name r)
                                (row_availability r) None))
            (fun a => ret (doctors ++ [a]))) acc s
  = (acc ++ seq (length (doctors s)) (length rows),
     with_doctors s (doctors s ++ map doctor_of_row rows)).
Proof.
  induction rows as [|r rows IH]; intros acc s; simpl.
  - rewrite !app_nil_r. now destruct s.
  - unfold bind at 1. unfold new_doctor at 1, ret at 1, bind at 1.
    rewrite IH. simpl. rewrite length_app. simpl.
    rewrite <- !app_assoc. simpl.
    replace (length (doctors s) + 1)%nat with (S (length (doctors s))) by lia.
    reflexivity.
Qed.

Lemma scrape_doctor_list_listing w url rows s :
  get_search_url w = inr url -> listing_page w url = Listing rows ->
  scrape_doctor_list w s
  = (inr (seq (length (doctors s)) (length rows)),
     with_doctors s (doctors s ++ map doctor_of_row rows)).
Proof.
  intros Hu Hl. unfold scrape_doctor_list. rewrite Hu, Hl.
  unfold bind at 1. rewrite scrape_rows. reflexivity.
Qed.

Lemma configured_no_missing w :
  configured w ->
  filter (fun v => unset v = true)
    [BOT_TOKEN (environ w); CHANNEL_ID (environ w); SEARCH_MODE (environ w)]
  = [].
Proof.
  intros (H1 & H2 & H3).
  rewrite !filter_cons, filter_nil. repeat case_decide; congruence.
Qed.

(** C8: an empty listing aborts the run and writes nothing.  In every
    world whose listing has no rows and from every store, bootstrap or
    steady, [main] ends with a non-zero exit status and the state file is
    what it was before the run. *)
Theorem main_empty_listing_writes_nothing w s :
  (forall url, get_search_url w = inr url -> listing_page w url = Listing []) ->
  let '(o, s') := main w s in
  exit_status o <> 0 /\ state_file s' = state_file s.
Proof.
  intros Hempty. unfold main.
  destruct (filter _ _) as [|v vs]; [|split; [discriminate|reflexivity]].
  destruct (get_search_url w) as [e|url] eqn:Hu;
    [split; [discriminate|reflexivity]|].
  unfold bind at 1. unfold path_exists at 1.
  unfold bind at 1.
  pose proof (load_state_allocates s) as Hal.
  destruct (load_state s) as [st s1]. simpl in Hal.
  unfold bind at 1.
  rewrite (scrape_doctor_list_listing w url [] s1 Hu (Hempty url eq_refl)).
  simpl. split; [discriminate|]. apply (al_file _ _ Hal).
Qed.

Lemma main_empty_listing_writes_nothing_witness :
  let '(o, s') := main Sample.w_empty Sample.steady in
  exit_status o <> 0 /\ state_file s' = state_file Sample.steady.
Proof.
  apply (main_empty_listing_writes_nothing Sample.w_empty Sample.steady).
  intros url _. reflexivity.
Defined.

Lemma map_dump_set {A B : Type} (g : A -> B) k v (d : list (string * A)) :
  map (fun '(k, a) => (k, g a)) (Dict.set k v d)
  = Dict.set k (g v) (map (fun '(k, a) => (k, g a)) d).
Proof.
  induction d as [|[k0 v0] d IH]; simpl; [reflexivity|].
  destruct (String.eqb k k0); simpl; [reflexivity|]. now rewrite IH.
Qed.

Lemma doctor_at_scraped s rows i r :
  rows !! i = Some r ->
  doctor_at (with_doctors s (doctors s ++ map doctor_of_row rows))
            (length (doctors s) + i)%nat
  = doctor_of_row r.
Proof.
  intros H. unfold doctor_at. simpl.
  rewrite lookup_app_r by lia.
  replace (length (doctors s) + i - length (doctors s))%nat with i by lia.
  rewrite list_lookup_fmap, H. reflexivity.
Qed.

(** The dict of the new doctors, written out, is the dict of their rows. *)
Lemma dump_ids_rows s1 : forall rows n d0,
  (forall i r, rows !! i = Some r ->
               doctor_at s1 (n + i)%nat = doctor_of_row r) ->
  map (fun '(k, a) => (k, dump_doctor s1 a))
      (fold_left (fun d a => Dict.set (doctor_id (doctor_at s1 a)) a d)
                 (seq n (length rows)) d0)
  = fold_left (fun d r => Dict.set (row_id r) (record_of_row r) d) rows
              (map (fun '(k, a) => (k, dump_doctor s1 a)) d0).
Proof.
  induction rows as [|r rows IH]; intros n d0 H; simpl; [reflexivity|].
  assert (H0 : doctor_at s1 n = doctor_of_row r).
  { rewrite <- (H 0%nat r eq_refl). f_equal. lia. }
  rewrite IH.
  - assert (Hd : dump_doctor s1 n = record_of_row r)
      by (unfold dump_doctor; now rewrite H0).
    rewrite map_dump_set, H0, Hd. reflexivity.
  - intros i r' Hi. rewrite <- (H (S i) r' Hi). f_equal. lia.
Qed.

(** C7: the first run seeds the state without notifying.  With no state
    file, the required variables set, a search URL and a listing of at
    least one row, [main] returns 0 (exit status 0), writes a state file
    whose doctors are exactly the listed rows keyed by id (the last row of
    an id, none with locations) and whose cache is empty, calls Telegram
    not at all and requests no detail page. *)
Theorem main_first_run_seeds_state w s url rows :
  state_file s = None -> configured w ->
  get_search_url w = inr url -> listing_page w url = Listing rows ->
  rows <> [] ->
  let '(o, s') := main w s in
  o = Returns 0
  /\ exit_status o = 0
  /\ state_file s'
     = Some (Json (Document
                     (Some (Dict.comprehension row_id record_of_row rows))
                     (Some ∅)))
  /\ sent s' = sent s
  /\ requests s' = requests s
  /\ clock_reads s' = clock_reads s.
Proof.
  intros Hfile Hconf Hu Hl Hrows. unfold main.
  rewrite (configured_no_missing w Hconf), Hu.
  unfold bind at 1. unfold path_exists at 1. rewrite Hfile.
  unfold bind at 1. rewrite (load_state_absent s) by now left.
  unfold bind at 1. rewrite (scrape_doctor_list_listing w url rows s Hu Hl).
  destruct rows as [|r rows]; [contradiction|].
  set (s1 := with_doctors s (doctors s ++ map doctor_of_row (r :: rows))).
  change (seq (length (doctors s)) (length (r :: rows)))
    with (length (doctors s) :: seq (S (length (doctors s))) (length rows)).
  cbv beta iota. simpl negb. cbv iota.
  unfold bind, ids_of, save_state, ret. simpl.
  repeat split. unfold dump_state. cbn [sd_doctors sd_location_cache].
  rewrite fmap_empty.
  pose proof (dump_ids_rows s1 (r :: rows) (length (doctors s)) []) as H.
  unfold Dict.comprehension.
  change (length (doctors s) :: seq (S (length (doctors s))) (length rows))
    with (seq (length (doctors s)) (length (r :: rows))).
  rewrite H; [reflexivity|].
  intros i r' Hi. apply (doctor_at_scraped s (r :: rows) i r' Hi).
Qed.

Lemma main_first_run_seeds_state_witness :
  let '(o, s') := main Sample.w Sample.first in
  o = Returns 0
  /\ state_file s'
     = Some (Json (Document
                     (Some [("A1", DoctorRecord "A1" "Anna" "Rossi" "available"
                                                 None);
                            ("A3", DoctorRecord "A3" "Carla" "Verdi" "available"
                                                 None)])
                     (Some ∅)))
  /\ sent s' = [] /\ requests s' = [].
Proof.
  assert (Hc : configured Sample.w) by (repeat split).
  assert (Hr : Sample.rows <> []) by discriminate.
  pose proof (main_first_run_seeds_state Sample.w Sample.first _ Sample.rows
                eq_refl Hc eq_refl eq_refl Hr) as H.
  destruct (main Sample.w Sample.first) as [o s'].
  destruct H as (H1 & _ & H3 & H4 & H5 & _).
  split; [exact H1|]. split; [exact H3|]. split; [exact H4 | exact H5].
Defined.

(** The run when a state file exists and the listing has rows, step by
    step. *)
Lemma main_steady w s f url rows :
  state_file s = Some f -> configured w ->
  get_search_url w = inr url -> listing_page w url = Listing rows ->
  rows <> [] ->
  main w s
  = let '(state, s1) := load_state s in
    let current_doctors := seq (length (doctors s1)) (length rows) in
    let s2 := with_doctors s1 (doctors s1 ++ map doctor_of_row rows) in
    let s3 := with_location_cache s2 (default ∅ (sd_location_cache state)) in
    let '(c, s4) := detect_changes w current_doctors state s3 in
    let new_state :=
      StateDict (Some (current_ids s4 current_doctors))
                (Some (location_cache s4)) in
    if (0 <? length (added c) + length (removed c) + length (changed c))%nat
    then
      let n := Notification (BOT_TOKEN (environ w)) (CHANNEL_ID (environ w))
                            (dump_changes s4 c) url in
      let s5 := with_sent s4 (sent s4 ++ [n]) in
      if telegram w n
      then (Returns 0,
            with_state_file s5 (Some (Json (dump_state s5 new_state))))
      else (Raises TelegramError, s5)
    else (Returns 0,
          with_state_file s4 (Some (Json (dump_state s4 new_state)))).
Proof.
  intros Hfile Hconf Hu Hl Hrows. unfold main.
  rewrite (configured_no_missing w Hconf), Hu.
  unfold bind at 1. unfold path_exists at 1. rewrite Hfile.
  unfold bind at 1. destruct (load_state s) as [state s1].
  unfold bind at 1. rewrite (scrape_doctor_list_listing w url rows s1 Hu Hl).
  destruct rows as [|r rows]; [contradiction|].
  change (seq (length (doctors s1)) (length (r :: rows)))
    with (length (doctors s1) :: seq (S (length (doctors s1))) (length rows)).
  cbv beta iota.
  replace (negb (bool_decide (is_Some (Some f)))) with false
    by (symmetry; apply negb_false_iff, bool_decide_eq_true_2; eauto).
  cbv iota. unfold bind at 1. unfold set_cache at 1.
  unfold bind at 1.
  destruct (detect_changes w _ state _) as [c s4].
  unfold bind at 1. unfold ids_of at 1. unfold bind at 1. unfold get_cache at 1.
  unfold bind at 1.
  destruct (0 <? _)%nat.
  - unfold post_to_telegram. rewrite Hu.
    destruct (telegram w _); reflexivity.
  - reflexivity.
Qed.


Lemma contains_same_keys {V V' : Type} (d : list (string * V))
    (d' : list (string * V')) k :
  Dict.keys d = Dict.keys d' -> Dict.contains k d = Dict.contains k d'.
Proof.
  intros E. destruct (Dict.contains k d) eqn:H; symmetry.
  - apply DictFacts.contains_keys. rewrite <- E.
    now apply DictFacts.contains_keys.
  - apply DictFacts.contains_false_keys. rewrite <- E.
    now apply DictFacts.contains_false_keys.
Qed.

Lemma fold_set_same_keys {A A' V V' : Type}
    (key : A -> string) (val : A -> V) (key' : A' -> string) (val' : A' -> V') :
  forall xs xs' d d',
    map key xs = map key' xs' -> Dict.keys d = Dict.keys d' ->
    Dict.keys (fold_left (fun d x => Dict.set (key x) (val x) d) xs d)
    = Dict.keys (fold_left (fun d x => Dict.set (key' x) (val' x) d) xs' d').
Proof.
  induction xs as [|x xs IH]; intros [|x' xs'] d d' E Ed; simpl in *;
    try discriminate; [assumption|].
  injection E as Ex E. apply IH; [assumption|].
  rewrite !DictFacts.keys_set, <- Ex.
  rewrite (contains_same_keys d d' (key x) Ed). now rewrite Ed.
Qed.

Lemma map_id_at_rows s : forall rows n,
  (forall i r, rows !! i = Some r -> id_at s (n + i)%nat = row_id r) ->
  map (id_at s) (seq n (length rows)) = map row_id rows.
Proof.
  induction rows as [|r rows IH]; intros n H; simpl; [reflexivity|]. f_equal.
  - rewrite <- (H 0%nat r eq_refl). f_equal. lia.
  - apply IH. intros i r' Hi. rewrite <- (H (S i) r' Hi). f_equal. lia.
Qed.


(** What the diff of a steady run leaves in place: the ids of the new
    doctors, the state file and the log of messages. *)
Lemma steady_diff_frame w s1 rows cache st :
  let current_doctors := seq (length (doctors s1)) (length rows) in
  let s3 := with_location_cache
              (with_doctors s1 (doctors s1 ++ map doctor_of_row rows)) cache in
  let '(c, s4) := detect_changes w current_doctors st s3 in
  Dict.keys (current_ids s4 current_doctors) = listed_ids rows
  /\ state_file s4 = state_file s1
  /\ sent s4 = sent s1.
Proof.
  intros cur s3.
  pose proof (detect_changes_spec w cur st s3) as H. cbv zeta in H.
  destruct (detect_changes w cur st s3) as [c s4].
  destruct H as (_ & Hev & _).
  split; [|split].
  - unfold listed_ids, current_ids, ids_of, Dict.comprehension. simpl.
    apply fold_set_same_keys; [|reflexivity].
    apply (map_id_at_rows s4). intros i r Hi.
    rewrite (evolves_id_at _ _ _ _ _ Hev). unfold id_at.
    change (doctor_at s3 (length (doctors s1) + i)%nat)
      with (doctor_at (with_doctors s1 (doctors s1 ++ map doctor_of_row rows))
              (length (doctors s1) + i)%nat).
    now rewrite (doctor_at_scraped s1 rows i r Hi).
  - now rewrite (ev_file _ _ _ _ Hev).
  - now rewrite (ev_sent _ _ _ _ Hev).
Qed.




(** ** An unreadable state file *)




(** * Further properties of the program *)

(** ** How a run can end *)

Lemma no_missing_configured w :
  filter (fun v => unset v = true)
    [BOT_TOKEN (environ w); CHANNEL_ID (environ w); SEARCH_MODE (environ w)]
  = [] ->
  configured w.
Proof.
  unfold configured. rewrite !filter_cons, filter_nil.
  repeat case_decide; try discriminate; intros _;
    repeat split; now apply not_true_is_false.
Qed.

Lemma main_not_configured w s : ~ configured w -> main w s = (Returns 1, s).
Proof.
  intros H. unfold main.
  destruct (filter _ _) eqn:E; [|reflexivity].
  destruct H. now apply no_missing_configured.
Qed.

Lemma main_bad_url w s e :
  configured w -> get_search_url w = inl e -> main w s = (Raises e, s).
Proof.
  intros Hc Hu. unfold main. now rewrite (configured_no_missing w Hc), Hu.
Qed.

Lemma main_listing_raises w s url e :
  configured w -> get_search_url w = inr url ->
  listing_page w url = ListingRaises e ->
  main w s = (Raises e, snd (load_state s)).
Proof.
  intros Hc Hu Hl. unfold main. rewrite (configured_no_missing w Hc), Hu.
  unfold bind at 1. unfold path_exists at 1. unfold bind at 1.
  destruct (load_state s) as [st s1]. unfold bind at 1.
  unfold scrape_doctor_list. now rewrite Hu, Hl.
Qed.

Lemma main_listing_empty w s url :
  configured w -> get_search_url w = inr url ->
  listing_page w url = Listing [] ->
  main w s = (Returns 1, snd (load_state s)).
Proof.
  intros Hc Hu Hl. unfold main. rewrite (configured_no_missing w Hc), Hu.
  unfold bind at 1. unfold path_exists at 1. unfold bind at 1.
  destruct (load_state s) as [st s1]. unfold bind at 1.
  rewrite (scrape_doctor_list_listing w url [] s1 Hu Hl).
  cbn [map length seq snd]. rewrite app_nil_r. now destruct s1.
Qed.

Lemma main_first_run w s url rows :
  state_file s = None -> configured w ->
  get_search_url w = inr url -> listing_page w url = Listing rows ->
  rows <> [] ->
  main w s
  = let current_doctors := seq (length (doctors s)) (length rows) in
    let s2 := with_doctors s (doctors s ++ map doctor_of_row rows) in
    (Returns 0,
     with_state_file s2
       (Some (Json (dump_state s2
                      (StateDict (Some (current_ids s2 current_doctors))
                                 (Some ∅)))))).
Proof.
  intros Hfile Hconf Hu Hl Hrows. unfold main.
  rewrite (configured_no_missing w Hconf), Hu.
  unfold bind at 1. unfold path_exists at 1. rewrite Hfile.
  unfold bind at 1. rewrite (load_state_absent s) by now left.
  unfold bind at 1. rewrite (scrape_doctor_list_listing w url rows s Hu Hl).
  destruct rows as [|r rows]; [contradiction|]. reflexivity.
Qed.

Lemma configured_dec w : {configured w} + {~ configured w}.
Proof.
  unfold configured.
  destruct (unset (BOT_TOKEN (environ w)));
    destruct (unset (CHANNEL_ID (environ w)));
    destruct (unset (SEARCH_MODE (environ w)));
    first [left; now repeat split | right; intros (? & ? & ?); discriminate].
Qed.

(** X1: a run that fails leaves the state file alone.  For every world and
    every store: when [main] ends with a non-zero exit status the state
    file is what it was before the run, and when it ends with status 0 a
    state file with a document exists. *)
Theorem main_failure_keeps_state_file w s :
  let '(o, s') := main w s in
  (exit_status o <> 0 -> state_file s' = state_file s)
  /\ (exit_status o = 0 -> exists doc, state_file s' = Some (Json doc)).
Proof.
  destruct (configured_dec w) as [Hc|Hc];
    [|rewrite (main_not_configured w s Hc); split;
      [reflexivity | discriminate]].
  destruct (get_search_url w) as [e|url] eqn:Hu;
    [rewrite (main_bad_url w s e Hc Hu); split;
     [reflexivity | discriminate]|].
  pose proof (load_state_allocates s) as Hal.
  destruct (listing_page w url) as [e|rows] eqn:Hl.
  { rewrite (main_listing_raises w s url e Hc Hu Hl).
    split; [intros _; apply (al_file _ _ Hal) | discriminate]. }
  destruct rows as [|r rows].
  { rewrite (main_listing_empty w s url Hc Hu Hl).
    split; [intros _; apply (al_file _ _ Hal) | discriminate]. }
  destruct (state_file s) as [f|] eqn:Hfile.
  - rewrite (main_steady w s f url (r :: rows) Hfile Hc Hu Hl)
      by discriminate.
    destruct (load_state s) as [st s1]. simpl in Hal.
    pose proof (steady_diff_frame w s1 (r :: rows)
                  (default ∅ (sd_location_cache st)) st) as Hfr.
    cbv zeta in Hfr |- *.
    destruct (detect_changes w _ st _) as [c s4].
    destruct Hfr as (_ & Hfile4 & _). rewrite (al_file _ _ Hal) in Hfile4.
    destruct (0 <? _)%nat; [destruct (telegram w _)|]; simpl.
    + split; [intros H; now destruct H | intros _; eexists; reflexivity].
    + split; [intros _; now rewrite Hfile4, Hfile | discriminate].
    + split; [intros H; now destruct H | intros _; eexists; reflexivity].
  - rewrite (main_first_run w s url (r :: rows) Hfile Hc Hu Hl)
      by discriminate.
    cbv zeta. simpl.
    split; [intros H; now destruct H | intros _; eexists; reflexivity].
Qed.

(** X2: a run with a bad configuration stops at once.  When one of
    BOT_TOKEN, CHANNEL_ID and SEARCH_MODE is unset or empty, or the search
    URL cannot be built, [main] ends with exit status 1 and the store is
    the one it started from: nothing was read, requested, sent or written. *)
Theorem main_bad_configuration_touches_nothing w s :
  ~ configured w \/ (exists e, get_search_url w = inl e) ->
  let '(o, s') := main w s in
  exit_status o = 1 /\ s' = s.
Proof.
  intros H. destruct (configured_dec w) as [Hc|Hc].
  - destruct H as [H|(e & Hu)]; [contradiction|].
    rewrite (main_bad_url w s e Hc Hu). now split.
  - rewrite (main_not_configured w s Hc). now split.
Qed.

Lemma main_bad_configuration_touches_nothing_witness :
  let '(o, s') := main Scenario.w_no_token Sample.steady in
  exit_status o = 1 /\ s' = Sample.steady.
Proof.
  apply (main_bad_configuration_touches_nothing Scenario.w_no_token
           Sample.steady).
  left. intros (H & _). discriminate.
Defined.

(** X3: a failing listing request ends the run with that error.  When the
    configuration is good and [scrape_doctor_list] raises, [main] ends with
    the same exception, and neither the state file, nor the log of detail
    requests, nor the log of Telegram calls has changed. *)
Theorem main_listing_error_propagates w s url e :
  configured w -> get_search_url w = inr url ->
  listing_page w url = ListingRaises e ->
  let '(o, s') := main w s in
  o = Raises e /\ state_file s' = state_file s
  /\ requests s' = requests s /\ sent s' = sent s.
Proof.
  intros Hc Hu Hl. rewrite (main_listing_raises w s url e Hc Hu Hl).
  pose proof (load_state_allocates s) as Hal.
  split; [reflexivity|]. split; [apply (al_file _ _ Hal)|].
  split; [apply (al_requests _ _ Hal) | apply (al_sent _ _ Hal)].
Qed.

Lemma main_listing_error_propagates_witness :
  let '(o, s') := main Scenario.w_offline Sample.steady in
  o = Raises RequestException /\ state_file s' = state_file Sample.steady
  /\ requests s' = requests Sample.steady /\ sent s' = sent Sample.steady.
Proof.
  assert (Hc : configured Scenario.w_offline) by (repeat split).
  apply (main_listing_error_propagates Scenario.w_offline Sample.steady _
           RequestException Hc eq_refl eq_refl).
Defined.

(** X4: a run calls Telegram at most once, and never on a first run.  For
    every world and store the log of Telegram calls after [main] is the log
    before it, or that log with one more message; in the second case a
    state file existed before the run, the message carries a change-set
    that is not empty, and it goes to CHANNEL_ID with the token BOT_TOKEN
    and a button for the search URL. *)
Theorem main_calls_telegram_at_most_once w s :
  let '(o, s') := main w s in
  sent s' = sent s
  \/ exists n,
       sent s' = sent s ++ [n]
       /\ is_Some (state_file s)
       /\ (0 < length (rep_added (text_of n)) + length (rep_removed (text_of n))
               + length (rep_changed (text_of n)))%nat
       /\ bot_token n = BOT_TOKEN (environ w)
       /\ chat_id n = CHANNEL_ID (environ w)
       /\ get_search_url w = inr (button_url n).
Proof.
  destruct (configured_dec w) as [Hc|Hc];
    [|rewrite (main_not_configured w s Hc); now left].
  destruct (get_search_url w) as [e|url] eqn:Hu;
    [rewrite (main_bad_url w s e Hc Hu); now left|].
  pose proof (load_state_allocates s) as Hal.
  destruct (listing_page w url) as [e|rows] eqn:Hl.
  { rewrite (main_listing_raises w s url e Hc Hu Hl). left.
    apply (al_sent _ _ Hal). }
  destruct rows as [|r rows].
  { rewrite (main_listing_empty w s url Hc Hu Hl). left.
    apply (al_sent _ _ Hal). }
  destruct (state_file s) as [f|] eqn:Hfile.
  - rewrite (main_steady w s f url (r :: rows) Hfile Hc Hu Hl)
      by discriminate.
    destruct (load_state s) as [st s1]. simpl in Hal.
    pose proof (steady_diff_frame w s1 (r :: rows)
                  (default ∅ (sd_location_cache st)) st) as Hfr.
    cbv zeta in Hfr |- *.
    destruct (detect_changes w _ st _) as [c s4].
    destruct Hfr as (_ & _ & Hsent4). rewrite (al_sent _ _ Hal) in Hsent4.
    destruct (0 <? _)%nat eqn:Htotal; [|left; exact Hsent4].
    apply Nat.ltb_lt in Htotal.
    set (n0 := Notification (BOT_TOKEN (environ w)) (CHANNEL_ID (environ w))
                            (dump_changes s4 c) url).
    assert (Hlen : (0 < length (rep_added (text_of n0))
                        + length (rep_removed (text_of n0))
                        + length (rep_changed (text_of n0)))%nat)
      by (simpl; now rewrite !length_map).
    destruct (telegram w n0); cbv iota beta;
      cbn [sent with_sent with_state_file]; rewrite Hsent4;
      right; exists n0; repeat split; eauto.
  - rewrite (main_first_run w s url (r :: rows) Hfile Hc Hu Hl)
      by discriminate.
    now left.
Qed.

(** ** What the lookups cost *)

Lemma lookup_cost_refl s : lookup_cost s s 0.
Proof. exists 0%nat. repeat split; simpl; lia. Qed.

Lemma lookup_cost_trans s1 s2 s3 a b :
  lookup_cost s1 s2 a -> lookup_cost s2 s3 b -> lookup_cost s1 s3 (a + b).
Proof.
  intros (n & Hn & Hr & Hs & Hc) (m & Hm & Hr' & Hs' & Hc').
  exists (n + m)%nat. repeat split; lia.
Qed.

Lemma get_doctor_locations_cost w k url s :
  lookup_cost s (snd (get_doctor_locations w k url s)) 1.
Proof.
  destruct (get_doctor_locations_cases w k url s)
    as [(e & _ & _ & ->)|(_ & ->)]; simpl.
  - exists 0%nat. repeat split; simpl; lia.
  - exists 1%nat. repeat split; simpl; try lia. rewrite length_app. simpl. lia.
Qed.

Lemma detect_added_cost w previous it acc s :
  let '(acc', s') := detect_added w previous it acc s in
  exists d, length acc' = (length acc + d)%nat /\ lookup_cost s s' d.
Proof.
  destruct it as [k a]. unfold detect_added.
  destruct (Dict.contains k previous); simpl.
  - exists 0%nat. split; [lia | apply lookup_cost_refl].
  - unfold bind, read_doctor, ret.
    pose proof (get_doctor_locations_cost w (doctor_id (doctor_at s a))
                  (get_doctor_detail_url (doctor_id (doctor_at s a))) s) as H.
    destruct (get_doctor_locations w _ _ s) as [l s1]. simpl in *.
    exists 1%nat. split; [rewrite length_app; simpl; lia | exact H].
Qed.

Lemma detect_removed_cost current it acc s :
  lookup_cost s (snd (detect_removed current it acc s)) 0.
Proof.
  destruct it as [k a]. unfold detect_removed.
  destruct (Dict.contains k current); simpl; [apply lookup_cost_refl|].
  unfold bind, cache_lookup, ret.
  destruct (location_cache s !! k); simpl;
    exists 0%nat; repeat split; simpl; lia.
Qed.

Lemma detect_changed_cost w previous it acc s :
  let '(acc', s') := detect_changed w previous it acc s in
  exists d, length acc' = (length acc + d)%nat /\ lookup_cost s s' d.
Proof.
  destruct it as [k a]. unfold detect_changed.
  destruct (Dict.get k previous) as [b|];
    [|exists 0%nat; split; [simpl; lia | apply lookup_cost_refl]].
  unfold bind, read_doctor, ret.
  destruct (negb _);
    [|exists 0%nat; split; [simpl; lia | apply lookup_cost_refl]].
  pose proof (get_doctor_locations_cost w (doctor_id (doctor_at s a))
                (get_doctor_detail_url (doctor_id (doctor_at s a))) s) as H.
  destruct (get_doctor_locations w _ _ s) as [l s1]. simpl in *.
  exists 1%nat. split; [rewrite length_app; simpl; lia | exact H].
Qed.

Lemma for_each_rel {A B : Type} (R : state -> state -> Prop)
    (body : A -> B -> M B) (xs : list A) :
  (forall s, R s s) ->
  (forall s1 s2 s3, R s1 s2 -> R s2 s3 -> R s1 s3) ->
  (forall x acc s, R s (snd (body x acc s))) ->
  forall acc s, R s (snd (for_each xs body acc s)).
Proof.
  intros Hrefl Htrans H. induction xs as [|x xs IH]; intros acc s; simpl.
  - apply Hrefl.
  - unfold bind. pose proof (H x acc s) as H1.
    destruct (body x acc s) as [acc' s']. simpl in H1.
    apply (Htrans _ _ _ H1). apply IH.
Qed.

Lemma for_each_cost {A B : Type} (body : A -> list B -> M (list B))
    (xs : list A) s :
  (forall x acc s0,
      let '(acc', s') := body x acc s0 in
      exists d, length acc' = (length acc + d)%nat /\ lookup_cost s0 s' d) ->
  let '(acc, s') := for_each xs body [] s in
  lookup_cost s s' (length acc).
Proof.
  intros Hbody.
  pose (I := fun (done : list A) (acc : list B) (s1 : state) =>
               lookup_cost s s1 (length acc)).
  pose proof (for_each_invariant I body xs [] s) as H.
  destruct (for_each xs body [] s) as [acc s'].
  apply H; unfold I.
  - apply lookup_cost_refl.
  - intros done x rest acc0 s0 _ HI. specialize (Hbody x acc0 s0).
    destruct (body x acc0 s0) as [acc' s1]. simpl.
    destruct Hbody as (d & -> & Hd). apply (lookup_cost_trans _ _ _ _ _ HI Hd).
Qed.

(** X5: the diff paces its requests.  In every world, [detect_changes]
    reads the clock once for each doctor that ends up in [added] or
    [changed] (one cache lookup each) and for no other; it makes at most
    one detail request per lookup; and it sleeps one second for each
    request it makes. *)
Theorem detect_changes_paces_requests w current_doctors previous_state s :
  let '(c, s') := detect_changes w current_doctors previous_state s in
  let lookups := (length (added c) + length (changed c))%nat in
  clock_reads s' = (clock_reads s + lookups)%nat
  /\ exists n : nat,
       (n <= lookups)%nat
       /\ length (requests s') = (length (requests s) + n)%nat
       /\ slept s' = slept s + Z.of_nat n.
Proof.
  unfold detect_changes, bind, ret.
  destruct (ids_of current_doctors s) as [current s0] eqn:E0.
  assert (s0 = s) by (unfold ids_of in E0; congruence). subst s0.
  set (previous := default [] (sd_doctors previous_state)).
  pose proof (for_each_cost (detect_added w previous) current s
                (detect_added_cost w previous)) as H1.
  destruct (for_each current (detect_added w previous) [] s) as [added s1].
  pose proof (for_each_rel (fun a b => lookup_cost a b 0)
                (detect_removed current) previous lookup_cost_refl
                (fun a b c => lookup_cost_trans a b c 0 0)
                (detect_removed_cost current) [] s1) as H2.
  destruct (for_each previous (detect_removed current) [] s1) as [removed s2].
  pose proof (for_each_cost (detect_changed w previous) current s2
                (detect_changed_cost w previous)) as H3.
  destruct (for_each current (detect_changed w previous) [] s2)
    as [changed s3].
  simpl in *.
  pose proof (lookup_cost_trans _ _ _ _ _
                (lookup_cost_trans _ _ _ _ _ H1 H2) H3) as H.
  rewrite Nat.add_0_r in H. destruct H as (n & Hn & Hr & Hs & Hc).
  split; [exact Hc|]. exists n. auto.
Qed.

(** ** Timestamps of the cache *)

Lemma cache_le_refl c : cache_le c c.
Proof. intros k e H. exists e. split; [assumption | lia]. Qed.

Lemma cache_le_trans c1 c2 c3 :
  cache_le c1 c2 -> cache_le c2 c3 -> cache_le c1 c3.
Proof.
  intros H1 H2 k e H. destruct (H1 k e H) as (e' & H' & Hle).
  destruct (H2 k e' H') as (e'' & H'' & Hle'). exists e''.
  split; [assumption | lia].
Qed.

Lemma get_doctor_locations_cache_le w k url s :
  0 <= cache_expiry_seconds w ->
  cache_le (location_cache s)
           (location_cache (snd (get_doctor_locations w k url s))).
Proof.
  intros Hexp.
  destruct (get_doctor_locations_cases w k url s)
    as [(e & _ & _ & ->)|(Hmiss & ->)]; simpl; [apply cache_le_refl|].
  intros k' e' H'. destruct (decide (k = k')) as [<-|Hne].
  - rewrite lookup_insert_eq. eexists. split; [reflexivity|]. simpl.
    unfold fresh_entry in Hmiss. rewrite H' in Hmiss.
    destruct (Z.ltb_spec (clock w (clock_reads s) - timestamp e')
                (cache_expiry_seconds w)); [discriminate | lia].
  - rewrite lookup_insert_ne by assumption. exists e'.
    split; [assumption | lia].
Qed.

(** X6: the cache never loses an entry and never makes one older.  When
    the expiry is not negative (LOCATION_CACHE_DAYS at least 0, or unset),
    after [get_doctor_locations], and after a whole [detect_changes], every
    id that had a cache entry still has one, with a timestamp that is not
    lower than before. *)
Theorem cache_timestamps_never_decrease w :
  0 <= cache_expiry_seconds w ->
  (forall doctor_id detail_url s,
     cache_le (location_cache s)
       (location_cache
          (snd (get_doctor_locations w doctor_id detail_url s))))
  /\ (forall current_doctors previous_state s,
        cache_le (location_cache s)
          (location_cache
             (snd (detect_changes w current_doctors previous_state s)))).
Proof.
  intros Hexp. split.
  { intros k url s. now apply get_doctor_locations_cache_le. }
  intros cur ps s. unfold detect_changes, bind, ret.
  destruct (ids_of cur s) as [current s0] eqn:E0.
  assert (s0 = s) by (unfold ids_of in E0; congruence). subst s0.
  set (previous := default [] (sd_doctors ps)).
  set (R := fun a b : state => cache_le (location_cache a) (location_cache b)).
  assert (Rrefl : forall a, R a a) by (intros a; apply cache_le_refl).
  assert (Rtrans : forall a b c, R a b -> R b c -> R a c)
    by (intros a b c; apply cache_le_trans).
  assert (H1 : forall acc s0,
             R s0 (snd (for_each current (detect_added w previous) acc s0))).
  { apply for_each_rel; trivial. intros [k a] acc s0. unfold detect_added.
    destruct (Dict.contains k previous); simpl; [apply Rrefl|].
    unfold bind, read_doctor, ret.
    pose proof (get_doctor_locations_cache_le w (doctor_id (doctor_at s0 a))
                  (get_doctor_detail_url (doctor_id (doctor_at s0 a))) s0 Hexp)
      as H.
    destruct (get_doctor_locations w _ _ s0) as [l s1]. exact H. }
  assert (H2 : forall acc s0,
             R s0 (snd (for_each previous (detect_removed current) acc s0))).
  { apply for_each_rel; trivial. intros [k a] acc s0. unfold detect_removed.
    destruct (Dict.contains k current); simpl; [apply Rrefl|].
    unfold bind, cache_lookup, ret.
    destruct (location_cache s0 !! k); unfold R; simpl; apply cache_le_refl. }
  assert (H3 : forall acc s0,
             R s0 (snd (for_each current (detect_changed w previous) acc s0))).
  { apply for_each_rel; trivial. intros [k a] acc s0. unfold detect_changed.
    destruct (Dict.get k previous) as [b|]; [|apply Rrefl].
    unfold bind, read_doctor, ret. destruct (negb _); [|apply Rrefl].
    pose proof (get_doctor_locations_cache_le w (doctor_id (doctor_at s0 a))
                  (get_doctor_detail_url (doctor_id (doctor_at s0 a))) s0 Hexp)
      as H.
    destruct (get_doctor_locations w _ _ s0) as [l s1]. exact H. }
  specialize (H1 [] s).
  destruct (for_each current (detect_added w previous) [] s) as [added s1].
  specialize (H2 [] s1).
  destruct (for_each previous (detect_removed current) [] s1) as [removed s2].
  specialize (H3 [] s2).
  destruct (for_each current (detect_changed w previous) [] s2)
    as [changed s3].
  simpl in *. apply (Rtrans _ _ _ (Rtrans _ _ _ H1 H2) H3).
Qed.

Lemma cache_timestamps_never_decrease_witness :
  cache_le (location_cache Sample.s)
    (location_cache
       (snd (detect_changes Sample.w Sample.current_doctors
               Sample.previous_state Sample.s))).
Proof.
  assert (H : 0 <= cache_expiry_seconds Sample.w) by (vm_compute; discriminate).
  apply (cache_timestamps_never_decrease Sample.w H).
Defined.

(** X7: an expiry of zero or less switches the cache off.  When
    LOCATION_CACHE_DAYS is 0 or negative, a lookup of an id whose entry, if
    any, is not stamped later than the clock goes to the network: it makes
    the request and stores the new list under the id with the timestamp
    [now]. *)
Theorem get_doctor_locations_no_caching w days doctor_id detail_url s :
  LOCATION_CACHE_DAYS (environ w) = Some days -> days <= 0 ->
  (forall cached, location_cache s !! doctor_id = Some cached ->
                  timestamp cached <= clock w (clock_reads s)) ->
  let '(fetched, s') := get_doctor_locations w doctor_id detail_url s in
  requests s' = requests s ++ [detail_url]
  /\ location_cache s' !! doctor_id
     = Some (CacheEntry fetched (clock w (clock_reads s)))
  /\ list_at s' fetched = scraped w s detail_url.
Proof.
  intros Hdays Hle Hpast.
  assert (Hexp : cache_expiry_seconds w <= 0)
    by (unfold cache_expiry_seconds; rewrite Hdays; simpl; lia).
  rewrite get_doctor_locations_miss.
  - split; [reflexivity|]. split; [apply lookup_insert_eq|].
    unfold list_at, after_miss. simpl.
    rewrite lookup_app_r by lia. now rewrite Nat.sub_diag.
  - unfold fresh_entry.
    destruct (location_cache s !! doctor_id) as [e|] eqn:L; [|reflexivity].
    specialize (Hpast e eq_refl).
    destruct (Z.ltb_spec (clock w (clock_reads s) - timestamp e)
                (cache_expiry_seconds w)); [lia | reflexivity].
Qed.

Lemma get_doctor_locations_no_caching_witness :
  let '(fetched, s') :=
    get_doctor_locations Scenario.w_no_cache "A2" (get_doctor_detail_url "A2")
      Sample.s in
  requests s' = [get_doctor_detail_url "A2"]
  /\ location_cache s' !! "A2" = Some (CacheEntry fetched 1700000000).
Proof.
  assert (Hle : 0 <= 0) by lia.
  assert (Hpast : forall cached,
             location_cache Sample.s !! "A2" = Some cached ->
             timestamp cached
             <= clock Scenario.w_no_cache (clock_reads Sample.s)).
  { intros cached H. unfold Sample.s, Sample.cache in H. simpl in H.
    apply lookup_singleton_Some in H as [_ <-]. simpl. lia. }
  pose proof (get_doctor_locations_no_caching Scenario.w_no_cache 0 "A2"
                (get_doctor_detail_url "A2") Sample.s eq_refl Hle Hpast) as H.
  destruct (get_doctor_locations Scenario.w_no_cache "A2"
              (get_doctor_detail_url "A2") Sample.s) as [l s'].
  destruct H as (H1 & H2 & _). split; [exact H1 | exact H2].
Defined.

(** ** The order of the change-set *)

(** X8: the three lists of the change-set follow the order of the dicts.
    [added] holds the doctors of [current_ids] whose id is not a key of the
    previous snapshot, in the order of the listing; [removed] holds the
    doctors of the previous snapshot whose id is not listed, in the order
    of that snapshot; [changed] holds, in the order of the listing, one
    triple for each listed doctor whose availability differs from the one
    of the previous doctor of the same id: the current doctor, the previous
    availability, the current availability. *)
Theorem detect_changes_lists_in_dict_order w current_doctors previous_state s :
  let current := current_ids s current_doctors in
  let previous := previous_ids previous_state in
  let c := fst (detect_changes w current_doctors previous_state s) in
  added c
  = map snd (List.filter (fun it => negb (Dict.contains (fst it) previous))
                         current)
  /\ removed c
     = map snd (List.filter (fun it => negb (Dict.contains (fst it) current))
                            previous)
  /\ changed c
     = map (changed_entry s previous)
           (List.filter (differs s previous) current)
  /\ (forall k a, (k, a) ∈ List.filter (differs s previous) current ->
        exists b, Dict.get k previous = Some b
                  /\ changed_entry s previous (k, a)
                     = (a, availability_at s b, availability_at s a)
                  /\ availability_at s b <> availability_at s a).
Proof.
  intros current previous.
  pose proof (detect_changes_spec w current_doctors previous_state s) as H.
  cbv zeta in H. fold current previous in H.
  destruct (detect_changes w current_doctors previous_state s) as [c s'].
  destruct H as (-> & _). simpl.
  split; [reflexivity|]. split; [reflexivity|]. split; [reflexivity|].
  intros k a Hin. apply (changed_items_spec s current previous) in Hin
    as [_ (b & Hb & Hne)].
  exists b. split; [assumption|]. split; [|congruence].
  unfold changed_entry. simpl. now rewrite Hb.
Qed.

(** ** The locations of a detail page *)

Module StrFacts.

Lemma lstrip_fixed s :
  Str.lstrip s = s
  <-> match s with
      | EmptyString => True
      | String c _ => Str.isspace c = false
      end.
Proof.
  destruct s as [|c s]; simpl; [tauto|].
  destruct (Str.isspace c) eqn:E; [|tauto].
  split; [|discriminate]. intros H. exfalso.
  assert (Hlen : forall t, (String.length (Str.lstrip t) <= String.length t)%nat).
  { induction t as [|x t IH]; simpl; [lia|].
    destruct (Str.isspace x); simpl; lia. }
  specialize (Hlen s). rewrite H in Hlen. simpl in Hlen. lia.
Qed.

Lemma lstrip_idem s : Str.lstrip (Str.lstrip s) = Str.lstrip s.
Proof.
  induction s as [|c s IH]; simpl; [reflexivity|].
  destruct (Str.isspace c) eqn:E; [assumption|]. simpl. now rewrite E.
Qed.

Lemma rstrip_head c s :
  Str.isspace c = false ->
  exists r, Str.rstrip (String c s) = String c r.
Proof.
  intros E. simpl. destruct (Str.rstrip s); [rewrite E|]; eauto.
Qed.

Lemma rstrip_idem s : Str.rstrip (Str.rstrip s) = Str.rstrip s.
Proof.
  induction s as [|c s IH]; simpl; [reflexivity|].
  destruct (Str.rstrip s) as [|x r] eqn:E.
  - destruct (Str.isspace c) eqn:Ec; simpl; [reflexivity|]. now rewrite Ec.
  - change (Str.rstrip (String c (String x r))
            = String c (String x r)).
    simpl. simpl in IH. now rewrite IH.
Qed.

Lemma strip_idem s : Str.strip (Str.strip s) = Str.strip s.
Proof.
  unfold Str.strip.
  assert (H : Str.lstrip (Str.rstrip (Str.lstrip s))
              = Str.rstrip (Str.lstrip s)).
  { pose proof (lstrip_idem s) as Hl. apply lstrip_fixed in Hl.
    destruct (Str.lstrip s) as [|c t]; [reflexivity|].
    destruct (rstrip_head c t Hl) as (r & ->). simpl. now rewrite Hl. }
  rewrite H. apply rstrip_idem.
Qed.

Lemma truthy_ne s : Str.truthy s = true <-> s <> "".
Proof. destruct s; simpl; split; congruence. Qed.

End StrFacts.

Lemma collect_step_spec (tags : list string) : forall acc : list string,
  let result :=
    fold_left
      (fun (locations : list string) (text : string) =>
         if Str.startswith text "Comune:" then
           let location := Str.strip (Str.remove text "Comune:") in
           if Str.truthy location && negb (bool_decide (location ∈ locations))
           then locations ++ [location]
           else locations
         else locations)
      tags acc in
  (NoDup acc -> NoDup result)
  /\ (forall l, l ∈ result
                <-> l ∈ acc
                    \/ (l <> ""
                        /\ exists t, t ∈ tags
                                     /\ Str.startswith t "Comune:" = true
                                     /\ l = Str.strip (Str.remove t "Comune:"))).
Proof.
  induction tags as [|t tags IH]; intros acc; simpl.
  - split; [trivial|]. intros l. split; [now left|].
    intros [H|(_ & t & Ht & _)]; [assumption|]. now apply elem_of_nil in Ht.
  - set (location := Str.strip (Str.remove t "Comune:")).
    destruct (Str.startswith t "Comune:") eqn:Es.
    + destruct (Str.truthy location) eqn:Et; simpl.
      * case_bool_decide as Hin; simpl.
        -- destruct (IH acc) as [Hnd Hiff]. split; [exact Hnd|].
           intros l. rewrite Hiff. split.
           ++ intros [H|(Hne & t' & Ht' & Hs' & ->)]; [now left|].
              right. split; [assumption|]. exists t'.
              split; [now right | auto].
           ++ intros [H|(Hne & t' & Ht' & Hs' & ->)]; [now left|].
              apply elem_of_cons in Ht' as [->|Ht']; [now left|].
              right. split; [assumption|]. now exists t'.
        -- destruct (IH (acc ++ [location])) as [Hnd Hiff]. split.
           ++ intros Hacc. apply Hnd. apply NoDup_app. split; [assumption|].
              split; [|apply NoDup_singleton].
              intros x Hx Hx'. apply list_elem_of_singleton in Hx'. now subst.
           ++ intros l. rewrite Hiff, elem_of_app, list_elem_of_singleton.
              apply StrFacts.truthy_ne in Et. split.
              ** intros [[H| ->]|(Hne & t' & Ht' & Hs' & ->)]; [now left| |].
                 --- right. split; [assumption|]. exists t.
                     split; [left | auto].
                 --- right. split; [assumption|]. exists t'.
                     split; [now right | auto].
              ** intros [H|(Hne & t' & Ht' & Hs' & ->)]; [now left; left|].
                 apply elem_of_cons in Ht' as [->|Ht']; [left; now right|].
                 right. split; [assumption|]. now exists t'.
      * destruct (IH acc) as [Hnd Hiff]. split; [exact Hnd|].
        intros l. rewrite Hiff. split.
        -- intros [H|(Hne & t' & Ht' & Hs' & ->)]; [now left|].
           right. split; [assumption|]. exists t'. split; [now right | auto].
        -- intros [H|(Hne & t' & Ht' & Hs' & ->)]; [now left|].
           apply elem_of_cons in Ht' as [->|Ht'].
           ++ fold location in Hne. apply StrFacts.truthy_ne in Hne. congruence.
           ++ right. split; [assumption|]. now exists t'.
    + destruct (IH acc) as [Hnd Hiff]. split; [exact Hnd|].
      intros l. rewrite Hiff. split.
      * intros [H|(Hne & t' & Ht' & Hs' & ->)]; [now left|].
        right. split; [assumption|]. exists t'. split; [now right | auto].
      * intros [H|(Hne & t' & Ht' & Hs' & ->)]; [now left|].
        apply elem_of_cons in Ht' as [->|Ht']; [congruence|].
        right. split; [assumption|]. now exists t'.
Qed.

(** X9: the locations scraped from a detail page are clean.  The list that
    the loop of [scrape_doctor_locations] builds from the [<b>] texts has
    no location twice; a string is in it exactly when it is not empty and
    is what is left of some text starting with "Comune:" once every
    "Comune:" is removed and the ends are stripped; and stripping an
    element again changes nothing. *)
Theorem collect_locations_clean (bold_tags : list string) :
  NoDup (collect_locations bold_tags)
  /\ (forall l, l ∈ collect_locations bold_tags
                <-> l <> ""
                    /\ exists t, t ∈ bold_tags
                                 /\ Str.startswith t "Comune:" = true
                                 /\ l = Str.strip (Str.remove t "Comune:"))
  /\ (forall l, l ∈ collect_locations bold_tags -> Str.strip l = l).
Proof.
  destruct (collect_step_spec bold_tags []) as [Hnd Hiff].
  assert (Hiff' : forall l, l ∈ collect_locations bold_tags
                <-> l <> ""
                    /\ exists t, t ∈ bold_tags
                                 /\ Str.startswith t "Comune:" = true
                                 /\ l = Str.strip (Str.remove t "Comune:")).
  { intros l. unfold collect_locations. rewrite (Hiff l). split.
    - intros [H|H]; [now apply elem_of_nil in H | exact H].
    - now right. }
  split; [apply Hnd, NoDup_nil_2|]. split; [exact Hiff'|].
  intros l Hl. apply Hiff' in Hl as (_ & t & _ & _ & ->).
  apply StrFacts.strip_idem.
Qed.

(** ** The state file, read back *)

Lemma allocates_doctor_at s s' a :
  allocates s s' -> (a < length (doctors s))%nat ->
  doctor_at s' a = doctor_at s a.
Proof.
  intros [_ (D & HD) _ _ _ _] Ha. unfold doctor_at. rewrite HD.
  now rewrite lookup_app_l.
Qed.

Lemma allocates_list_at s s' l :
  allocates s s' -> (l < length (lists s))%nat -> list_at s' l = list_at s l.
Proof.
  intros [(L & HL) _ _ _ _ _] Hl. unfold list_at. rewrite HL.
  now rewrite lookup_app_l.
Qed.

Lemma allocates_valid_doctor s s' a :
  allocates s s' -> valid_doctor s a -> valid_doctor s' a.
Proof.
  intros Hal [Ha Hl]. pose proof (allocates_doctor_at _ _ _ Hal Ha) as E.
  destruct Hal as [(L & HL) (D & HD) _ _ _ _]. split.
  - rewrite HD, length_app. lia.
  - rewrite E. intros l H. specialize (Hl l H). rewrite HL, length_app. lia.
Qed.

Lemma allocates_dump_doctor s s' a :
  allocates s s' -> valid_doctor s a -> dump_doctor s' a = dump_doctor s a.
Proof.
  intros Hal [Ha Hl]. unfold dump_doctor.
  rewrite (allocates_doctor_at _ _ _ Hal Ha).
  destruct (locations (doctor_at s a)) as [l|] eqn:E; simpl; [|reflexivity].
  now rewrite (allocates_list_at _ _ _ Hal (Hl l eq_refl)).
Qed.

Lemma load_doctor_reads r s :
  let '(a, s') := load_doctor r s in
  a = length (doctors s) /\ valid_doctor s' a /\ dump_doctor s' a = r
  /\ forall l, locations (doctor_at s' a) = Some l ->
                (length (lists s) <= l)%nat.
Proof.
  unfold load_doctor, bind, ret, new_list, new_doctor, valid_doctor,
    dump_doctor, doctor_at, list_at.
  destruct r as [i f l av [ls|]]; simpl;
    repeat (rewrite list_lookup_middle by reflexivity; simpl);
    rewrite ?length_app; simpl.
  - split; [reflexivity|]. split; [|split].
    + split; [lia|]. intros l0 [= <-]. lia.
    + reflexivity.
    + intros l0 [= <-]. lia.
  - split; [reflexivity|]. split; [|split].
    + split; [lia|]. discriminate.
    + reflexivity.
    + discriminate.
Qed.

Lemma load_doctors_loop items : forall acc s,
  NoDup (Dict.keys acc ++ Dict.keys items) ->
  (forall k a, (k, a) ∈ acc -> valid_doctor s a) ->
  let '(ds, s') :=
    for_each items
      (fun '(k, r) d => bind (load_doctor r) (fun a => ret (Dict.set k a d)))
      acc s in
  map (fun '(k, a) => (k, dump_doctor s' a)) ds
  = map (fun '(k, a) => (k, dump_doctor s a)) acc ++ items
  /\ (forall k a, (k, a) ∈ ds ->
        valid_doctor s' a
        /\ (((k, a) ∈ acc /\ doctor_at s' a = doctor_at s a)
            \/ ((length (doctors s) <= a)%nat
                /\ forall l, locations (doctor_at s' a) = Some l ->
                             (length (lists s) <= l)%nat))).
Proof.
  induction items as [|[k r] items IH]; intros acc s Hnd Hv; simpl.
  - unfold ret. rewrite app_nil_r. split; [reflexivity|].
    intros k a H. split; [now apply (Hv k)|]. left. now split.
  - unfold bind at 1. unfold bind at 1.
    pose proof (load_doctor_reads r s) as H1.
    pose proof (load_doctor_allocates r s) as Hal.
    destruct (load_doctor r s) as [a s1]. simpl in Hal.
    destruct H1 as (Ea & Hva & Hd & Hfl). unfold ret at 1.
    assert (Hk : k ∉ Dict.keys acc).
    { simpl in Hnd. apply NoDup_app in Hnd as (_ & Hnd & _).
      intros Hin. apply (Hnd k Hin). left. }
    rewrite (DictFacts.set_fresh _ _ _ Hk).
    specialize (IH (acc ++ [(k, a)]) s1).
    destruct (for_each items _ (acc ++ [(k, a)]) s1) as [ds s'].
    destruct IH as (IH1 & IH2).
    + unfold Dict.keys. rewrite map_app. simpl. rewrite <- app_assoc. simpl.
      exact Hnd.
    + intros k' a' Hin. apply elem_of_app in Hin as [Hin|Hin].
      * apply (allocates_valid_doctor _ _ _ Hal). now apply (Hv k').
      * apply list_elem_of_singleton in Hin as [= -> ->]. exact Hva.
    + split.
      * rewrite IH1, map_app. simpl. rewrite <- app_assoc. simpl. rewrite Hd.
        f_equal. apply map_ext_in. intros [k' a'] Hin.
        rewrite (allocates_dump_doctor _ _ _ Hal); [reflexivity|].
        apply (Hv k'). now apply list_elem_of_In.
      * intros k' a' Hin. destruct (IH2 k' a' Hin) as [Hv' Hor].
        split; [exact Hv'|]. pose proof Hal as [(L & HL) (D & HD) _ _ _ _].
        destruct Hor as [[Hor E]|[Hor Hl]].
        -- apply elem_of_app in Hor as [Hor|Hor].
           ++ left. split; [exact Hor|]. rewrite E.
              apply (allocates_doctor_at _ _ _ Hal). apply (Hv k' a' Hor).
           ++ apply list_elem_of_singleton in Hor as [= -> ->]. right.
              split; [lia|]. rewrite E. exact Hfl.
        -- right. rewrite HD, length_app in Hor. split; [lia|].
           intros l Hloc. specialize (Hl l Hloc).
           rewrite HL, length_app in Hl. lia.
Qed.

Lemma load_doctors_reads items s :
  Dict.wf items ->
  let '(ds, s') := load_doctors items s in
  map (fun '(k, a) => (k, dump_doctor s' a)) ds = items
  /\ (forall k a, (k, a) ∈ ds ->
        valid_doctor s' a
        /\ (length (doctors s) <= a)%nat
        /\ forall l, locations (doctor_at s' a) = Some l ->
                     (length (lists s) <= l)%nat).
Proof.
  intros Hwf. pose proof (load_doctors_loop items [] s) as H.
  unfold load_doctors.
  destruct (for_each items _ [] s) as [ds s']. destruct H as [H1 H2].
  - exact Hwf.
  - intros k a Hin. now apply elem_of_nil in Hin.
  - split; [exact H1|]. intros k a Hin.
    destruct (H2 k a Hin) as [Hv [[Hn _]|Hl]].
    + now apply elem_of_nil in Hn.
    + now split.
Qed.

Lemma load_cache_loop (l : list (string * (list string * Z))) :
  forall (acc : gmap string cache_entry) s,
  (forall k e, acc !! k = Some e ->
               (entry_locations e < length (lists s))%nat) ->
  let '(c, s') :=
    for_each l
      (fun '(k, (ls, t)) c =>
         bind (new_list ls) (fun a => ret (<[k := CacheEntry a t]> c)))
      acc s in
  dump_entry s' <$> c
  = fold_left (fun m '(k, v) => <[k := v]> m) l (dump_entry s <$> acc)
  /\ (forall k e, c !! k = Some e ->
        (entry_locations e < length (lists s'))%nat
        /\ (acc !! k = Some e \/ (length (lists s) <= entry_locations e)%nat)).
Proof.
  induction l as [|[k [ls t]] l IH]; intros acc s Hv; simpl.
  - unfold ret. split; [reflexivity|]. intros k e H.
    split; [now apply (Hv k)|now left].
  - unfold bind at 1. unfold bind at 1. unfold new_list at 1, ret at 1.
    set (s1 := with_lists s (lists s ++ [ls])).
    set (acc1 := <[k := CacheEntry (length (lists s)) t]> acc).
    specialize (IH acc1 s1).
    destruct (for_each l _ acc1 s1) as [c s'].
    destruct IH as (IH1 & IH2).
    + intros k' e H. subst acc1 s1. simpl. rewrite length_app. simpl.
      destruct (decide (k' = k)) as [->|Hne].
      * rewrite lookup_insert_eq in H. injection H as <-. simpl. lia.
      * rewrite lookup_insert_ne in H by congruence.
        specialize (Hv k' e H). lia.
    + split.
      * rewrite IH1. f_equal. subst acc1. rewrite fmap_insert. f_equal.
        -- unfold dump_entry, list_at, s1. simpl.
           now rewrite list_lookup_middle.
        -- apply map_fmap_ext. intros k' e H. unfold dump_entry, list_at, s1.
           simpl. rewrite lookup_app_l by apply (Hv k' e H). reflexivity.
      * intros k' e H. destruct (IH2 k' e H) as [Hl Hor].
        split; [exact Hl|]. destruct Hor as [Hor|Hor].
        -- subst acc1. destruct (decide (k' = k)) as [->|Hne].
           ++ rewrite lookup_insert_eq in Hor. injection Hor as <-. simpl.
              right. lia.
           ++ rewrite lookup_insert_ne in Hor by congruence. now left.
        -- right. subst s1. simpl in Hor. rewrite length_app in Hor. lia.
Qed.

Lemma fold_left_insert {V : Type} (l : list (string * V)) :
  forall m : gmap string V,
    fold_left (fun m '(k, v) => <[k := v]> m) l m
    = foldr (fun p m => <[p.1 := p.2]> m) m (rev l).
Proof.
  induction l as [|[k v] l IH]; intros m; simpl; [reflexivity|].
  rewrite IH, foldr_app. reflexivity.
Qed.

Lemma fold_left_insert_map_to_list {V : Type} (m : gmap string V) :
  fold_left (fun m '(k, v) => <[k := v]> m) (map_to_list m) ∅ = m.
Proof.
  rewrite fold_left_insert.
  change (foldr (fun p m0 => <[p.1 := p.2]> m0) ∅ (rev (map_to_list m)))
    with (list_to_map (rev (map_to_list m)) : gmap string V).
  transitivity (list_to_map (map_to_list m) : gmap string V);
    [|apply list_to_map_to_list].
  apply list_to_map_proper.
  - rewrite <- Permutation_rev. apply NoDup_fst_map_to_list.
  - symmetry. apply Permutation_rev.
Qed.

Lemma load_cache_reads m s :
  let '(c, s') := load_cache m s in
  dump_entry s' <$> c = m
  /\ (forall k e, c !! k = Some e ->
        (length (lists s) <= entry_locations e < length (lists s'))%nat).
Proof.
  pose proof (load_cache_loop (map_to_list m) ∅ s) as H. unfold load_cache.
  destruct (for_each (map_to_list m) _ ∅ s) as [c s'].
  destruct H as [H1 H2].
  - intros k e H. now rewrite lookup_empty in H.
  - split.
    + rewrite H1, fmap_empty. apply fold_left_insert_map_to_list.
    + intros k e H. destruct (H2 k e H) as [Hl [Hn|Hg]]; [|lia].
      now rewrite lookup_empty in Hn.
Qed.

(** What [load_state] builds from a readable state file. *)
Lemma load_state_spec (d : document) s :
  state_file s = Some (Json d) ->
  (forall items, doc_doctors d = Some items -> Dict.wf items) ->
  let '(st, s') := load_state s in
  dump_state s' st = d
  /\ (forall k a, (k, a) ∈ previous_ids st ->
        (length (doctors s) <= a < length (doctors s'))%nat
        /\ forall l, locations (doctor_at s' a) = Some l ->
                     (length (lists s) <= l < length (lists s'))%nat)
  /\ (forall c k e, sd_location_cache st = Some c -> c !! k = Some e ->
        (length (lists s) <= entry_locations e < length (lists s'))%nat)
  /\ allocates s s'.
Proof.
  intros Hfile Hwf.
  pose proof (load_state_allocates s) as Hal.
  unfold load_state, bind, read_file in *. rewrite Hfile in *.
  destruct d as [od oc]. cbn [doc_doctors doc_location_cache] in *.
  assert (H1 : let '(ods, s1) := load_option load_doctors od s in
               match ods with
               | Some ds => Some (map (fun '(k, a) => (k, dump_doctor s1 a)) ds)
               | None => None
               end = od
               /\ (forall k a, (k, a) ∈ default [] ods ->
                     valid_doctor s1 a
                     /\ (length (doctors s) <= a)%nat
                     /\ forall l, locations (doctor_at s1 a) = Some l ->
                                  (length (lists s) <= l)%nat)
               /\ allocates s s1).
  { unfold load_option, bind, ret. destruct od as [items|].
    - pose proof (load_doctors_reads items s (Hwf items eq_refl)) as H.
      pose proof (load_doctors_allocates items s) as A.
      destruct (load_doctors items s) as [ds s1]. destruct H as [H H'].
      simpl. now rewrite H.
    - simpl. split; [reflexivity|]. split; [|apply allocates_refl].
      intros k a H. now apply elem_of_nil in H. }
  destruct (load_option load_doctors od s) as [ods s1].
  destruct H1 as (Hd & Hv & A1).
  assert (H2 : let '(oc', s2) := load_option load_cache oc s1 in
               match oc' with
               | Some c => Some (dump_entry s2 <$> c)
               | None => None
               end = oc
               /\ (forall c k e, oc' = Some c -> c !! k = Some e ->
                     (length (lists s1) <= entry_locations e
                      < length (lists s2))%nat)
               /\ allocates s1 s2).
  { unfold load_option, bind, ret. destruct oc as [m|].
    - pose proof (load_cache_reads m s1) as H.
      pose proof (load_cache_allocates m s1) as A.
      destruct (load_cache m s1) as [c s2]. destruct H as [H H'].
      simpl. rewrite H. split; [reflexivity|]. split; [|exact A].
      intros c' k e [= <-]. apply H'.
    - simpl. split; [reflexivity|]. split; [|apply allocates_refl].
      discriminate. }
  destruct (load_option load_cache oc s1) as [oc' s2].
  destruct H2 as (Hc & Hcv & A2). unfold ret. simpl in Hal.
  pose proof A1 as [(L1 & HL1) (D1 & HD1) _ _ _ _].
  pose proof A2 as [(L2 & HL2) (D2 & HD2) _ _ _ _].
  split; [|split; [|split]].
  - unfold dump_state. cbn [sd_doctors sd_location_cache]. rewrite Hc.
    f_equal. rewrite <- Hd. destruct ods as [ds|]; [|reflexivity]. f_equal.
    apply map_ext_in. intros [k a] Hin. f_equal.
    apply (allocates_dump_doctor _ _ _ A2).
    apply (Hv k a). simpl. now apply list_elem_of_In.
  - intros k a Hin. unfold previous_ids in Hin. cbn [sd_doctors] in Hin.
    destruct (Hv k a Hin) as ([Ha Hl] & Hf & Hfl).
    rewrite (allocates_doctor_at _ _ _ A2 Ha).
    split.
    + rewrite HD2, length_app. lia.
    + intros l Hloc. specialize (Hl l Hloc). specialize (Hfl l Hloc).
      rewrite HL2, length_app. lia.
  - intros c k e Hs Hk. cbn [sd_location_cache] in Hs.
    specialize (Hcv c k e Hs Hk). rewrite HL1, length_app in Hcv. lia.
  - exact Hal.
Qed.

(** X10: [load_state] loses nothing of a readable state file and shares
    nothing.  When the state file holds a document whose doctors have
    distinct keys, the state that [load_state] builds, written out again,
    is that document: the same doctors in the same order with the same
    fields and locations, the same cache entries.  Every doctor dict and
    every list of the loaded state is an object created by the call, and
    the call changes nothing else of the store. *)
Theorem load_state_reads_back (d : document) s :
  state_file s = Some (Json d) ->
  (forall items, doc_doctors d = Some items -> Dict.wf items) ->
  let '(st, s') := load_state s in
  dump_state s' st = d
  /\ (forall k a, (k, a) ∈ previous_ids st ->
        (length (doctors s) <= a < length (doctors s'))%nat
        /\ forall l, locations (doctor_at s' a) = Some l ->
                     (length (lists s) <= l < length (lists s'))%nat)
  /\ (forall c k e, sd_location_cache st = Some c -> c !! k = Some e ->
        (length (lists s) <= entry_locations e < length (lists s'))%nat)
  /\ allocates s s'.
Proof. apply load_state_spec. Qed.

Lemma load_state_reads_back_witness :
  let '(st, s') := load_state Scenario.restart in
  dump_state s' st = Scenario.saved.
Proof.
  pose proof (load_state_reads_back Scenario.saved Scenario.restart eq_refl)
    as H.
  destruct (load_state Scenario.restart) as [st s'].
  apply H. intros items [= <-]. unfold Dict.wf. simpl.
  apply NoDup_cons. split.
  - intros Hin. apply list_elem_of_singleton in Hin. discriminate.
  - apply NoDup_singleton.
Defined.

(** ** A listing that shows nothing new *)

Lemma filter_nil_iff {A : Type} (f : A -> bool) (l : list A) :
  List.filter f l = [] <-> forall x, x ∈ l -> f x = false.
Proof.
  induction l as [|x l IH]; simpl.
  - split; [|reflexivity]. intros _ x H. now apply elem_of_nil in H.
  - destruct (f x) eqn:E.
    + split; [discriminate|]. intros H. rewrite (H x) in E by left.
      discriminate.
    + rewrite IH. split.
      * intros H y Hy. apply elem_of_cons in Hy as [->|Hy]; auto.
      * intros H y Hy. apply H. now right.
Qed.

Lemma get_map {A B : Type} (g : A -> B) (d : list (string * A)) k :
  Dict.get k (map (fun '(k, a) => (k, g a)) d) = g <$> Dict.get k d.
Proof.
  induction d as [|[k0 v0] d IH]; simpl; [reflexivity|].
  now destruct (String.eqb k k0).
Qed.

(** The dict of the new doctors, seen through [g], is the dict of their
    rows seen through [h]. *)
Lemma ids_rows_map {B : Type} (g : addr -> B) (h : listed_doctor -> B) s1 :
  forall rows n d0,
  (forall i r, rows !! i = Some r ->
               doctor_id (doctor_at s1 (n + i)%nat) = row_id r
               /\ g (n + i)%nat = h r) ->
  map (fun '(k, a) => (k, g a))
      (fold_left (fun d a => Dict.set (doctor_id (doctor_at s1 a)) a d)
                 (seq n (length rows)) d0)
  = fold_left (fun d r => Dict.set (row_id r) (h r) d) rows
              (map (fun '(k, a) => (k, g a)) d0).
Proof.
  induction rows as [|r rows IH]; intros n d0 H; simpl; [reflexivity|].
  destruct (H 0%nat r eq_refl) as [H0 H1].
  replace (n + 0)%nat with n in H0, H1 by lia.
  rewrite IH.
  - rewrite map_dump_set, H0, H1. reflexivity.
  - intros i r' Hi. destruct (H (S i) r' Hi) as [H2 H3].
    replace (n + S i)%nat with (S n + i)%nat in H2, H3 by lia. now split.
Qed.

Lemma for_each_skip_at {A B : Type} (body : A -> B -> M B) (xs : list A) s :
  (forall x acc, x ∈ xs -> body x acc s = (acc, s)) ->
  forall acc, for_each xs body acc s = (acc, s).
Proof.
  induction xs as [|x xs IH]; intros H acc; simpl; [reflexivity|].
  unfold bind. rewrite H by left. apply IH.
  intros y acc' Hy. apply H. now right.
Qed.

(** When the two dicts have the same keys and every doctor has the
    availability of the previous doctor of its id, the three loops do
    nothing. *)
Lemma detect_changes_nothing w cur st s :
  let current := current_ids s cur in
  let previous := previous_ids st in
  (forall k, k ∈ Dict.keys current <-> k ∈ Dict.keys previous) ->
  (forall k a b, (k, a) ∈ current -> Dict.get k previous = Some b ->
                 availability_at s a = availability_at s b) ->
  detect_changes w cur st s = (Changes [] [] [], s).
Proof.
  intros current previous Hk Ha. unfold detect_changes.
  unfold bind at 1. unfold ids_of at 1.
  fold (ids_of cur s). fold (current_ids s cur). fold current.
  fold (previous_ids st). fold previous.
  unfold bind at 1. rewrite (for_each_skip (detect_added w previous) current).
  2:{ intros [k a] acc s' Hin. unfold detect_added.
      assert (Hc : Dict.contains k previous = true).
      { apply DictFacts.contains_keys, Hk. now apply (elem_keys _ _ a). }
      now rewrite Hc. }
  unfold bind at 1. rewrite (for_each_skip (detect_removed current) previous).
  2:{ intros [k a] acc s' Hin. unfold detect_removed.
      assert (Hc : Dict.contains k current = true).
      { apply DictFacts.contains_keys, Hk. now apply (elem_keys _ _ a). }
      now rewrite Hc. }
  unfold bind at 1. rewrite (for_each_skip_at (detect_changed w previous) current).
  2:{ intros [k a] acc Hin. unfold detect_changed.
      destruct (Dict.get k previous) as [b|] eqn:E; [|reflexivity].
      unfold bind, read_doctor, ret. cbv beta iota zeta.
      specialize (Ha k a b Hin E). unfold availability_at in Ha.
      rewrite Ha. now rewrite String.eqb_refl. }
  reflexivity.
Qed.

(** X11: the change-set is empty exactly when nothing differs.
    [detect_changes] returns no added, no removed and no changed entry if
    and only if the listing and the previous snapshot have the same ids and
    every listed doctor has the availability of the previous doctor of its
    id; and then it has left the whole store as it was: no lookup, no
    request, no write to a doctor dict. *)
Theorem detect_changes_empty_iff_same w current_doctors previous_state s :
  let current := current_ids s current_doctors in
  let previous := previous_ids previous_state in
  let '(c, s') := detect_changes w current_doctors previous_state s in
  ((added c = [] /\ removed c = [] /\ changed c = [])
   <-> ((forall k, k ∈ Dict.keys current <-> k ∈ Dict.keys previous)
        /\ (forall k a b, (k, a) ∈ current -> Dict.get k previous = Some b ->
                          availability_at s a = availability_at s b)))
  /\ (added c = [] /\ removed c = [] /\ changed c = [] -> s' = s).
Proof.
  intros current previous.
  pose proof (detect_changes_spec w current_doctors previous_state s) as H.
  pose proof (detect_changes_nothing w current_doctors previous_state s) as N.
  cbv zeta in H, N. fold current previous in H, N.
  destruct (detect_changes w current_doctors previous_state s) as [c s'].
  destruct H as (-> & _). cbn [added removed changed].
  assert (Hiff :
    (map snd (added_items current previous) = []
     /\ map snd (removed_items current previous) = []
     /\ map (changed_entry s previous) (changed_items s current previous) = [])
    <-> ((forall k, k ∈ Dict.keys current <-> k ∈ Dict.keys previous)
         /\ (forall k a b, (k, a) ∈ current -> Dict.get k previous = Some b ->
                           availability_at s a = availability_at s b))).
  { unfold added_items, removed_items, changed_items. split.
    - intros (Ha & Hr & Hc).
      apply map_eq_nil in Ha, Hr, Hc.
      rewrite filter_nil_iff in Ha, Hr, Hc. split.
      + intros k. split; intros Hin; apply elem_map_fst in Hin as (a & Hin).
        * specialize (Ha _ Hin). simpl in Ha.
          apply negb_false_iff in Ha. now apply DictFacts.contains_keys.
        * specialize (Hr _ Hin). simpl in Hr.
          apply negb_false_iff in Hr. now apply DictFacts.contains_keys.
      + intros k a b Hin E. specialize (Hc _ Hin). unfold differs in Hc.
        simpl in Hc. rewrite E in Hc. apply negb_false_iff in Hc.
        now apply String.eqb_eq in Hc.
    - intros [Hk Ha]. split; [|split].
      + replace (List.filter _ current) with (@nil (string * addr));
          [reflexivity|]. symmetry. apply filter_nil_iff. intros [k a] Hin.
        simpl. apply negb_false_iff, DictFacts.contains_keys, Hk.
        now apply (elem_keys _ _ a).
      + replace (List.filter _ previous) with (@nil (string * addr));
          [reflexivity|]. symmetry. apply filter_nil_iff. intros [k a] Hin.
        simpl. apply negb_false_iff, DictFacts.contains_keys, Hk.
        now apply (elem_keys _ _ a).
      + replace (List.filter _ current) with (@nil (string * addr));
          [reflexivity|]. symmetry. apply filter_nil_iff. intros [k a] Hin.
        unfold differs. simpl.
        destruct (Dict.get k previous) as [b|] eqn:E; [|reflexivity].
        apply negb_false_iff, String.eqb_eq. now apply (Ha k a b). }
  split; [exact Hiff|].
  intros HA. apply Hiff in HA as [Hk Ha]. specialize (N Hk Ha).
  now injection N.
Qed.

(** ** A run that finds the listing unchanged *)

Lemma fold_set_map {A V V' : Type} (key : A -> string) (val : A -> V)
    (g : V -> V') (xs : list A) : forall d0,
  map (fun '(k, v) => (k, g v))
      (fold_left (fun d x => Dict.set (key x) (val x) d) xs d0)
  = fold_left (fun d x => Dict.set (key x) (g (val x)) d) xs
              (map (fun '(k, v) => (k, g v)) d0).
Proof.
  induction xs as [|x xs IH]; intros d0; simpl; [reflexivity|].
  now rewrite IH, map_dump_set.
Qed.

Lemma get_is_keys {V : Type} (d : list (string * V)) k :
  k ∈ Dict.keys d <-> is_Some (Dict.get k d).
Proof.
  destruct (Dict.get k d) as [v|] eqn:E.
  - split; [eauto|]. intros _. apply DictFacts.get_Some_elem in E.
    now apply (elem_keys _ _ v).
  - apply DictFacts.get_None_keys in E. split; [tauto|].
    intros [v Hv]. discriminate.
Qed.

(** The run when the state file is readable and the listing shows the ids
    of the file with the availabilities of the file. *)
Lemma main_quiet_run w s d items url rows :
  state_file s = Some (Json d) -> doc_doctors d = Some items ->
  Dict.wf items -> configured w ->
  get_search_url w = inr url -> listing_page w url = Listing rows ->
  rows <> [] ->
  (forall k, rec_availability <$> Dict.get k items
             = Dict.get k (Dict.comprehension row_id row_availability rows)) ->
  let '(o, s') := main w s in
  o = Returns 0
  /\ sent s' = sent s
  /\ requests s' = requests s
  /\ state_file s'
     = Some (Json (Document
                     (Some (Dict.comprehension row_id record_of_row rows))
                     (Some (default ∅ (doc_location_cache d))))).
Proof.
  intros Hfile Hitems Hwf Hconf Hu Hl Hrows Hsame.
  rewrite (main_steady w s (Json d) url rows Hfile Hconf Hu Hl Hrows).
  pose proof (load_state_spec d s Hfile) as HL.
  destruct (load_state s) as [st s1].
  destruct HL as (Hdump & Hfresh & _ & Hal).
  { intros items' E. rewrite Hitems in E. now injection E as <-. }
  cbv zeta.
  set (cur := seq (length (doctors s1)) (length rows)).
  set (s2 := with_doctors s1 (doctors s1 ++ map doctor_of_row rows)).
  set (s3 := with_location_cache s2 (default ∅ (sd_location_cache st))).
  destruct st as [ods oc]. destruct d as [dd dc].
  unfold dump_state in Hdump. unfold previous_ids in Hfresh.
  cbn [sd_doctors sd_location_cache doc_doctors doc_location_cache] in *.
  subst dd. injection Hdump as Hd Hc.
  destruct ods as [ds|]; [|discriminate]. injection Hd as Hd.
  cbn [default] in Hfresh.
  assert (Hrows_at : forall i r, rows !! i = Some r ->
            doctor_at s3 (length (doctors s1) + i)%nat = doctor_of_row r).
  { intros i r Hi. apply (doctor_at_scraped s1 rows i r Hi). }
  assert (Hold : forall k b, (k, b) ∈ ds -> doctor_at s3 b = doctor_at s1 b).
  { intros k b Hin. destruct (Hfresh k b Hin) as [Hb _].
    unfold doctor_at, s3, s2. simpl. rewrite lookup_app_l by lia.
    reflexivity. }
  assert (Havail :
    map (fun '(k, a) => (k, availability_at s3 a)) (current_ids s3 cur)
    = Dict.comprehension row_id row_availability rows).
  { unfold current_ids, ids_of, Dict.comprehension. simpl.
    apply (ids_rows_map (availability_at s3) row_availability s3 rows
             (length (doctors s1)) []).
    intros i r Hi. unfold availability_at. rewrite (Hrows_at i r Hi).
    split; reflexivity. }
  assert (Hget : forall k,
            availability_at s3 <$> Dict.get k (current_ids s3 cur)
            = availability_at s3 <$> Dict.get k ds).
  { intros k. rewrite <- get_map, Havail, <- Hsame, <- Hd, get_map.
    destruct (Dict.get k ds) as [b|] eqn:E; simpl; [|reflexivity]. f_equal.
    unfold availability_at.
    rewrite (Hold k b) by now apply DictFacts.get_Some_elem.
    reflexivity. }
  rewrite (detect_changes_nothing w cur (StateDict (Some ds) oc) s3).
  - cbn [added removed changed length Nat.add Nat.ltb Nat.leb].
    split; [reflexivity|].
    destruct Hal as [_ _ _ Hreq _ Hsent].
    split; [exact Hsent|]. split; [exact Hreq|].
    cbn [state_file with_state_file]. do 2 f_equal.
    unfold dump_state. cbn [sd_doctors sd_location_cache]. f_equal.
    + f_equal. unfold current_ids, ids_of, Dict.comprehension. simpl.
      apply (dump_ids_rows s3 rows (length (doctors s1)) [] Hrows_at).
    + f_equal. rewrite <- Hc. destruct oc as [c|]; simpl.
      * reflexivity.
      * apply fmap_empty.
  - intros k. rewrite !get_is_keys. unfold previous_ids. simpl.
    specialize (Hget k).
    destruct (Dict.get k (current_ids s3 cur)), (Dict.get k ds);
      simpl in Hget; try discriminate; split; eauto;
      intros [? ?]; discriminate.
  - intros k a b Hin E. unfold previous_ids in E. simpl in E.
    specialize (Hget k).
    rewrite (DictFacts.elem_get _ _ _ (current_ids_wf s3 cur) Hin), E in Hget.
    now injection Hget.
Qed.

(** X12: a run that finds nothing new is silent and still rewrites the
    state.  When the state file is readable and the listing shows exactly
    the ids of the file, each with the availability the file has for it,
    [main] returns 0, calls Telegram not at all and requests no detail
    page; the state file it writes has the doctors of the listing, keyed by
    id and without locations, and the cache of the old file (an empty one
    when the old file had none). *)
Theorem main_unchanged_listing_is_quiet w s d items url rows :
  state_file s = Some (Json d) -> doc_doctors d = Some items ->
  Dict.wf items -> configured w ->
  get_search_url w = inr url -> listing_page w url = Listing rows ->
  rows <> [] ->
  (forall k, rec_availability <$> Dict.get k items
             = Dict.get k (Dict.comprehension row_id row_availability rows)) ->
  let '(o, s') := main w s in
  o = Returns 0
  /\ sent s' = sent s
  /\ requests s' = requests s
  /\ state_file s'
     = Some (Json (Document
                     (Some (Dict.comprehension row_id record_of_row rows))
                     (Some (default ∅ (doc_location_cache d))))).
Proof. apply main_quiet_run. Qed.

Lemma scenario_saved_wf :
  Dict.wf [("A1", DoctorRecord "A1" "Anna" "Rossi" "available"
                               (Some ["ARCO"; "RIVA"]));
           ("A3", DoctorRecord "A3" "Carla" "Verdi" "available" None)].
Proof.
  unfold Dict.wf. simpl. apply NoDup_cons. split.
  - intros Hin. apply list_elem_of_singleton in Hin. discriminate.
  - apply NoDup_singleton.
Defined.

Lemma main_unchanged_listing_is_quiet_witness :
  let '(o, s') := main Sample.w Scenario.restart in
  o = Returns 0 /\ sent s' = []
  /\ state_file s'
     = Some (Json (Document
                     (Some [("A1", DoctorRecord "A1" "Anna" "Rossi" "available"
                                                 None);
                            ("A3", DoctorRecord "A3" "Carla" "Verdi" "available"
                                                 None)])
                     (Some {[ "A1" := (["ARCO"; "RIVA"], 1699990000) ]}))).
Proof.
  assert (Hc : configured Sample.w) by (repeat split).
  assert (Hr : Sample.rows <> []) by discriminate.
  assert (Hs : forall k,
            rec_availability <$>
              Dict.get k [("A1", DoctorRecord "A1" "Anna" "Rossi" "available"
                                              (Some ["ARCO"; "RIVA"]));
                          ("A3", DoctorRecord "A3" "Carla" "Verdi" "available"
                                              None)]
            = Dict.get k (Dict.comprehension row_id row_availability
                            Sample.rows)).
  { intros k. cbn.
    destruct (String.eqb k "A1"); [reflexivity|].
    destruct (String.eqb k "A3"); reflexivity. }
  pose proof (main_unchanged_listing_is_quiet Sample.w Scenario.restart
                Scenario.saved _ _ Sample.rows eq_refl eq_refl
                scenario_saved_wf Hc eq_refl eq_refl Hr Hs) as H.
  destruct (main Sample.w Scenario.restart) as [o s'].
  destruct H as (H1 & H2 & _ & H4).
  split; [exact H1|]. split; [exact H2 | exact H4].
Defined.

(** The document that a first run writes. *)
Lemma main_first_run_document w s url rows :
  state_file s = None -> configured w ->
  get_search_url w = inr url -> listing_page w url = Listing rows ->
  rows <> [] ->
  state_file (snd (main w s))
  = Some (Json (Document
                  (Some (Dict.comprehension row_id record_of_row rows))
                  (Some ∅)))
  /\ sent (snd (main w s)) = sent s
  /\ requests (snd (main w s)) = requests s.
Proof.
  intros Hfile Hconf Hu Hl Hrows.
  rewrite (main_first_run w s url rows Hfile Hconf Hu Hl Hrows).
  cbv zeta. cbn [snd state_file with_state_file sent requests with_doctors].
  split; [|split; reflexivity].
  do 2 f_equal. unfold dump_state. cbn [sd_doctors sd_location_cache].
  rewrite fmap_empty. do 2 f_equal.
  unfold current_ids, ids_of, Dict.comprehension. simpl.
  apply (dump_ids_rows _ rows (length (doctors s)) []).
  intros i r Hi. apply (doctor_at_scraped s rows i r Hi).
Qed.

(** X13: a first run followed by a run over the same listing.  After a
    first run has seeded the state file, any process that starts from that
    file and finds the same listing returns 0, calls Telegram not at all,
    requests no detail page, and writes the state file it found: the run is
    idempotent on the file. *)
Theorem main_second_run_is_quiet w s url rows :
  state_file s = None -> configured w ->
  get_search_url w = inr url -> listing_page w url = Listing rows ->
  rows <> [] ->
  let '(_, s1) := main w s in
  forall s', state_file s' = state_file s1 ->
    let '(o2, s2) := main w s' in
    o2 = Returns 0
    /\ sent s2 = sent s'
    /\ requests s2 = requests s'
    /\ state_file s2 = state_file s1.
Proof.
  intros Hfile Hconf Hu Hl Hrows.
  pose proof (main_first_run_document w s url rows Hfile Hconf Hu Hl Hrows)
    as (H1 & _).
  destruct (main w s) as [o1 s1]. cbn [snd] in H1.
  intros s' Hs'. rewrite H1 in Hs'.
  pose proof (main_quiet_run w s' _ _ url rows Hs' eq_refl
                (DictFacts.comprehension_wf row_id record_of_row rows)
                Hconf Hu Hl Hrows) as H.
  destruct (main w s') as [o2 s2].
  destruct H as (Ho & Hsent & Hreq & Hf).
  - intros k. rewrite <- get_map. unfold Dict.comprehension.
    rewrite fold_set_map. reflexivity.
  - split; [exact Ho|]. split; [exact Hsent|]. split; [exact Hreq|].
    rewrite Hf, H1. reflexivity.
Qed.

Lemma main_second_run_is_quiet_witness :
  let '(_, s1) := main Sample.w Sample.first in
  let '(o2, s2) := main Sample.w s1 in
  o2 = Returns 0 /\ sent s2 = sent s1 /\ state_file s2 = state_file s1.
Proof.
  assert (Hc : configured Sample.w) by (repeat split).
  assert (Hr : Sample.rows <> []) by discriminate.
  pose proof (main_second_run_is_quiet Sample.w Sample.first _ Sample.rows
                eq_refl Hc eq_refl eq_refl Hr) as H.
  destruct (main Sample.w Sample.first) as [o1 s1].
  specialize (H s1 eq_refl).
  destruct (main Sample.w s1) as [o2 s2].
  destruct H as (H1 & H2 & _ & H4).
  split; [exact H1|]. split; [exact H2 | exact H4].
Defined.

(** ** Escaping for MarkdownV2 *)

Lemma append_assoc (x y z : string) : ((x ++ y) ++ z = x ++ (y ++ z))%string.
Proof.
  induction x as [|c x IH]; [reflexivity|].
  change (String c ((x ++ y) ++ z) = String c (x ++ (y ++ z)))%string.
  now f_equal.
Qed.

Lemma replace_char_cons a new c s :
  replace (String c s) (String a EmptyString) new
  = if ascii_dec a c
    then (new ++ replace s (String a EmptyString) new)%string
    else String c (replace s (String a EmptyString) new).
Proof.
  unfold replace. simpl. destruct (ascii_dec a c); [|reflexivity].
  now destruct s.
Qed.

(** Replacing a one-character string commutes with concatenation. *)
Lemma replace_char_app a new x y :
  replace (x ++ y)%string (String a EmptyString) new
  = (replace x (String a EmptyString) new
     ++ replace y (String a EmptyString) new)%string.
Proof.
  induction x as [|c x IH]; [reflexivity|].
  change (String c x ++ y)%string with (String c (x ++ y)%string).
  rewrite !replace_char_cons, IH.
  destruct (ascii_dec a c); [|reflexivity]. now rewrite append_assoc.
Qed.

Lemma escape_markdown_app x y :
  escape_markdown (x ++ y)%string
  = (escape_markdown x ++ escape_markdown y)%string.
Proof.
  unfold escape_markdown, special_chars. cbn [fold_left].
  now rewrite !replace_char_app.
Qed.

Lemma escape_markdown_char c :
  escape_markdown (String c EmptyString) = escape_each (String c EmptyString).
Proof.
  destruct c as [[] [] [] [] [] [] [] []]; vm_compute; reflexivity.
Qed.

Lemma escape_markdown_cons c s :
  escape_markdown (String c s)
  = if is_special c then String backslash (String c (escape_markdown s))
    else String c (escape_markdown s).
Proof.
  change (String c s) with (String c EmptyString ++ s)%string.
  rewrite escape_markdown_app, escape_markdown_char. simpl.
  now destruct (is_special c).
Qed.

Lemma escape_markdown_spec s : escape_markdown s = escape_each s.
Proof.
  induction s as [|c s IH]; [reflexivity|].
  rewrite escape_markdown_cons, IH. reflexivity.
Qed.

(** X14: [escape_markdown] escapes each special character once.  The text
    it returns is the text it is given with one backslash put before every
    occurrence of one of the eighteen characters of [special_chars], and
    with every other character, the backslash among them, left as it is:
    the eighteen replacements, done one after the other, never escape what
    an earlier one has written.  The result is at most twice as long as the
    text. *)
Theorem escape_markdown_each_char (text : string) :
  escape_markdown text = escape_each text
  /\ is_special backslash = false
  /\ (String.length text <= String.length (escape_markdown text)
      <= 2 * String.length text)%nat.
Proof.
  split; [apply escape_markdown_spec|]. split; [reflexivity|].
  rewrite escape_markdown_spec.
  induction text as [|c s IH]; simpl; [lia|].
  destruct (is_special c); simpl; lia.
Qed.

Lemma escape_each_head s :
  match escape_each s with
  | String d _ => is_special d = false
  | EmptyString => True
  end.
Proof.
  destruct s as [|c s]; simpl; [exact I|].
  destruct (is_special c) eqn:E; simpl; [reflexivity | exact E].
Qed.

Lemma unescape_escape_each s : unescape (escape_each s) = s.
Proof.
  induction s as [|c s IH]; [reflexivity|].
  cbn [escape_each]. destruct (is_special c) eqn:E.
  - cbn [unescape]. rewrite Ascii.eqb_refl, E. cbn [andb]. now rewrite IH.
  - pose proof (escape_each_head s) as H. cbn [unescape].
    destruct (escape_each s) as [|d r] eqn:Er.
    + destruct s as [|c' s']; [reflexivity|]. simpl in Er.
      destruct (is_special c'); discriminate.
    + rewrite H, andb_false_r. now rewrite IH.
Qed.

(** X15: escaping loses nothing.  Reading the text that [escape_markdown]
    returns, with each backslash that stands before a special character
    dropped, gives the text back; so two different texts are never escaped
    to the same one. *)
Theorem escape_markdown_reads_back (text : string) :
  unescape (escape_markdown text) = text
  /\ forall other, escape_markdown text = escape_markdown other ->
                   text = other.
Proof.
  split.
  - rewrite escape_markdown_spec. apply unescape_escape_each.
  - intros other H. rewrite !escape_markdown_spec in H.
    rewrite <- (unescape_escape_each text), H. apply unescape_escape_each.
Qed.

(** ** The groups of the message *)

Lemma get_set_eq {V : Type} (d : list (string * V)) k v :
  Dict.get k (Dict.set k v d) = Some v.
Proof.
  induction d as [|[k0 v0] d IH]; simpl.
  - now rewrite String.eqb_refl.
  - destruct (String.eqb k k0) eqn:E; simpl; rewrite E; [reflexivity | exact IH].
Qed.

Lemma get_set_ne {V : Type} (d : list (string * V)) k k' v :
  k' <> k -> Dict.get k' (Dict.set k v d) = Dict.get k' d.
Proof.
  intros Hne. induction d as [|[k0 v0] d IH]; simpl.
  - destruct (String.eqb_spec k' k); [contradiction | reflexivity].
  - destruct (String.eqb_spec k k0) as [->|Hk]; simpl.
    + destruct (String.eqb_spec k' k0); [contradiction | reflexivity].
    + now rewrite IH.
Qed.

Lemma group_doctor_keys groups d :
  Dict.keys (group_doctor groups d)
  = if Dict.contains (rec_availability d) groups then Dict.keys groups
    else Dict.keys groups ++ [rec_availability d].
Proof.
  unfold group_doctor. cbv zeta. rewrite DictFacts.keys_set.
  destruct (Dict.contains (rec_availability d) groups) eqn:E; simpl.
  - now rewrite E.
  - unfold Dict.contains at 1. rewrite get_set_eq.
    rewrite DictFacts.keys_set, E. reflexivity.
Qed.

Lemma group_doctor_wf groups d : Dict.wf groups -> Dict.wf (group_doctor groups d).
Proof.
  intros H. unfold group_doctor. cbv zeta. apply DictFacts.wf_set.
  destruct (negb _); [now apply DictFacts.wf_set | exact H].
Qed.

Lemma group_doctor_get groups d k :
  Dict.get k (group_doctor groups d)
  = if String.eqb (rec_availability d) k
    then Some (default [] (Dict.get k groups) ++ [d])
    else Dict.get k groups.
Proof.
  unfold group_doctor. cbv zeta.
  destruct (String.eqb_spec (rec_availability d) k) as [<-|Hne].
  - rewrite get_set_eq. do 2 f_equal.
    unfold Dict.contains.
    destruct (Dict.get (rec_availability d) groups) eqn:E; simpl.
    + now rewrite E.
    + now rewrite get_set_eq.
  - rewrite get_set_ne by congruence.
    destruct (negb _); [|reflexivity]. now rewrite get_set_ne by congruence.
Qed.

Lemma group_by_availability_snoc added d :
  group_by_availability (added ++ [d])
  = group_doctor (group_by_availability added) d.
Proof. unfold group_by_availability. now rewrite fold_left_app. Qed.

Lemma group_by_availability_get added : forall k,
  Dict.get k (group_by_availability added)
  = match with_availability k added with
    | [] => None
    | g => Some g
    end.
Proof.
  induction added as [|d added IH] using rev_ind; intros k; [reflexivity|].
  rewrite group_by_availability_snoc, group_doctor_get, IH.
  unfold with_availability. rewrite List.filter_app. simpl.
  destruct (String.eqb (rec_availability d) k).
  - destruct (List.filter _ added); reflexivity.
  - now rewrite app_nil_r.
Qed.

Lemma group_by_availability_wf added : Dict.wf (group_by_availability added).
Proof.
  induction added as [|d added IH] using rev_ind.
  - apply NoDup_nil_2.
  - rewrite group_by_availability_snoc. now apply group_doctor_wf.
Qed.

Lemma group_by_availability_keys added :
  Dict.keys (group_by_availability added)
  = Dict.keys (Dict.comprehension rec_availability (fun d => d) added).
Proof.
  induction added as [|d added IH] using rev_ind; [reflexivity|].
  rewrite group_by_availability_snoc, group_doctor_keys.
  unfold Dict.comprehension in *. rewrite fold_left_app. simpl.
  rewrite DictFacts.keys_set, <- IH.
  now rewrite (contains_same_keys _ _ _ IH).
Qed.

(** X16: the message groups the added doctors by availability, losing
    none.  [availability_groups] has one entry for each availability that
    occurs among the added doctors, in the order in which the
    availabilities first occur; the entry of an availability is the list
    of all added doctors that have it, in the order of [added]; no entry is
    empty. *)
Theorem group_by_availability_classes (added : list doctor_record) :
  let groups := group_by_availability added in
  Dict.wf groups
  /\ Dict.keys groups
     = Dict.keys (Dict.comprehension rec_availability (fun d => d) added)
  /\ (forall k g, (k, g) ∈ groups
                  <-> g <> [] /\ g = with_availability k added)
  /\ (forall d, d ∈ added ->
        exists g, (rec_availability d, g) ∈ groups /\ d ∈ g).
Proof.
  intros groups. pose proof (group_by_availability_wf added) as Hwf.
  assert (Hiff : forall k g, (k, g) ∈ groups
                   <-> g <> [] /\ g = with_availability k added).
  { intros k g. split.
    - intros Hin. apply (DictFacts.elem_get _ _ _ Hwf) in Hin.
      unfold groups in Hin. rewrite group_by_availability_get in Hin.
      destruct (with_availability k added) eqn:E; [discriminate|].
      injection Hin as <-. split; [discriminate | reflexivity].
    - intros [Hne ->]. apply DictFacts.get_Some_elem. unfold groups.
      rewrite group_by_availability_get.
      destruct (with_availability k added); [contradiction | reflexivity]. }
  split; [exact Hwf|]. split; [apply group_by_availability_keys|].
  split; [exact Hiff|].
  intros d Hd. exists (with_availability (rec_availability d) added).
  assert (Hin : d ∈ with_availability (rec_availability d) added).
  { unfold with_availability. apply list_elem_of_In, filter_In.
    split; [now apply list_elem_of_In | apply String.eqb_refl]. }
  split; [|exact Hin]. apply Hiff. split; [|reflexivity].
  intros E. rewrite E in Hin. now apply elem_of_nil in Hin.
Qed.

(** ** The rows of the listing page *)

Lemma scrape_row_gives cols d : scrape_row cols = inr d <-> row_gives cols d.
Proof.
  unfold scrape_row, row_gives. split.
  - destruct cols as [|c0 [|c1 [|c2 [|c3 more]]]]; try discriminate.
    destruct (cell_link c3) as [[[detail_url|]]|] eqn:El; try discriminate.
    destruct (search_code detail_url) as [doctor_id|] eqn:Es; [|discriminate].
    intros [= <-]. exists c0, c1, c2, c3, more, detail_url. simpl.
    repeat split; assumption.
  - intros (c0 & c1 & c2 & c3 & more & detail_url & -> & H1 & H2 & H3 & Hl & Hs).
    rewrite Hl, Hs. destruct d; simpl in *. now subst.
Qed.

Lemma scrape_row_error cols e :
  scrape_row cols = inl e -> exists msg, e = ValueError msg.
Proof.
  unfold scrape_row.
  destruct cols as [|c0 [|c1 [|c2 [|c3 more]]]];
    try (intros [= <-]; eauto; fail).
  destruct (cell_link c3) as [[[detail_url|]]|];
    try (intros [= <-]; eauto; fail).
  destruct (search_code detail_url); [discriminate|]. intros [= <-]. eauto.
Qed.

Lemma scrape_table_rows_ok rows : forall acc res,
  scrape_table_rows rows acc = inr res
  <-> exists ds, res = acc ++ ds /\ Forall2 row_gives rows ds.
Proof.
  induction rows as [|row rows IH]; intros acc res; simpl.
  - split.
    + intros [= <-]. exists []. now rewrite app_nil_r.
    + intros (ds & -> & H). apply Forall2_nil_inv_l in H as ->.
      now rewrite app_nil_r.
  - destruct (scrape_row row) as [e|d] eqn:E.
    + split; [discriminate|]. intros (ds & _ & H).
      apply Forall2_cons_inv_l in H as (d & ds' & Hd & _ & _).
      apply scrape_row_gives in Hd. congruence.
    + rewrite IH. split.
      * intros (ds & -> & H). exists (d :: ds). rewrite <- app_assoc.
        split; [reflexivity|]. constructor; [|exact H].
        now apply scrape_row_gives.
      * intros (ds & -> & H).
        apply Forall2_cons_inv_l in H as (d' & ds' & Hd & H & ->).
        apply scrape_row_gives in Hd. rewrite E in Hd. injection Hd as <-.
        exists ds'. rewrite <- app_assoc. now split.
Qed.

Lemma scrape_table_rows_error rows : forall acc e,
  scrape_table_rows rows acc = inl e
  <-> exists good bad rest,
        rows = good ++ bad :: rest
        /\ (exists ds, Forall2 row_gives good ds)
        /\ scrape_row bad = inl e.
Proof.
  induction rows as [|row rows IH]; intros acc e; simpl.
  - split; [discriminate|]. intros (good & bad & rest & H & _).
    now destruct good.
  - destruct (scrape_row row) as [e'|d] eqn:E.
    + split.
      * intros [= <-]. exists [], row, rows. split; [reflexivity|].
        split; [exists []; constructor | exact E].
      * intros (good & bad & rest & H & (ds & Hg) & Hb).
        destruct good as [|g good]; simpl in H; injection H as <- ->.
        -- congruence.
        -- apply Forall2_cons_inv_l in Hg as (d & ds' & Hd & _ & _).
           apply scrape_row_gives in Hd. congruence.
    + rewrite IH. split.
      * intros (good & bad & rest & -> & (ds & Hg) & Hb).
        exists (row :: good), bad, rest. split; [reflexivity|].
        split; [|exact Hb]. exists (d :: ds). constructor; [|exact Hg].
        now apply scrape_row_gives.
      * intros (good & bad & rest & H & (ds & Hg) & Hb).
        destruct good as [|g good]; simpl in H; injection H as <- ->.
        -- congruence.
        -- apply Forall2_cons_inv_l in Hg as (d' & ds' & _ & Hg & _).
           exists good, bad, rest. split; [reflexivity|].
           split; [now exists ds' | exact Hb].
Qed.

(** X17: the listing is parsed whole or not at all.  [scrape_doctor_list],
    from the parsed page on, returns a list exactly when the page has a
    table with a body and every row of it has at least four cells and, in
    the fourth, a link whose [href] has the doctor code; the list then has
    one doctor per row, in the order of the rows, with the texts of the
    first three cells and the code of the link.  Otherwise it raises a
    [ValueError], that of the first row that is not accepted, and no doctor
    of the rows before it is returned. *)
Theorem scrape_page_all_or_nothing (p : page) :
  (forall doctors,
     scrape_page p = inr doctors
     <-> exists rows, page_table p = Some (Some rows)
                      /\ Forall2 row_gives rows doctors)
  /\ (forall e,
        scrape_page p = inl e ->
        (exists msg, e = ValueError msg)
        /\ (forall rows, page_table p = Some (Some rows) ->
              exists good bad rest,
                rows = good ++ bad :: rest
                /\ (exists ds, Forall2 row_gives good ds)
                /\ scrape_row bad = inl e)).
Proof.
  unfold scrape_page. destruct (page_table p) as [[rows|]|].
  - split.
    + intros doctors. rewrite scrape_table_rows_ok. split.
      * intros (ds & -> & H). exists rows. now split.
      * intros (rows' & [= <-] & H). exists doctors. now split.
    + intros e He. apply scrape_table_rows_error in He.
      split.
      * destruct He as (good & bad & rest & _ & _ & Hb).
        now apply (scrape_row_error bad).
      * intros rows' [= <-]. exact He.
  - split.
    + intros doctors. split; [discriminate|]. intros (rows & H & _).
      discriminate.
    + intros e [= <-]. split; [eauto|]. discriminate.
  - split.
    + intros doctors. split; [discriminate|]. intros (rows & H & _).
      discriminate.
    + intros e [= <-]. split; [eauto|]. discriminate.
Qed.

(** ** The doctor code of a link *)

Lemma search_code_cons c url :
  search_code (String c url)
  = if String.prefix "codMedicoMg=" (String c url)
    then match code_run (drop_chars 12 (String c url)) with
         | EmptyString => search_code url
         | code => Some code
         end
    else search_code url.
Proof. reflexivity. Qed.

Lemma prefix_drop p : forall s,
  String.prefix p s = true -> s = (p ++ drop_chars (String.length p) s)%string.
Proof.
  induction p as [|a p IH]; intros s H.
  - now destruct s.
  - destruct s as [|b s]; [discriminate|]. simpl in H.
    destruct (ascii_dec a b) as [->|]; [|discriminate].
    change (String b s
            = String b (p ++ drop_chars (String.length p) s)%string).
    f_equal. now apply IH.
Qed.

Lemma prefix_append p s : String.prefix p (p ++ s)%string = true.
Proof.
  induction p as [|a p IH]; [now destruct s|].
  change (match ascii_dec a a with
          | left _ => String.prefix p (p ++ s)%string
          | right _ => false
          end = true).
  destruct (ascii_dec a a); [exact IH | contradiction].
Qed.

Lemma code_run_no_amp s : has_amp (code_run s) = false.
Proof.
  induction s as [|c s IH]; simpl; [reflexivity|].
  destruct (Ascii.eqb c amp) eqn:E; simpl; [reflexivity|]. now rewrite E.
Qed.

Lemma code_run_split s :
  exists post, s = (code_run s ++ post)%string /\ code_run post = EmptyString.
Proof.
  induction s as [|c s (post & IH & Hp)]; simpl.
  - now exists EmptyString.
  - destruct (Ascii.eqb c amp) eqn:E.
    + exists (String c s). split; [reflexivity|]. simpl. now rewrite E.
    + exists post. split; [|exact Hp].
      change (String c s = String c (code_run s ++ post)%string).
      now f_equal.
Qed.

Lemma code_run_id s : has_amp s = false -> code_run s = s.
Proof.
  induction s as [|c s IH]; simpl; [reflexivity|].
  destruct (Ascii.eqb c amp); simpl; [discriminate|].
  intros H. now rewrite IH.
Qed.

Lemma search_code_found url : forall doctor_id,
  search_code url = Some doctor_id ->
  doctor_id <> EmptyString
  /\ has_amp doctor_id = false
  /\ exists pre post,
       url = (pre ++ "codMedicoMg=" ++ doctor_id ++ post)%string
       /\ code_run post = EmptyString.
Proof.
  induction url as [|c url IH]; intros doctor_id; [discriminate|].
  rewrite search_code_cons.
  assert (Hrec : search_code url = Some doctor_id ->
            doctor_id <> EmptyString
            /\ has_amp doctor_id = false
            /\ exists pre post,
                 String c url = (pre ++ "codMedicoMg=" ++ doctor_id ++ post)%string
                 /\ code_run post = EmptyString).
  { intros H. destruct (IH _ H) as (H1 & H2 & pre & post & -> & Hp).
    split; [exact H1|]. split; [exact H2|].
    exists (String c pre), post. now split. }
  destruct (String.prefix "codMedicoMg=" (String c url)) eqn:Ep; [|exact Hrec].
  destruct (code_run (drop_chars 12 (String c url))) as [|c' r] eqn:Er;
    [exact Hrec|].
  intros [= <-]. split; [discriminate|]. split.
  - rewrite <- Er. apply code_run_no_amp.
  - destruct (code_run_split (drop_chars 12 (String c url)))
      as (post & Hs & Hp).
    exists EmptyString, post. split; [|exact Hp].
    rewrite <- Er. cbn [String.append].
    rewrite (prefix_drop _ _ Ep) at 1.
    change (String.length "codMedicoMg=") with 12%nat.
    rewrite Hs at 1. reflexivity.
Qed.

Lemma search_code_skip c url :
  String.prefix "codMedicoMg=" (String c url) = false ->
  search_code (String c url) = search_code url.
Proof. intros H. now rewrite search_code_cons, H. Qed.

Lemma search_code_here doctor_id :
  doctor_id <> EmptyString -> has_amp doctor_id = false ->
  search_code ("codMedicoMg=" ++ doctor_id)%string = Some doctor_id.
Proof.
  intros Hne Ha.
  change ("codMedicoMg=" ++ doctor_id)%string
    with (String "c" ("odMedicoMg=" ++ doctor_id)%string).
  rewrite search_code_cons.
  change (String "c" ("odMedicoMg=" ++ doctor_id)%string)
    with ("codMedicoMg=" ++ doctor_id)%string.
  rewrite prefix_append.
  change (drop_chars 12 ("codMedicoMg=" ++ doctor_id)%string) with doctor_id.
  rewrite (code_run_id _ Ha). now destruct doctor_id.
Qed.

Lemma search_code_detail_url doctor_id :
  doctor_id <> EmptyString -> has_amp doctor_id = false ->
  search_code (get_doctor_detail_url doctor_id) = Some doctor_id.
Proof.
  intros Hne Ha. unfold get_doctor_detail_url. cbn [String.append].
  repeat (rewrite search_code_skip by reflexivity).
  now apply search_code_here.
Qed.

(** X18: the code taken from a link leads back to itself.  When the
    pattern of [scrape_doctor_list] finds a code in an [href], the code is
    not empty and has no ampersand, it stands in the [href] right after the
    leftmost [codMedicoMg=] that is followed by such a run and it ends
    where the [href] ends or an ampersand begins; and the detail URL that
    [get_doctor_detail_url] builds from the code has the same code. *)
Theorem search_code_round_trip (url doctor_id : string) :
  search_code url = Some doctor_id ->
  doctor_id <> EmptyString
  /\ has_amp doctor_id = false
  /\ (exists pre post,
        url = (pre ++ "codMedicoMg=" ++ doctor_id ++ post)%string
        /\ code_run post = EmptyString)
  /\ search_code (get_doctor_detail_url doctor_id) = Some doctor_id.
Proof.
  intros H. destruct (search_code_found url doctor_id H) as (H1 & H2 & H3).
  split; [exact H1|]. split; [exact H2|]. split; [exact H3|].
  now apply search_code_detail_url.
Qed.

Lemma search_code_round_trip_witness :
  search_code "medico.php?codMedicoMg=A1&from=list" = Some "A1"
  /\ search_code (get_doctor_detail_url "A1") = Some "A1".
Proof.
  split; [reflexivity|].
  apply (search_code_round_trip "medico.php?codMedicoMg=A1&from=list" "A1").
  reflexivity.
Defined.
